(** * Azure driver: multi-part streams, header elision, handle registry

    Shallow embedding of [src/azureplugin.cpp] (khiopsdriver-azure) and
    proofs about the virtual multi-part stream abstraction it implements. *)

From Stdlib.Strings Require Import Byte Ascii String.
From stdpp Require Import base numbers list strings pretty.

Local Open Scope Z_scope.

(** ** Machine integers

    [long long], [tOffset] and [int64_t] are 64-bit signed integers, [size_t]
    is a 64-bit unsigned integer.  Values are kept in [Z]; the wrap-around of
    every arithmetic operation of the source is written out. *)

Definition max_val : Z := 2 ^ 63 - 1.
Definition min_val : Z := - 2 ^ 63.
Definition size_max : Z := 2 ^ 64 - 1.

Definition wrap64 (z : Z) : Z := (z + 2 ^ 63) `mod` 2 ^ 64 - 2 ^ 63.
Definition wrapU64 (z : Z) : Z := z `mod` 2 ^ 64.

Definition add64 (a b : Z) : Z := wrap64 (a + b).
Definition sub64 (a b : Z) : Z := wrap64 (a - b).
Definition mulU64 (a b : Z) : Z := wrapU64 (a * b).

Definition in_int64 (z : Z) : Prop := min_val <= z <= max_val.

(** ** Constants of the driver interface *)

(** Modelled from the spec: the sentinel values of [azureplugin_internal.h],
    which is not part of the sources at hand.  Every failure is "a sentinel
    failure value appropriate to its return type (a negative size, a null
    handle, a non-success status)"; the test of the size query expects [-1]. *)
Definition kSuccess : Z := 1.
Definition kFailure : Z := 0.
Definition kFalse : Z := 0.
Definition kTrue : Z := 1.
Definition kBadSize : Z := -1.
Definition kCloseSuccess : Z := 0.
Definition kCloseEOF : Z := -1.

(** [std::ios::beg], [std::ios::cur] and [std::ios::end]. *)
Definition ios_beg : Z := 0.
Definition ios_cur : Z := 1.
Definition ios_end : Z := 2.

(** [std::to_string] on a signed integer. *)
Definition to_string (z : Z) : string := pretty z.

(** ** Streams and the handle registry *)

(** A handle is the address of the stream object it designates. *)
Definition Handle : Type := Z.
Definition nullptr : Handle := 0.

(** Modelled from the spec: the [Reader] structure of
    [azureplugin_internal.h].  The fields are the ones the source reads and
    writes; the constructor receives bucket, object, offset, common header
    length, part names and cumulative sizes, and the total size is the last
    cumulative size ("total logical size = cumulative-logical-size.last (or 0
    if empty)"). *)
Record Reader : Type := mkReader {
  bucketname_ : string;
  filename_ : string;
  offset_ : Z;
  commonHeaderLength_ : Z;
  filenames_ : list string;
  cumulativeSize_ : list Z;
  total_size_ : Z
}.

Definition make_Reader (bucket object : string) (offset commonHeaderLength : Z)
    (filenames : list string) (cumulativeSize : list Z) : Reader :=
  {| bucketname_ := bucket; filename_ := object; offset_ := offset;
     commonHeaderLength_ := commonHeaderLength; filenames_ := filenames;
     cumulativeSize_ := cumulativeSize;
     total_size_ := default 0 (last cumulativeSize) |}.

Definition set_offset (r : Reader) (o : Z) : Reader :=
  {| bucketname_ := bucketname_ r; filename_ := filename_ r; offset_ := o;
     commonHeaderLength_ := commonHeaderLength_ r; filenames_ := filenames_ r;
     cumulativeSize_ := cumulativeSize_ r; total_size_ := total_size_ r |}.

(** Modelled from the spec: the [Writer] structure of
    [azureplugin_internal.h]: container, bound part name and the append client
    created for that pair ("append-only cursor bound to exactly one physical
    part"). *)
Record Writer : Type := mkWriter {
  writer_bucketname_ : string;
  writer_filename_ : string
}.

(** [StreamVec<Stream>]: a vector of owning pointers; an entry is the address
    of the stream together with the stream it points to. *)
Abbreviation StreamVec Stream := (list (Handle * Stream)).

(** The global variables of the driver. *)
Record Driver : Type := mkDriver {
  bIsConnected : Z;
  lastError : string;
  active_reader_handles : StreamVec Reader;
  active_writer_handles : StreamVec Writer
}.

Definition LogError (msg : string) (d : Driver) : Driver :=
  {| bIsConnected := bIsConnected d; lastError := msg;
     active_reader_handles := active_reader_handles d;
     active_writer_handles := active_writer_handles d |}.

Definition set_readers (hs : StreamVec Reader) (d : Driver) : Driver :=
  {| bIsConnected := bIsConnected d; lastError := lastError d;
     active_reader_handles := hs;
     active_writer_handles := active_writer_handles d |}.

Definition set_writers (hs : StreamVec Writer) (d : Driver) : Driver :=
  {| bIsConnected := bIsConnected d; lastError := lastError d;
     active_reader_handles := active_reader_handles d;
     active_writer_handles := hs |}.

(** [FindHandle]: [std::find_if] on the address; the position of the first
    entry whose pointer is [h], or [None] for [end()]. *)
Definition FindHandle {Stream : Type} (h : Handle) (handles : StreamVec Stream)
    : option (nat * (Handle * Stream)) :=
  list_find (λ act_h_ptr, h = act_h_ptr.1) handles.

Definition FindReader (h : Handle) (d : Driver) := FindHandle h (active_reader_handles d).
Definition FindWriter (h : Handle) (d : Driver) := FindHandle h (active_writer_handles d).

(** [EraseRemove]: [*pos = std::move(handles.back()); handles.pop_back();]. *)
Definition EraseRemove {Stream : Type} (pos : nat) (handles : StreamVec Stream)
    : StreamVec Stream :=
  match last handles with
  | Some back => take (length handles - 1) (<[pos := back]> handles)
  | None => handles
  end.

(** Outcome of a call that may hit an [assert], leave the bounds of a vector
    or run a loop of the source longer than the fuel it was given. *)
Inductive Fault : Type := AssertFailed | OutOfRange | OutOfFuel.

(** [driver_fclose]. *)
Definition driver_fclose (d : Driver) (stream : Handle) : (Fault + Z) * Driver :=
  if bool_decide (bIsConnected d = 0) then (inl AssertFailed, d)
  else if bool_decide (stream = nullptr) then
    (inr kCloseEOF, LogError "Error passing null pointer to driver_fclose" d)
  else
    match FindReader stream d with
    | Some (pos, _) =>
        (inr kCloseSuccess, set_readers (EraseRemove pos (active_reader_handles d)) d)
    | None =>
        match FindWriter stream d with
        | Some (pos, _) =>
            (inr kCloseSuccess, set_writers (EraseRemove pos (active_writer_handles d)) d)
        | None => (inr kCloseEOF, LogError "Cannot identify stream." d)
        end
    end.

(** [driver_fseek]. *)
Definition driver_fseek (d : Driver) (stream : Handle) (offset whence : Z) : Z * Driver :=
  if bool_decide (kFalse = bIsConnected d) then
    (kBadSize, LogError "Error: driver not connected." d)
  else if bool_decide (stream = nullptr) then
    (kBadSize, LogError "Error passing null pointer to driver_fseek" d)
  else
    match FindReader stream d with
    | None => (kBadSize, LogError "Cannot identify stream as a reader stream." d)
    | Some (pos, (h, reader)) =>
        let overflow := (kBadSize, LogError "Signed overflow prevented" d) in
        let finish (computed_offset : Z) :=
          if bool_decide (computed_offset < 0) then
            (kBadSize, LogError ("Invalid seek offset " +:+ to_string computed_offset) d)
          else
            (0, set_readers
                  (<[pos := (h, set_offset reader computed_offset)]> (active_reader_handles d)) d) in
        if bool_decide (whence = ios_beg) then finish offset
        else if bool_decide (whence = ios_cur) then
          if bool_decide (offset > sub64 max_val (offset_ reader)) then overflow
          else finish (add64 (offset_ reader) offset)
        else if bool_decide (whence = ios_end) then
          if bool_decide (total_size_ reader > 0)
             && bool_decide (offset > sub64 max_val (sub64 (total_size_ reader) 1))
          then overflow
          else if bool_decide (offset = min_val) && bool_decide (total_size_ reader = 0)
          then overflow
          else finish (if bool_decide (total_size_ reader = 0) then offset
                       else add64 (sub64 (total_size_ reader) 1) offset)
        else (kBadSize, LogError ("Invalid seek mode " +:+ to_string whence) d)
    end.

Global Instance byte_eq_dec : EqDecision byte := Byte.byte_eq_dec.

(** ** Exceptions and results *)

(** [Azure::Core::Http::HttpStatusCode], by its numeric value. *)
Definition HttpStatusCode : Type := Z.
Definition HttpStatusCode_None : HttpStatusCode := 0.
Definition HttpStatusCode_BadRequest : HttpStatusCode := 400.
Definition HttpStatusCode_NotFound : HttpStatusCode := 404.

(** What the collaborators throw: an [Azure::Storage::StorageException] with
    its status code and reason phrase, or any other [std::exception]. *)
Inductive Exception : Type :=
  | StorageException (StatusCode : HttpStatusCode) (ReasonPhrase : string)
  | std_exception (what : string).

(** [DriverResult<T>]: a value, or the status code and reason phrase of the
    raw response of a failure. *)
Inductive DriverResult (T : Type) : Type :=
  | DriverSuccess (value : T)
  | DriverFailure (code : HttpStatusCode) (reason : string).
Arguments DriverSuccess {T} value.
Arguments DriverFailure {T} code reason.

Definition MakeDriverHttpFailure {T : Type} (code : HttpStatusCode) (reason : string)
    : DriverResult T := DriverFailure code reason.

Definition MakeDriverFailureFromException {T : Type} (e : Exception) : DriverResult T :=
  match e with
  | StorageException code reason => MakeDriverHttpFailure code reason
  | std_exception what => MakeDriverHttpFailure HttpStatusCode_None what
  end.

Definition MakeDriverSuccess {T : Type} (value : T) : DriverResult T := DriverSuccess value.

Definition ConvertFailureTo {T U : Type} (r : DriverResult T) : DriverResult U :=
  match r with
  | DriverSuccess _ => DriverFailure HttpStatusCode_None ""
  | DriverFailure code reason => DriverFailure code reason
  end.

Definition is_success {T : Type} (r : DriverResult T) : bool :=
  match r with DriverSuccess _ => true | DriverFailure _ _ => false end.

Definition GetReasonPhrase {T : Type} (r : DriverResult T) : string :=
  match r with DriverSuccess _ => "" | DriverFailure _ reason => reason end.

(** [LogBadResult]: the message, a colon and the reason phrase. *)
Definition LogBadResult {T : Type} (result : DriverResult T) (msg : string) (d : Driver)
    : Driver := LogError (msg +:+ ": " +:+ GetReasonPhrase result) d.

(** ** The remote store

    The object store is a collaborator: the driver only sees the answers of
    the SDK calls.  A call is a function of the state of the store; the
    model also records every request the driver issues, in order. *)

Record BlobItem : Type := mkBlobItem {
  Name : string;
  BlobSize : Z;
  IsDeleted : bool
}.

(** Answer of a ranged download: the bytes delivered into the destination
    (their number is [ContentRange.Length]) and the size of the whole blob. *)
Record DownloadResult : Type := mkDownloadResult {
  dl_data : list byte;
  dl_BlobSize : Z
}.

(** Answer of [Create] and [CreateIfNotExists]: the [Created] flag and the
    status of the raw response. *)
Record CreateResult : Type := mkCreateResult {
  Created : bool;
  raw_StatusCode : HttpStatusCode;
  raw_ReasonPhrase : string
}.

Inductive Request : Type :=
  | ReqListBlobs (container prefix : string)
  | ReqGetProperties (container blob : string)
  | ReqDownloadTo (container blob : string) (range_start range_length : Z)
  | ReqCreate (container blob : string)
  | ReqCreateIfNotExists (container blob : string)
  | ReqAppendBlock (container blob : string) (block : list byte).

Inductive Outcome (A : Type) : Type :=
  | Ret (a : A)
  | Throw (e : Exception)
  | Stop (f : Fault).
Arguments Ret {A} a.
Arguments Throw {A} e.
Arguments Stop {A} f.

(** The SDK calls the driver makes.  [ListBlobs] returns the items of all
    pages in listing order; [gitignore_glob_match] is the matcher of
    [contrib/matching.h]; [Url_*] are the accessors of [Azure::Core::Url] on
    the text of a locator; [allocate] is the address [std::make_unique]
    returns, given the addresses of the live streams. *)
Class BlobService (World : Type) : Type := {
  ListBlobs : string → string → World → Outcome (list BlobItem) * World;
  GetProperties : string → string → World → Outcome Z * World;
  DownloadTo : string → string → Z → Z → World → Outcome DownloadResult * World;
  Create : string → string → World → Outcome CreateResult * World;
  CreateIfNotExists : string → string → World → Outcome CreateResult * World;
  AppendBlock : string → string → list byte → World → Outcome () * World;
  gitignore_glob_match : string → string → bool;
  Url_GetScheme : string → string;
  Url_GetHost : string → string;
  Url_GetPath : string → string;
  allocate : list Handle → Handle
}.

(** A computation against the store: it runs from a state of the store and
    the requests issued so far. *)
Definition Remote (World A : Type) : Type :=
  World * list Request → Outcome A * (World * list Request).

Section Driver.
Context {World : Type}.

Definition ret {A : Type} (a : A) : Remote World A := λ s, (Ret a, s).
Definition throw {A : Type} (e : Exception) : Remote World A := λ s, (Throw e, s).
Definition stop {A : Type} (f : Fault) : Remote World A := λ s, (Stop f, s).

Definition bind {A B : Type} (m : Remote World A) (k : A → Remote World B) : Remote World B :=
  λ s, match m s with
       | (Ret a, s') => k a s'
       | (Throw e, s') => (Throw e, s')
       | (Stop f, s') => (Stop f, s')
       end.

(** [try { m } catch (...)]: the exception becomes a value. *)
Definition try_ {A : Type} (m : Remote World A) : Remote World (Exception + A) :=
  λ s, match m s with
       | (Ret a, s') => (Ret (inr a), s')
       | (Throw e, s') => (Ret (inl e), s')
       | (Stop f, s') => (Stop f, s')
       end.

(** Issue a request: it is recorded, then answered by the store. *)
Definition call {A : Type} (rq : Request) (f : World → Outcome A * World) : Remote World A :=
  λ s, let '(o, w') := f s.1 in (o, (w', s.2 ++ [rq])).

(** [v[i]] on a vector; leaving its bounds is undefined behaviour. *)
Definition at_ {A : Type} (v : list A) (i : nat) : Remote World A :=
  match v !! i with
  | Some x => ret x
  | None => stop OutOfRange
  end.

End Driver.

Notation "x <- m ;; k" := (bind m (λ x, k))
  (at level 100, m at next level, right associativity,
   format "'[v' x  <-  m  ;;  '/' k ']'").

Section Reading.
Context {World : Type} `{BlobService World}.

(** [blob_client.DownloadTo(buffer, length, range(start, length))]. *)
Definition download (container blob : string) (start length : Z) : Remote World DownloadResult :=
  call (ReqDownloadTo container blob start length) (DownloadTo container blob start length).

(** Bytes delivered at position [pos] of a destination buffer. *)
Definition blit (data : list byte) (pos : nat) (buf : list byte) : list byte :=
  take pos buf ++ data ++ drop (pos + length data) buf.

(** [std::upper_bound] on the cumulative sizes: position of the first element
    greater than [x], on a vector sorted in non-decreasing order. *)
Definition upper_bound (v : list Z) (x : Z) : nat :=
  match list_find (λ y, x < y) v with
  | Some (i, _) => i
  | None => length v
  end.

(** The variables [read_range_and_update] captures by reference. *)
Record ReadState : Type := mkReadState {
  rs_offset : Z;
  rs_buffer_pos : Z;
  rs_to_read : Z;
  rs_buffer : list byte
}.

Definition read_range_and_update (container filename : string) (start length : Z)
    (st : ReadState) : Remote World ReadState :=
  dl <- download container filename start length ;;
  ret {| rs_offset := add64 (rs_offset st) length;
         rs_buffer_pos := rs_buffer_pos st + length;
         rs_to_read := sub64 (rs_to_read st) length;
         rs_buffer := blit (dl_data dl) (Z.to_nat (rs_buffer_pos st)) (rs_buffer st) |}.

(** The [while (to_read)] loop of [ReadBytesInFile].  Every turn moves to the
    next part, so the number of parts bounds the number of turns. *)
Fixpoint ReadBytesInFile_next (fuel : nat) (multifile : Reader) (offset_bak : Z)
    (idx : nat) (st : ReadState) : Remote World (DriverResult Z * Reader * list byte) :=
  if bool_decide (rs_to_read st = 0) then
    ret (MakeDriverSuccess (rs_to_read st), set_offset multifile (rs_offset st), rs_buffer st)
  else
    match fuel with
    | O => stop OutOfFuel
    | S fuel' =>
        let idx := S idx in
        let start := commonHeaderLength_ multifile in
        cur <- at_ (cumulativeSize_ multifile) idx ;;
        prev <- at_ (cumulativeSize_ multifile) (idx - 1) ;;
        let length := Z.min (rs_to_read st) (sub64 cur prev) in
        filename <- at_ (filenames_ multifile) idx ;;
        r <- try_ (read_range_and_update (bucketname_ multifile) filename start length st) ;;
        match r with
        | inl e =>
            ret (MakeDriverFailureFromException e, set_offset multifile offset_bak,
                 rs_buffer st)
        | inr st' => ReadBytesInFile_next fuel' multifile offset_bak idx st'
        end
    end.

(** [ReadBytesInFile]: the result, the reader and the destination buffer
    after the call. *)
Definition ReadBytesInFile (multifile : Reader) (buffer : list byte) (to_read : Z)
    : Remote World (DriverResult Z * Reader * list byte) :=
  let cumul_sizes := cumulativeSize_ multifile in
  let common_header_length := commonHeaderLength_ multifile in
  let offset := offset_ multifile in
  let offset_bak := offset in
  let idx := upper_bound cumul_sizes offset in
  cur <- at_ cumul_sizes idx ;;
  file_start <- (if bool_decide (idx = 0%nat) then ret offset
                 else prev <- at_ cumul_sizes (idx - 1) ;;
                      ret (add64 (sub64 offset prev) common_header_length)) ;;
  let read_length := Z.min to_read (sub64 cur offset) in
  filename <- at_ (filenames_ multifile) idx ;;
  let st := {| rs_offset := offset; rs_buffer_pos := 0; rs_to_read := to_read;
               rs_buffer := buffer |} in
  r <- try_ (read_range_and_update (bucketname_ multifile) filename file_start read_length st) ;;
  match r with
  | inl e => ret (MakeDriverFailureFromException e, set_offset multifile offset_bak, buffer)
  | inr st' =>
      ReadBytesInFile_next (length cumul_sizes) multifile offset_bak idx st'
  end.

(** [WillSizeCountProductOverflow], on non-zero operands. *)
Definition WillSizeCountProductOverflow (size count : Z) : bool :=
  let max_prod_usable := max_val in
  bool_decide (max_prod_usable `div` size < count)
  || bool_decide (max_prod_usable `div` count < size).

(** [driver_fread]: the value returned, the globals and the destination
    buffer after the call.  [ptr] is [None] for a null pointer. *)
Definition driver_fread (d : Driver) (ptr : option (list byte)) (size count : Z)
    (stream : Handle) : Remote World (Z * Driver * option (list byte)) :=
  if bool_decide (kFalse = bIsConnected d) then
    ret (kBadSize, LogError "Error: driver not connected." d, ptr)
  else if bool_decide (stream = nullptr) then
    ret (kBadSize, LogError "Error passing null pointer to driver_fread" d, ptr)
  else
    match ptr with
    | None => ret (kBadSize, LogError "Error passing null pointer to driver_fread" d, ptr)
    | Some buffer =>
        if bool_decide (0 = size) then
          ret (kBadSize, LogError "Error passing size of 0" d, ptr)
        else
          match FindReader stream d with
          | None =>
              ret (kBadSize, LogError "Cannot identify stream as a reader stream." d, ptr)
          | Some (pos, (h, reader)) =>
              if bool_decide (0 = count) then ret (0, d, ptr)
              else if WillSizeCountProductOverflow size count then
                ret (kBadSize,
                     LogError "product size * count is too large, would overflow" d, ptr)
              else
                let to_read := wrap64 (mulU64 size count) in
                let offset := offset_ reader in
                if bool_decide (offset > sub64 max_val to_read) then
                  ret (kBadSize,
                       LogError "signed overflow prevented on reading attempt" d, ptr)
                else
                  let total_size := total_size_ reader in
                  if bool_decide (offset >= total_size) then
                    ret (kBadSize,
                         LogError "Error trying to read more bytes while already out of bounds" d,
                         ptr)
                  else
                    let to_read :=
                      if bool_decide (add64 offset to_read > total_size)
                      then sub64 total_size offset else to_read in
                    res <- ReadBytesInFile reader buffer to_read ;;
                    let '(read_res, reader', buffer') := res in
                    let d' := set_readers (<[pos := (h, reader')]> (active_reader_handles d)) d in
                    if is_success read_res then ret (to_read, d', Some buffer')
                    else ret (kBadSize,
                              LogBadResult read_res "Error while reading from file." d',
                              Some buffer')
          end
    end.

End Reading.

(** ** Locators and patterns *)

Inductive Service : Type := UNKNOWN | BLOB | SHARE.

Global Instance Service_eq_dec : EqDecision Service.
Proof. solve_decision. Defined.

Record ParseUriResult : Type := mkParseUriResult {
  service : Service;
  bucket : string;
  object : string
}.

(** [std::string::npos] and [std::string::find] of a character from a
    position. *)
Definition npos : Z := size_max.

Definition string_find (s : string) (c : ascii) (from : Z) : Z :=
  match String.index (Z.to_nat from) (String c EmptyString) s with
  | Some i => Z.of_nat i
  | None => npos
  end.

(** [substr(pos, n)] and [substr(pos)]. *)
Definition substr (s : string) (pos n : Z) : string :=
  String.substring (Z.to_nat pos) (Z.to_nat n) s.

Definition substr_from (s : string) (pos : Z) : string :=
  String.substring (Z.to_nat pos) (String.length s - Z.to_nat pos) s.

Definition compare_suffix (full suffix : string) : bool :=
  let full_length := String.length full in
  let suffix_length := String.length suffix in
  bool_decide (suffix_length ≤ full_length)%nat
  && bool_decide (String.substring (full_length - suffix_length) suffix_length full = suffix).

Section Locators.
Context {World : Type} `{BlobService World}.

(** [ParseAzureUri]. *)
Definition ParseAzureUri (azure_uri : string) : DriverResult ParseUriResult :=
  let scheme := Url_GetScheme azure_uri in
  let host := Url_GetHost azure_uri in
  let path := Url_GetPath azure_uri in
  if bool_decide (scheme ≠ "https") && bool_decide (scheme ≠ "http") then
    MakeDriverHttpFailure HttpStatusCode_BadRequest "Invalid Azure URI"
  else
    let bkt_pos := 0 in
    let obj_pos := string_find path "/"%char 0 in
    let service := UNKNOWN in
    let '(service, bkt_pos, obj_pos) :=
      if compare_suffix host ".core.windows.net" then
        if compare_suffix host ".blob.core.windows.net" then (BLOB, bkt_pos, obj_pos)
        else if compare_suffix host ".file.core.windows.net" then (SHARE, bkt_pos, obj_pos)
        else (service, bkt_pos, obj_pos)
      else
        let bkt_pos := wrapU64 (obj_pos + 1) in
        (BLOB, bkt_pos, string_find path "/"%char bkt_pos) in
    if bool_decide (obj_pos = npos) then
      MakeDriverHttpFailure HttpStatusCode_BadRequest
        ("Invalid Azure URI, missing object name: " +:+ azure_uri)
    else
      MakeDriverSuccess
        {| service := service;
           bucket := substr path bkt_pos (obj_pos - bkt_pos);
           object := substr_from path (obj_pos + 1) |}.

End Locators.

(** [FindPatternSpecialChar]: position of the first character among
    [*?![^] that is not preceded by a backslash.  The source searches the next
    special character and resumes after it when the character before it is a
    backslash; the scan below keeps the previous character instead. *)
Definition is_special_char (c : ascii) : bool :=
  bool_decide (c ∈ ["*"; "?"; "!"; "["; "^"]%char).

Fixpoint FindPatternSpecialChar_from (prev_is_backslash : bool) (found_at : nat)
    (pattern : string) : option nat :=
  match pattern with
  | EmptyString => None
  | String c rest =>
      if is_special_char c && negb prev_is_backslash then Some found_at
      else FindPatternSpecialChar_from (bool_decide (c = "\"%char)) (S found_at) rest
  end.

Definition FindPatternSpecialChar (pattern : string) : option nat :=
  FindPatternSpecialChar_from false 0 pattern.

(** ** Listing, header detection and index construction *)

Inductive WriterMode : Type := kWrite | kAppend.

Definition newline : byte := "010"%byte.

(** Block size of the header search. *)
Definition block_size : Z := 10 * 1024 * 1024.

Section Index.
Context {World : Type} `{BlobService World}.

(** [FilterList]: the blobs of the container under the literal prefix of the
    pattern that are not deleted and match the pattern, in listing order. *)
Definition FilterList (bucket pattern : string) (pattern_1st_sp_char_pos : nat)
    : Remote World (DriverResult (list BlobItem)) :=
  let prefix := String.substring 0 pattern_1st_sp_char_pos pattern in
  r <- try_ (call (ReqListBlobs bucket prefix) (ListBlobs bucket prefix)) ;;
  match r with
  | inl e => ret (MakeDriverFailureFromException e)
  | inr items =>
      let res :=
        filter (λ item, IsDeleted item = false ∧ gitignore_glob_match (Name item) pattern = true)
               items in
      if bool_decide (res = []) then
        ret (MakeDriverHttpFailure HttpStatusCode_NotFound
               "No blob matching pattern in container.")
      else ret (MakeDriverSuccess res)
  end.

(** [ReadPart] into an existing buffer: as many bytes as the buffer holds are
    requested; the bytes delivered overwrite its beginning and the rest of
    the buffer keeps its content. *)
Definition ReadPart (container blob : string) (dest : list byte) (offset : Z)
    : Remote World (Z * list byte) :=
  let to_read := Z.of_nat (length dest) in
  dl_res <- download container blob offset to_read ;;
  ret (Z.of_nat (length (dl_data dl_res)), blit (dl_data dl_res) 0 dest).

(** The loop of [FindHeader].  [header] holds the bytes downloaded so far,
    that is the first [bytes_read] bytes of the vector of the source, whose
    remaining bytes are never read. *)
Fixpoint FindHeader_loop (fuel : nat) (container blob : string) (header : list byte)
    (bytes_read : Z) : Remote World (option (list byte)) :=
  match fuel with
  | O => stop OutOfFuel
  | S fuel' =>
      dl_res <- download container blob bytes_read block_size ;;
      let dl_bytes_read := Z.of_nat (length (dl_data dl_res)) in
      match list_find (λ b, b = newline) (dl_data dl_res) with
      | Some (new_line_pos, _) =>
          ret (Some (header ++ take (S new_line_pos) (dl_data dl_res)))
      | None =>
          let bytes_read := add64 bytes_read dl_bytes_read in
          let exhausted := bool_decide (bytes_read = dl_BlobSize dl_res) in
          if exhausted then ret None
          else FindHeader_loop fuel' container blob (header ++ dl_data dl_res) bytes_read
      end
  end.

Definition FindHeader (fuel : nat) (container blob : string) : Remote World (option (list byte)) :=
  FindHeader_loop fuel container blob [] 0.

(** [IsSameHeader]: the answer and the part buffer after the read. *)
Definition IsSameHeader (container : string) (blob_item : BlobItem) (header : list byte)
    (part_buffer : list byte) : Remote World (bool * list byte) :=
  r <- ReadPart container (Name blob_item) part_buffer 0 ;;
  ret (bool_decide (r.2 = header), r.2).

(** The loop of [GetFileSize] over the parts after the first. *)
Fixpoint GetFileSize_next (container : string) (header : list byte) (items : list BlobItem)
    (total_size : Z) (same_headers : bool) (part_buffer : list byte) : Remote World (Z * bool) :=
  match items with
  | [] => ret (total_size, same_headers)
  | blob_item :: items' =>
      let total_size := add64 total_size (BlobSize blob_item) in
      if same_headers then
        r <- IsSameHeader container blob_item header part_buffer ;;
        GetFileSize_next container header items' total_size r.1 r.2
      else GetFileSize_next container header items' total_size same_headers part_buffer
  end.

(** [GetFileSize]. *)
Definition GetFileSize (fuel : nat) (parsed_names : ParseUriResult) : Remote World (DriverResult Z) :=
  let object := object parsed_names in
  match FindPatternSpecialChar object with
  | None =>
      r <- try_ (call (ReqGetProperties (bucket parsed_names) object)
                      (GetProperties (bucket parsed_names) object)) ;;
      match r with
      | inr size => ret (MakeDriverSuccess size)
      | inl e => ret (MakeDriverFailureFromException e)
      end
  | Some pattern_1st_sp_char_pos =>
      filter_res <- FilterList (bucket parsed_names) object pattern_1st_sp_char_pos ;;
      match filter_res with
      | DriverFailure _ _ => ret (ConvertFailureTo filter_res)
      | DriverSuccess blobs_list =>
          match blobs_list with
          | [item] => ret (MakeDriverSuccess (BlobSize item))
          | [] => stop OutOfRange
          | first_blob :: next_blobs =>
              r <- try_ (
                maybe_header <- FindHeader fuel (bucket parsed_names) (Name first_blob) ;;
                match maybe_header with
                | None =>
                    ret (MakeDriverHttpFailure HttpStatusCode_None
                           "Error while reading header of first file.")
                | Some header =>
                    let header_size := Z.of_nat (length header) in
                    let blob_count := Z.of_nat (length blobs_list) in
                    let part_buffer := replicate (length header) "000"%byte in
                    r <- GetFileSize_next (bucket parsed_names) header next_blobs
                           (BlobSize first_blob) true part_buffer ;;
                    let '(total_size, same_headers) := r in
                    let result :=
                      if same_headers
                      then sub64 total_size (wrap64 (mulU64 (blob_count - 1) header_size))
                      else total_size in
                    ret (MakeDriverSuccess result)
                end) ;;
              match r with
              | inr res => ret res
              | inl e => ret (MakeDriverFailureFromException e)
              end
          end
      end
  end.

(** The first loop of [MakeReaderPtr] over the parts after the first: names,
    cumulative sizes and header comparison. *)
Fixpoint MakeReaderPtr_next (container : string) (header : list byte) (items : list BlobItem)
    (filenames : list string) (cumulativeSize : list Z) (same_headers : bool)
    (part_buffer : list byte) : Remote World (list string * list Z * bool) :=
  match items with
  | [] => ret (filenames, cumulativeSize, same_headers)
  | curr_blob_item :: items' =>
      let filenames := filenames ++ [Name curr_blob_item] in
      back <- match last cumulativeSize with Some b => ret b | None => stop OutOfRange end ;;
      let cumulativeSize := cumulativeSize ++ [add64 back (BlobSize curr_blob_item)] in
      if same_headers then
        r <- IsSameHeader container curr_blob_item header part_buffer ;;
        MakeReaderPtr_next container header items' filenames cumulativeSize r.1 r.2
      else
        MakeReaderPtr_next container header items' filenames cumulativeSize same_headers
          part_buffer
  end.

(** The second loop of [MakeReaderPtr]:
    [cumulativeSize[i] -= i * header_size] for every [i] from 1. *)
Definition elide_headers (header_size : Z) (cumulativeSize : list Z) : list Z :=
  imap (λ i c, if bool_decide (i = 0%nat) then c
               else sub64 c (wrap64 (mulU64 (Z.of_nat i) header_size)))
       cumulativeSize.

Definition make_simple_reader (bucket object filename : string) (blob_size : Z) : Reader :=
  make_Reader bucket object 0 0 [filename] [blob_size].

(** [MakeReaderPtr]; the stream gets its address when it is registered. *)
Definition MakeReaderPtr (fuel : nat) (bucket object : string) : Remote World (DriverResult Reader) :=
  match FindPatternSpecialChar object with
  | None =>
      r <- try_ (call (ReqGetProperties bucket object) (GetProperties bucket object)) ;;
      match r with
      | inr size => ret (MakeDriverSuccess (make_simple_reader bucket object object size))
      | inl (StorageException code reason) => ret (MakeDriverHttpFailure code reason)
      | inl (std_exception what) => ret (MakeDriverHttpFailure HttpStatusCode_None what)
      end
  | Some pattern_1st_sp_char_pos =>
      filter_res <- FilterList bucket object pattern_1st_sp_char_pos ;;
      match filter_res with
      | DriverFailure _ _ => ret (ConvertFailureTo filter_res)
      | DriverSuccess blobs_list =>
          match blobs_list with
          | [item] =>
              ret (MakeDriverSuccess (make_simple_reader bucket object (Name item) (BlobSize item)))
          | [] => stop OutOfRange
          | first_blob :: next_blobs =>
              r <- try_ (
                maybe_header <- FindHeader fuel bucket (Name first_blob) ;;
                match maybe_header with
                | None =>
                    ret (MakeDriverHttpFailure HttpStatusCode_None
                           "Error while reading header of first file.")
                | Some header =>
                    let header_size := Z.of_nat (length header) in
                    let part_buffer := replicate (length header) "000"%byte in
                    r <- MakeReaderPtr_next bucket header next_blobs
                           [Name first_blob] [BlobSize first_blob] true part_buffer ;;
                    let '(filenames, cumulativeSize, same_headers) := r in
                    let cumulativeSize :=
                      if same_headers then elide_headers header_size cumulativeSize
                      else cumulativeSize in
                    ret (MakeDriverSuccess
                           (make_Reader bucket object 0 header_size filenames cumulativeSize))
                end) ;;
              match r with
              | inr res => ret res
              | inl e => ret (MakeDriverFailureFromException e)
              end
          end
      end
  end.

(** [MakeWriterPtr]. *)
Definition MakeWriterPtr (bucket object : string) (mode : WriterMode)
    : Remote World (DriverResult Writer) :=
  r <- try_ (
    match mode with
    | kWrite =>
        response <- call (ReqCreate bucket object) (Create bucket object) ;;
        if negb (Created response) then
          ret (Some (raw_StatusCode response, raw_ReasonPhrase response))
        else ret None
    | kAppend =>
        response <- call (ReqCreateIfNotExists bucket object) (CreateIfNotExists bucket object) ;;
        ret None
    end) ;;
  match r with
  | inl e => ret (MakeDriverFailureFromException e)
  | inr (Some (code, reason)) => ret (MakeDriverHttpFailure code reason)
  | inr None =>
      ret (MakeDriverSuccess {| writer_bucketname_ := bucket; writer_filename_ := object |})
  end.

(** Addresses of the live streams. *)
Definition live_handles (d : Driver) : list Handle :=
  (active_reader_handles d).*1 ++ (active_writer_handles d).*1.

(** [RegisterReader] and [RegisterWriter]: [RegisterStream] with
    [PushBackHandle] on the matching vector. *)
Definition RegisterReader (fuel : nat) (d : Driver) (bucket object : string)
    : Remote World (DriverResult Handle * Driver) :=
  maybe_stream_ptr <- MakeReaderPtr fuel bucket object ;;
  match maybe_stream_ptr with
  | DriverFailure _ _ => ret (ConvertFailureTo maybe_stream_ptr, d)
  | DriverSuccess stream =>
      let res := allocate (live_handles d) in
      ret (MakeDriverSuccess res,
           set_readers (active_reader_handles d ++ [(res, stream)]) d)
  end.

Definition RegisterWriter (d : Driver) (bucket object : string) (mode : WriterMode)
    : Remote World (DriverResult Handle * Driver) :=
  maybe_stream_ptr <- MakeWriterPtr bucket object mode ;;
  match maybe_stream_ptr with
  | DriverFailure _ _ => ret (ConvertFailureTo maybe_stream_ptr, d)
  | DriverSuccess stream =>
      let res := allocate (live_handles d) in
      ret (MakeDriverSuccess res,
           set_writers (active_writer_handles d ++ [(res, stream)]) d)
  end.

(** [driver_fopen]: the handle returned ([nullptr] on failure) and the
    globals after the call.  [filename] is [None] for a null pointer. *)
Definition driver_fopen (fuel : nat) (d : Driver) (filename : option string) (mode : ascii)
    : Remote World (Handle * Driver) :=
  if bool_decide (kFalse = bIsConnected d) then
    ret (nullptr, LogError "Error: driver not connected." d)
  else
    match filename with
    | None => ret (nullptr, LogError "Error passing null pointer to driver_fopen" d)
    | Some filename =>
        let name_parsing_result := ParseAzureUri filename in
        match name_parsing_result with
        | DriverFailure _ _ =>
            ret (nullptr, LogBadResult name_parsing_result "Error parsing URL" d)
        | DriverSuccess parsed_names =>
            let finish (msg : string) (register_res : DriverResult Handle * Driver) :=
              match register_res.1 with
              | DriverFailure _ _ => (nullptr, LogBadResult register_res.1 msg register_res.2)
              | DriverSuccess h => (h, register_res.2)
              end in
            if bool_decide (mode = "r"%char) then
              register_res <- RegisterReader fuel d (bucket parsed_names) (object parsed_names) ;;
              ret (finish "Error while opening reader stream." register_res)
            else if bool_decide (mode = "w"%char) then
              register_res <-
                RegisterWriter d (bucket parsed_names) (object parsed_names) kWrite ;;
              ret (finish "Error while opening writer stream." register_res)
            else if bool_decide (mode = "a"%char) then
              let target := object parsed_names in
              match FindPatternSpecialChar target with
              | Some pattern_1st_sp_char_pos =>
                  filter_res <-
                    FilterList (bucket parsed_names) target pattern_1st_sp_char_pos ;;
                  match filter_res with
                  | DriverFailure _ _ =>
                      ret (nullptr,
                           LogBadResult filter_res "Error while opening stream in append mode." d)
                  | DriverSuccess blobs_list =>
                      match last blobs_list with
                      | None => stop OutOfRange
                      | Some back =>
                          register_res <-
                            RegisterWriter d (bucket parsed_names) (Name back) kAppend ;;
                          ret (finish "Error while opening stream in append mode." register_res)
                      end
                  end
              | None =>
                  register_res <- RegisterWriter d (bucket parsed_names) target kAppend ;;
                  ret (finish "Error while opening stream in append mode." register_res)
              end
            else
              (* ["Invalid open mode: " + mode] moves the pointer to the
                 literal by the code of the character *)
              let literal := "Invalid open mode: " in
              let shift := nat_of_ascii mode in
              if bool_decide (shift ≤ String.length literal)%nat then
                ret (nullptr,
                     LogError (String.substring shift (String.length literal - shift) literal) d)
              else stop OutOfRange
        end
    end.

(** [driver_getFileSize]. *)
Definition driver_getFileSize (fuel : nat) (d : Driver) (filename : option string)
    : Remote World (Z * Driver) :=
  if bool_decide (kFalse = bIsConnected d) then
    ret (kBadSize, LogError "Error: driver not connected." d)
  else
    match filename with
    | None => ret (kBadSize, LogError "Error passing null pointer to driver_getFileSize" d)
    | Some filename =>
        let maybe_parsed_names := ParseAzureUri filename in
        match maybe_parsed_names with
        | DriverFailure _ _ =>
            ret (kBadSize, LogBadResult maybe_parsed_names "Error parsing URL" d)
        | DriverSuccess parsed_names =>
            if bool_decide (BLOB ≠ service parsed_names) then
              ret (kBadSize,
                   LogError "Functionality not implemented for this type of service." d)
            else
              res <- GetFileSize fuel parsed_names ;;
              match res with
              | DriverFailure _ _ =>
                  ret (kBadSize, LogBadResult res "Error while getting file size." d)
              | DriverSuccess value => ret (value, d)
              end
        end
    end.

End Index.

(** ** Writing and presence tests *)

(** [LogException]: the message, a space and the text of the exception. *)
Definition LogException (msg what : string) (d : Driver) : Driver :=
  LogError (msg +:+ " " +:+ what) d.

(** [GetValue()] on the result of [ParseAzureUri]: a failure holds the
    value-initialised structure, whose service is the first enumerator. *)
Definition GetValue (r : DriverResult ParseUriResult) : ParseUriResult :=
  match r with
  | DriverSuccess value => value
  | DriverFailure _ _ => {| service := UNKNOWN; bucket := ""; object := "" |}
  end.

(** [std::string::back()]; the string must not be empty. *)
Definition string_back (s : string) : option ascii :=
  String.get (String.length s - 1) s.

(** [driver_dirExists]. *)
Definition driver_dirExists (d : Driver) (sFilePathName : option string) : Z * Driver :=
  if bool_decide (kFalse = bIsConnected d) then
    (kFalse, LogError "Error: driver not connected." d)
  else
    match sFilePathName with
    | None => (kFalse, LogError "Error passing null pointer to driver_dirExists" d)
    | Some _ => (kTrue, d)
    end.

(** [driver_fflush]. *)
Definition driver_fflush (d : Driver) (stream : Handle) : Z * Driver :=
  if bool_decide (kFalse = bIsConnected d) then
    (-1, LogError "Error: driver not connected." d)
  else if bool_decide (stream = nullptr) then
    (-1, LogError "Error passing null pointer to driver_fflush" d)
  else
    match FindWriter stream d with
    | None => (-1, LogError "Cannot identify stream as a writer stream." d)
    | Some _ => (0, d)
    end.

Section Presence.
Context {World : Type} `{BlobService World}.

(** [e.what()] of a storage exception is a text of the SDK; it is given for
    the status code and the reason phrase of the exception. *)
Variable storage_what : HttpStatusCode → string → string.

Definition exception_what (e : Exception) : string :=
  match e with
  | StorageException code reason => storage_what code reason
  | std_exception what => what
  end.

(** [driver_fileExists].  [level_ge_debug] is the value of
    [spdlog::get_level() >= spdlog::level::debug] at the call. *)
Definition driver_fileExists (level_ge_debug : bool) (d : Driver)
    (sFilePathName : option string) : Remote World (Z * Driver) :=
  if bool_decide (kFalse = bIsConnected d) then
    ret (kFalse, LogError "Error: driver not connected." d)
  else
    match sFilePathName with
    | None => ret (kFalse, LogError "Error passing null pointer to driver_fileExists" d)
    | Some sFilePathName =>
        let maybe_parsed_names := ParseAzureUri sFilePathName in
        let d :=
          if is_success maybe_parsed_names then d
          else LogError ("Error while parsing Uri. " +:+ GetReasonPhrase maybe_parsed_names) d in
        let val := GetValue maybe_parsed_names in
        if bool_decide (BLOB ≠ service val) then
          ret (kFalse,
               LogError "Error checking blob's existence: not a URL of a blob service." d)
        else
          match FindPatternSpecialChar (object val) with
          | None =>
              r <- try_ (call (ReqGetProperties (bucket val) (object val))
                              (GetProperties (bucket val) (object val))) ;;
              match r with
              | inr _ => ret (kTrue, d)
              | inl (StorageException code reason) =>
                  if bool_decide (code = HttpStatusCode_NotFound) then ret (kFalse, d)
                  else ret (kFalse,
                            LogException "Error while checking file's presence."
                              (storage_what code reason) d)
              | inl (std_exception what) =>
                  ret (kFalse, LogException "Error while checking file's presence." what d)
              end
          | Some pattern_1st_sp_char_pos =>
              filter_res <- FilterList (bucket val) (object val) pattern_1st_sp_char_pos ;;
              match filter_res with
              | DriverFailure code _ =>
                  if level_ge_debug then
                    if bool_decide (HttpStatusCode_NotFound = code) then ret (kFalse, d)
                    else ret (kFalse,
                              LogBadResult filter_res "Error while listing blobs in container." d)
                  else ret (kFalse, d)
              | DriverSuccess _ => ret (kTrue, d)
              end
          end
    end.

(** [driver_exist]: a locator that ends with a slash is a directory. *)
Definition driver_exist (level_ge_debug : bool) (d : Driver) (filename : option string)
    : Remote World (Z * Driver) :=
  if bool_decide (kFalse = bIsConnected d) then
    ret (kFalse, LogError "Error: driver not connected." d)
  else
    match filename with
    | None => ret (kFalse, LogError "Error passing null pointer to driver_exist" d)
    | Some file_uri =>
        match string_back file_uri with
        | None => stop OutOfRange
        | Some back =>
            if bool_decide (back = "/"%char) then ret (driver_dirExists d filename)
            else driver_fileExists level_ge_debug d filename
        end
    end.

(** [driver_fwrite]: the value returned and the globals after the call.
    [ptr] is [None] for a null pointer, else the bytes of the source buffer;
    the block sent holds its first [size * count] bytes. *)
Definition driver_fwrite (d : Driver) (ptr : option (list byte)) (size count : Z)
    (stream : Handle) : Remote World (Z * Driver) :=
  if bool_decide (kFalse = bIsConnected d) then
    ret (kBadSize, LogError "Error: driver not connected." d)
  else if bool_decide (stream = nullptr) then
    ret (kBadSize, LogError "Error passing null pointer to driver_fwrite" d)
  else
    match ptr with
    | None => ret (kBadSize, LogError "Error passing null pointer to driver_fwrite" d)
    | Some buffer =>
        if bool_decide (0 = size) then
          ret (kBadSize, LogError "Error passing size 0 to fwrite" d)
        else
          match FindWriter stream d with
          | None =>
              ret (kBadSize, LogError "Cannot identify stream as a writer stream." d)
          | Some (pos, (h, writer)) =>
              if bool_decide (0 = count) then ret (0, d)
              else if WillSizeCountProductOverflow size count then
                ret (kBadSize,
                     LogError "Error on write: product size * count is too large, would overflow"
                       d)
              else
                let to_write := mulU64 size count in
                if bool_decide (to_write ≤ Z.of_nat (length buffer)) then
                  let block := take (Z.to_nat to_write) buffer in
                  r <- try_ (call (ReqAppendBlock (writer_bucketname_ writer)
                                     (writer_filename_ writer) block)
                                  (AppendBlock (writer_bucketname_ writer)
                                     (writer_filename_ writer) block)) ;;
                  match r with
                  | inr _ => ret (wrap64 to_write, d)
                  | inl e =>
                      ret (kBadSize,
                           LogException "Error while writing data." (exception_what e) d)
                  end
                else stop OutOfRange
          end
    end.

End Presence.

(** ** Copy of a remote file to a local file *)

(** The output stream on the local file: its state and the bytes handed to
    it since it was opened.  What a failed write leaves in the file is not
    modelled. *)
Record ofstream : Type := mkOfstream {
  os_good : bool;
  os_written : list byte
}.

(** Download limit of a turn of the copy. *)
Definition dl_limit : Z := 10 * 1024 * 1024.

Section LocalCopy.
Context {World : Type} `{BlobService World}.

(** [e.what()] of a storage exception, as for the presence test. *)
Variable storage_what : HttpStatusCode → string → string.

(** The local file system: whether the file at a path opens for writing, and
    whether a write succeeds on a stream that holds [written] already. *)
Variable ofstream_is_open : string → bool.
Variable ofstream_write_ok : string → list byte → list byte → bool.

(** [file_stream.write(data, n)]. *)
Definition ofstream_write (path : string) (chunk : list byte) (file_stream : ofstream)
    : ofstream :=
  if os_good file_stream then
    if ofstream_write_ok path (os_written file_stream) chunk then
      {| os_good := true; os_written := os_written file_stream ++ chunk |}
    else {| os_good := false; os_written := os_written file_stream |}
  else file_stream.

(** The [while] loop of [driver_copyToLocal]: the text of the error that
    ended the copy, if any, and the offset and the stream when the loop is
    left. *)
Fixpoint copyToLocal_loop (turns : nat) (reader : Reader) (dest : string) (offset : Z)
    (part : nat) (file_stream : ofstream) (relay_buff : list byte)
    : Remote World (option string * Z * ofstream) :=
  let files := filenames_ reader in
  let cumul_sizes := cumulativeSize_ reader in
  let to_read := total_size_ reader in
  if os_good file_stream && bool_decide (offset < to_read)
     && bool_decide (part < length files)%nat
  then
    match turns with
    | O => stop OutOfFuel
    | S turns' =>
        curr_offset <- (if bool_decide (part = 0%nat) then ret offset
                        else prev <- at_ cumul_sizes (part - 1) ;;
                             ret (add64 (sub64 offset prev) (commonHeaderLength_ reader))) ;;
        r <- try_ (file <- at_ files part ;;
                   ReadPart (bucketname_ reader) file relay_buff curr_offset) ;;
        match r with
        | inl (StorageException code reason) =>
            ret (Some ("Error while reading from remote file." +:+ " "
                       +:+ storage_what code reason), offset, file_stream)
        | inl (std_exception what) =>
            ret (Some ("Error while copying to local file." +:+ " " +:+ what),
                 offset, file_stream)
        | inr (read, relay_buff) =>
            let file_stream :=
              ofstream_write dest (take (Z.to_nat read) relay_buff) file_stream in
            let offset := add64 offset read in
            cur <- at_ cumul_sizes part ;;
            let part := if bool_decide (offset = cur) then S part else part in
            copyToLocal_loop turns' reader dest offset part file_stream relay_buff
        end
    end
  else ret (None, offset, file_stream).

(** [driver_copyToLocal]: the status, the globals after the call and, when
    the local file was opened, the bytes handed to it.  [fuel] bounds the
    header search and [turns] the turns of the copy. *)
Definition driver_copyToLocal (fuel turns : nat) (d : Driver)
    (sSourceFilePathName sDestFilePathName : option string)
    : Remote World (Z * Driver * option (list byte)) :=
  if bool_decide (kFalse = bIsConnected d) then
    ret (kFailure, LogError "Error: driver not connected." d, None)
  else
    match sSourceFilePathName, sDestFilePathName with
    | None, _ | _, None =>
        ret (kFailure, LogError "Error passing null pointer to driver_copyToLocal" d, None)
    | Some source, Some dest =>
        let name_parsing_result := ParseAzureUri source in
        match name_parsing_result with
        | DriverFailure _ _ =>
            ret (kFailure, LogBadResult name_parsing_result "Error parsing URL" d, None)
        | DriverSuccess parsed_names =>
            reader_ptr_res <-
              MakeReaderPtr fuel (bucket parsed_names) (object parsed_names) ;;
            match reader_ptr_res with
            | DriverFailure _ _ =>
                ret (kFailure,
                     LogBadResult reader_ptr_res "Error while opening remote file." d, None)
            | DriverSuccess reader =>
                if negb (ofstream_is_open dest) then
                  ret (kFailure,
                       LogError ("Failed to open local file for writing: " +:+ dest) d, None)
                else
                  let relay_buff := replicate (Z.to_nat dl_limit) "000"%byte in
                  let file_stream := {| os_good := true; os_written := [] |} in
                  r <- copyToLocal_loop turns reader dest (offset_ reader) 0 file_stream
                         relay_buff ;;
                  match r with
                  | (Some msg, _, file_stream) =>
                      ret (kFailure, LogError msg d, Some (os_written file_stream))
                  | (None, offset, file_stream) =>
                      if negb (os_good file_stream)
                         || bool_decide (offset < total_size_ reader)
                      then
                        ret (kFailure,
                             LogError
                               (if negb (os_good file_stream) then
                                  "Error while copying data to local file. Writing on local file failed."
                                else "Error while copying data to local file. Data is missing.")
                               d,
                             Some (os_written file_stream))
                      else ret (kSuccess, d, Some (os_written file_stream))
                  end
            end
        end
    end.

End LocalCopy.

(** ** The logical stream of a multi-part file *)

(** The bytes of the range [start, start + len) of an object that exist. *)
Definition slice (start len : Z) (l : list byte) : list byte :=
  take (Z.to_nat (Z.min len (Z.of_nat (length l) - start))) (drop (Z.to_nat start) l).

(** The logical parts in the words of the spec: part 0 whole, every later
    part without its first [header_length] bytes. *)
Definition logical_parts (header_length : nat) (contents : list (list byte))
    : list (list byte) :=
  match contents with
  | [] => []
  | first :: next => first :: (drop header_length <$> next)
  end.

(** The elided concatenation of the raw bytes of the parts. *)
Definition elided_stream (header_length : nat) (contents : list (list byte)) : list byte :=
  concat (logical_parts header_length contents).

(** Cumulative sizes: each one is the previous one plus the size of the
    part. *)
Fixpoint cumulative (previous : Z) (sizes : list Z) : list Z :=
  match sizes with
  | [] => []
  | size :: sizes' => (previous + size) :: cumulative (previous + size) sizes'
  end.

Definition byte_length (l : list byte) : Z := Z.of_nat (length l).

(** The cumulative logical sizes of the parts. *)
Definition cumulative_logical_sizes (header_length : nat) (contents : list (list byte))
    : list Z :=
  cumulative 0 (byte_length <$> logical_parts header_length contents).

(** ** Notions used to state the properties *)

(** The stream a handle resolves to. *)
Definition resolve {Stream : Type} (h : Handle) (handles : StreamVec Stream) : option Stream :=
  (λ found, found.2.2) <$> FindHandle h handles.

(** The cursor of the reader behind a handle. *)
Definition cursor (d : Driver) (stream : Handle) : option Z :=
  offset_ <$> resolve stream (active_reader_handles d).

(** The length [driver_fread] asks [ReadBytesInFile] for. *)
Definition clamped (offset total_size to_read : Z) : Z :=
  if bool_decide (add64 offset to_read > total_size) then sub64 total_size offset else to_read.

(** A well-formed index: as many names as cumulative sizes, at least one
    part, cumulative sizes in non-decreasing order within the range of an
    offset, and the total size is the last of them. *)
Record index_wf (r : Reader) : Prop := {
  wf_nonempty : cumulativeSize_ r ≠ [];
  wf_names : length (filenames_ r) = length (cumulativeSize_ r);
  wf_total : total_size_ r = default 0 (last (cumulativeSize_ r));
  wf_sorted : ∀ i a b,
    cumulativeSize_ r !! i = Some a → cumulativeSize_ r !! S i = Some b → a ≤ b;
  wf_range : Forall (λ c, 0 ≤ c ≤ max_val) (cumulativeSize_ r)
}.

(** The reader holds the index of the parts [contents], named [names], with
    a shared header of [L] bytes elided. *)
Definition indexes (bucket : string) (names : list string) (contents : list (list byte))
    (L : nat) (r : Reader) : Prop :=
  bucketname_ r = bucket ∧ filenames_ r = names
  ∧ cumulativeSize_ r = cumulative_logical_sizes L contents
  ∧ commonHeaderLength_ r = Z.of_nat L
  ∧ total_size_ r = byte_length (elided_stream L contents).

(** A download that starts right after the header of a part. *)
Definition starts_after_header (bucket : string) (L : nat) (rq : Request) : Prop :=
  ∃ name len, rq = ReqDownloadTo bucket name (Z.of_nat L) len.

(** A request of the header search: one block of the first part. *)
Definition block_request (bucket name : string) (rq : Request) : Prop :=
  ∃ start, rq = ReqDownloadTo bucket name start block_size.

(** The read of the beginning of a part that is compared with the header. *)
Definition header_read (bucket : string) (header : list byte) (name : string) : Request :=
  ReqDownloadTo bucket name 0 (byte_length header).

(** The position of the first newline of [c]. *)
Definition first_newline_at (c : list byte) (k : nat) : Prop :=
  c !! k = Some newline ∧ ∀ j, (j < k)%nat → c !! j ≠ Some newline.

(** Cumulative sizes as [MakeReaderPtr] adds them up. *)
Fixpoint cumulative_wrapped (previous : Z) (sizes : list Z) : list Z :=
  match sizes with
  | [] => []
  | size :: sizes' => add64 previous size :: cumulative_wrapped (add64 previous size) sizes'
  end.

Section Contracts.
Context {World : Type} `{BlobService World}.

(** The states of the store a property is about: the ones in which the
    parts hold the bytes it names. *)
Variable stable : World → Prop.

(** In such a state every download from the blob [name] delivers the bytes
    of the range asked for out of [c], and leaves the store in such a
    state. *)
Definition served (bucket name : string) (c : list byte) : Prop :=
  ∀ start len w,
    0 ≤ start ≤ byte_length c → 0 ≤ len → stable w →
    ∃ w', DownloadTo bucket name start len w
          = (Ret {| dl_data := slice start len c; dl_BlobSize := byte_length c |}, w')
      ∧ stable w'.

(** Every part is served with its bytes. *)
Definition serves (bucket : string) (names : list string) (contents : list (list byte))
    : Prop :=
  ∀ i name c, names !! i = Some name → contents !! i = Some c → served bucket name c.

(** No download from the named blobs fails. *)
Definition never_fails (bucket : string) (names : list string) : Prop :=
  ∀ name start len w, name ∈ names → stable w →
    ∃ dl w', DownloadTo bucket name start len w = (Ret dl, w') ∧ stable w'.

(** Every download from the named blob fails. *)
Definition always_fails (bucket name : string) : Prop :=
  ∀ start len w, stable w → ∃ e w', DownloadTo bucket name start len w = (Throw e, w').

(** The item lists a blob served with the bytes [c]. *)
Definition lists (bucket : string) (item : BlobItem) (c : list byte) : Prop :=
  BlobSize item = byte_length c ∧ served bucket (Name item) c.

(** The blobs [FilterList] keeps out of a listing. *)
Definition matching (pattern : string) (listing : list BlobItem) : list BlobItem :=
  filter (λ item, IsDeleted item = false ∧ gitignore_glob_match (Name item) pattern = true)
         listing.

End Contracts.

(** ** Notions of the further properties *)

(** A special character of a pattern at position [i], with no backslash just
    before it. *)
Definition unescaped_special_at (pattern : string) (i : nat) : Prop :=
  ∃ c, String.get i pattern = Some c ∧ is_special_char c = true
       ∧ (i = 0%nat ∨ String.get (i - 1) pattern ≠ Some "\"%char).

(** The same for a suffix of the pattern, [prev] telling whether the
    character before the suffix is a backslash. *)
Definition special_from (prev : bool) (pattern : string) (i : nat) : Prop :=
  ∃ c, String.get i pattern = Some c ∧ is_special_char c = true
       ∧ match i with
         | O => prev = false
         | S j => String.get j pattern ≠ Some "\"%char
         end.

(** A text without slash. *)
Definition no_slash (s : string) : Prop := String.index 0 "/" s = None.

(** The later parts that the comparison of the headers lets pass: the second
    part begins with the header, and each further part begins with it or is
    a prefix of it. *)
Definition taken_for_header (header : list byte) (cs : list (list byte)) : Prop :=
  match cs with
  | [] => True
  | second :: rest =>
      take (length header) second = header
      ∧ Forall (λ c, take (length header) c `prefix_of` header) rest
  end.

(** The service that the suffix of a host names. *)
Definition host_service (host : string) : Service :=
  if compare_suffix host ".blob.core.windows.net" then BLOB
  else if compare_suffix host ".file.core.windows.net" then SHARE
  else UNKNOWN.

(** The size that goes with the outcome of the construction of a reader. *)
Definition size_of_reader (o : Outcome (DriverResult Reader)) : Outcome (DriverResult Z) :=
  match o with
  | Ret (DriverSuccess r) => Ret (DriverSuccess (total_size_ r))
  | Ret (DriverFailure code reason) => Ret (DriverFailure code reason)
  | Throw e => Throw e
  | Stop f => Stop f
  end.

Section Notions.
Context {World : Type} `{BlobService World}.

(** The schemes that [ParseAzureUri] accepts. *)
Definition valid_scheme (uri : string) : Prop :=
  Url_GetScheme uri = "https" ∨ Url_GetScheme uri = "http".

(** A computation out of which no exception comes. *)
Definition no_throw {A : Type} (m : Remote World A) : Prop :=
  ∀ s e s', m s ≠ (Throw e, s').

(** What an open leaves behind. *)
Inductive opened (d : Driver) (mode : ascii) (h : Handle) (d' : Driver) : Prop :=
  | opened_nothing msg :
      h = nullptr → d' = LogError msg d → opened d mode h d'
  | opened_reader r :
      mode = "r"%char → h = allocate (live_handles d) → offset_ r = 0 →
      d' = set_readers (active_reader_handles d ++ [(h, r)]) d → opened d mode h d'
  | opened_writer w :
      mode = "w"%char ∨ mode = "a"%char → h = allocate (live_handles d) →
      d' = set_writers (active_writer_handles d ++ [(h, w)]) d → opened d mode h d'.

End Notions.

(** ** An in-memory store

    A store held in memory, used to run the driver on concrete inputs: the
    blobs in listing order, each with its container, name and bytes.  Modelled
    from the spec: [ListObjects], [GetObjectSize], [DownloadRange] ("may
    return fewer bytes at end-of-object"), [AppendBlock] and [CreateObject]
    of the external interfaces; a blob marked unreachable makes every
    download from it throw. *)
Module Mem.

Record Blob : Type := mkBlob {
  container : string;
  name : string;
  content : list byte;
  deleted : bool;
  reachable : bool
}.

Definition Store : Type := list Blob.

Definition lookup (c n : string) (st : Store) : option (nat * Blob) :=
  list_find (λ b, container b = c ∧ name b = n) st.

Definition item_of (b : Blob) : BlobItem :=
  {| Name := name b; BlobSize := Z.of_nat (length (content b)); IsDeleted := deleted b |}.

Definition not_found {A : Type} : Outcome A :=
  Throw (StorageException HttpStatusCode_NotFound "The specified blob does not exist.").

Definition list_blobs (c prefix : string) (st : Store) : Outcome (list BlobItem) * Store :=
  (Ret (item_of <$> filter (λ b, container b = c ∧ String.prefix prefix (name b) = true) st), st).

Definition get_properties (c n : string) (st : Store) : Outcome Z * Store :=
  match lookup c n st with
  | Some (_, b) => (Ret (Z.of_nat (length (content b))), st)
  | None => (not_found, st)
  end.

Definition download_to (c n : string) (start len : Z) (st : Store)
    : Outcome DownloadResult * Store :=
  match lookup c n st with
  | Some (_, b) =>
      if reachable b then
        (Ret {| dl_data := slice start len (content b);
                dl_BlobSize := byte_length (content b) |}, st)
      else (Throw (StorageException 500 "The server encountered an internal error."), st)
  | None => (not_found, st)
  end.

Definition set_content (data : list byte) (b : Blob) : Blob :=
  {| container := container b; name := name b; content := data;
     deleted := deleted b; reachable := reachable b |}.

Definition fresh_blob (c n : string) : Blob :=
  {| container := c; name := n; content := []; deleted := false; reachable := true |}.

Definition create (c n : string) (st : Store) : Outcome CreateResult * Store :=
  match lookup c n st with
  | Some (i, b) =>
      if bool_decide (content b = []) then (Ret (mkCreateResult true 201 "Created"), st)
      else (Ret (mkCreateResult false 409 "The specified blob already exists."), st)
  | None => (Ret (mkCreateResult true 201 "Created"), st ++ [fresh_blob c n])
  end.

Definition create_if_not_exists (c n : string) (st : Store) : Outcome CreateResult * Store :=
  match lookup c n st with
  | Some _ => (Ret (mkCreateResult false 409 "The specified blob already exists."), st)
  | None => (Ret (mkCreateResult true 201 "Created"), st ++ [fresh_blob c n])
  end.

Definition append_block (c n : string) (block : list byte) (st : Store)
    : Outcome () * Store :=
  match lookup c n st with
  | Some (i, b) => (Ret (), <[i := set_content (content b ++ block) b]> st)
  | None => (not_found, st)
  end.

(** A small matcher standing for the one of [contrib/matching.h]: [*] matches
    any run of characters, [?] any character, anything else itself. *)
Fixpoint glob (pattern : list ascii) : list ascii → bool :=
  match pattern with
  | [] => λ text, bool_decide (text = [])
  | p :: pattern' =>
      if bool_decide (p = "*"%char) then
        fix star (text : list ascii) : bool :=
          glob pattern' text
          || match text with [] => false | _ :: text' => star text' end
      else
        λ text,
          match text with
          | [] => false
          | t :: text' =>
              (bool_decide (p = "?"%char) || bool_decide (p = t)) && glob pattern' text'
          end
  end.

Definition glob_match (text pattern : string) : bool :=
  glob (list_ascii_of_string pattern) (list_ascii_of_string text).

(** Locators of the form [scheme://host/path]. *)
Definition after_scheme (uri : string) : string :=
  match String.index 0 "://" uri with
  | Some i => String.substring (i + 3) (String.length uri - (i + 3)) uri
  | None => uri
  end.

Definition url_scheme (uri : string) : string :=
  match String.index 0 "://" uri with
  | Some i => String.substring 0 i uri
  | None => ""
  end.

Definition url_host (uri : string) : string :=
  let rest := after_scheme uri in
  match String.index 0 "/" rest with
  | Some i => String.substring 0 i rest
  | None => rest
  end.

Definition url_path (uri : string) : string :=
  let rest := after_scheme uri in
  match String.index 0 "/" rest with
  | Some i => String.substring (i + 1) (String.length rest - (i + 1)) rest
  | None => ""
  end.

(** An address above every live one. *)
Definition next_address (live : list Handle) : Handle := 1 + foldr Z.max 0 live.

#[global] Instance service : BlobService Store := {|
  ListBlobs := list_blobs;
  GetProperties := get_properties;
  DownloadTo := download_to;
  Create := create;
  CreateIfNotExists := create_if_not_exists;
  AppendBlock := append_block;
  gitignore_glob_match := glob_match;
  Url_GetScheme := url_scheme;
  Url_GetHost := url_host;
  Url_GetPath := url_path;
  allocate := next_address
|}.

(** Bytes of a text. *)
Definition bytes (s : string) : list byte := list_byte_of_string s.

End Mem.

(** ** Concrete drivers and stores *)

Definition seek_driver (offset total_size : Z) : Driver :=
  {| bIsConnected := kTrue; lastError := "";
     active_reader_handles :=
       [(16, {| bucketname_ := "data"; filename_ := "part"; offset_ := offset;
                commonHeaderLength_ := 0; filenames_ := ["part"];
                cumulativeSize_ := [total_size]; total_size_ := total_size |})];
     active_writer_handles := [] |}.

Definition close_driver : Driver :=
  {| bIsConnected := kTrue; lastError := "";
     active_reader_handles :=
       [(16, make_Reader "data" "a" 0 0 ["a"] [10]);
        (32, make_Reader "data" "b" 0 0 ["b"] [20]);
        (48, make_Reader "data" "c" 0 0 ["c"] [30])];
     active_writer_handles := [(64, mkWriter "data" "w")] |}.

Definition header10 : list byte := Mem.bytes "key;value" ++ [newline].

Definition payload (seed n : nat) : list byte :=
  (λ i, default "000"%byte (Byte.of_nat (seed + i))) <$> seq 0 n.

Definition part_a : list byte := header10 ++ payload 32 90.
Definition part_b : list byte := header10 ++ payload 122 90.
Definition part_c : list byte := Mem.bytes "id;amount" ++ [newline] ++ payload 40 90.

Definition two_parts : Mem.Store :=
  [Mem.mkBlob "data" "part-0" part_a false true;
   Mem.mkBlob "data" "part-1" part_b false true].

Definition flaky_parts : Mem.Store :=
  [Mem.mkBlob "data" "part-0" part_a false true;
   Mem.mkBlob "data" "part-1" part_b false false].

Definition mixed_parts : Mem.Store :=
  [Mem.mkBlob "data" "part-0" part_a false true;
   Mem.mkBlob "data" "part-1" part_c false true].

(** Three parts with the first line [ab]; the third part holds only the two
    letters of that line. *)
Definition short_0 : list byte := Mem.bytes "ab" ++ [newline] ++ Mem.bytes "xyz".
Definition short_1 : list byte := Mem.bytes "ab" ++ [newline] ++ Mem.bytes "q".
Definition short_2 : list byte := Mem.bytes "ab".

Definition short_parts : Mem.Store :=
  [Mem.mkBlob "data" "part-0" short_0 false true;
   Mem.mkBlob "data" "part-1" short_1 false true;
   Mem.mkBlob "data" "part-2" short_2 false true].

Definition headerless_parts : Mem.Store :=
  [Mem.mkBlob "data" "part-0" (payload 32 7) false true;
   Mem.mkBlob "data" "part-1" (payload 64 7) false true].

Definition two_part_reader (offset : Z) : Reader :=
  set_offset (make_Reader "data" "part-*" 0 10 ["part-0"; "part-1"] [100; 190]) offset.

Definition read_driver (offset : Z) : Driver :=
  {| bIsConnected := kTrue; lastError := "";
     active_reader_handles := [(16, two_part_reader offset)];
     active_writer_handles := [] |}.

Definition idle_driver : Driver :=
  {| bIsConnected := kTrue; lastError := "";
     active_reader_handles := []; active_writer_handles := [] |}.

Definition zeros (n : nat) : list byte := replicate n "000"%byte.

(** The reader that [MakeReaderPtr] builds on [mixed_parts]. *)
Definition mixed_reader (offset : Z) : Reader :=
  set_offset (make_Reader "data" "part-*" 0 10 ["part-0"; "part-1"] [100; 200]) offset.

(** A driver with one reader on the two parts and one writer. *)
Definition log_driver : Driver :=
  {| bIsConnected := kTrue; lastError := "";
     active_reader_handles := [(16, two_part_reader 0)];
     active_writer_handles := [(32, mkWriter "data" "log")] |}.

(** The text of a storage exception: its reason. *)
Definition storage_text (code : HttpStatusCode) (reason : string) : string := reason.

(** The locator of the two parts, and what opening it on [log_driver] sends
    and leaves. *)
Definition parts_uri : string := "http://127.0.0.1:10000/devstoreaccount1/data/part-*".

Definition open_trace : list Request :=
  [ReqListBlobs "data" "part-"; ReqDownloadTo "data" "part-0" 0 block_size;
   ReqDownloadTo "data" "part-1" 0 10].

Definition opened_driver : Driver :=
  set_readers (active_reader_handles log_driver ++ [(33, two_part_reader 0)]) log_driver.

(** * Properties *)

(** ** The handle registry *)

Section Registry.
Context {Stream : Type}.
Implicit Types (handles : StreamVec Stream) (h : Handle) (s : Stream).

Lemma FindHandle_Some h handles pos entry :
  FindHandle h handles = Some (pos, entry) →
  handles !! pos = Some entry ∧ entry.1 = h ∧ (pos < length handles)%nat.
Proof.
  unfold FindHandle. intros Hf. apply list_find_Some in Hf as (Hl & Heq & _).
  split_and!; [done | done | by eapply lookup_lt_Some].
Qed.

Lemma FindHandle_None h handles :
  FindHandle h handles = None ↔ h ∉ handles.*1.
Proof.
  unfold FindHandle. rewrite list_find_None, Forall_forall, list_elem_of_fmap. split.
  - intros Hall ([h' s] & -> & Hin). by apply (Hall _ Hin).
  - intros Hnot entry Hin ->. apply Hnot. by exists entry.
Qed.

Lemma resolve_Some h handles s :
  NoDup handles.*1 → resolve h handles = Some s ↔ (h, s) ∈ handles.
Proof.
  intros Hnd. unfold resolve. split.
  - destruct (FindHandle h handles) as [[pos [h' s']]|] eqn:Hf; [|done].
    simpl. intros [= ->]. apply FindHandle_Some in Hf as (Hl & Hh & _).
    simpl in Hh. subst h'. by eapply list_elem_of_lookup_2.
  - intros Hin. destruct (FindHandle h handles) as [[pos [h' s']]|] eqn:Hf.
    + apply FindHandle_Some in Hf as (Hl & Hh & _). simpl in *. subst h'.
      apply list_elem_of_lookup_1 in Hin as [j Hj].
      assert (pos = j) as ->.
      { eapply NoDup_lookup; [exact Hnd | |]; rewrite list_lookup_fmap.
        - by rewrite Hl. - by rewrite Hj. }
      by simplify_eq.
    + apply FindHandle_None in Hf. exfalso. apply Hf.
      apply list_elem_of_fmap. by exists (h, s).
Qed.

Lemma FindHandle_insert h handles pos s s' :
  FindHandle h handles = Some (pos, (h, s)) →
  FindHandle h (<[pos := (h, s')]> handles) = Some (pos, (h, s')).
Proof.
  unfold FindHandle. intros Hf. apply list_find_Some in Hf as (Hl & _ & Hfirst).
  apply list_find_Some. split_and!.
  - apply list_lookup_insert_eq. by eapply lookup_lt_Some.
  - done.
  - intros j y Hj Hlt. rewrite list_lookup_insert_ne in Hj by lia. by eapply Hfirst.
Qed.

(** Swap-with-last-and-truncate removes exactly the entry at [pos]. *)
Lemma EraseRemove_Permutation pos handles :
  (pos < length handles)%nat → EraseRemove pos handles ≡ₚ delete pos handles.
Proof.
  intros Hpos. unfold EraseRemove.
  destruct (lookup_lt_is_Some_2 _ _ Hpos) as [x Hx].
  apply list_elem_of_split_length in Hx as (l1 & l2 & -> & ->).
  destruct (decide (l2 = [])) as [-> | Hne].
  - rewrite last_snoc. rewrite list_insert_id by (by rewrite list_lookup_middle).
    rewrite length_app. simpl.
    replace (length l1 + 1 - 1)%nat with (length l1) by lia.
    rewrite take_app_length. rewrite delete_middle. by rewrite app_nil_r.
  - destruct (exists_last Hne) as (l2' & back & ->).
    assert (l1 ++ x :: l2' ++ [back] = (l1 ++ x :: l2') ++ [back]) as Hsnoc
      by (by rewrite <- (assoc_L (++))).
    rewrite Hsnoc at 1. rewrite last_snoc. rewrite delete_middle.
    rewrite insert_app_r_alt by lia.
    replace (length l1 - length l1)%nat with 0%nat by lia. simpl.
    assert (l1 ++ back :: l2' ++ [back] = (l1 ++ back :: l2') ++ [back]) as ->
      by (by rewrite <- (assoc_L (++))).
    replace (length (l1 ++ x :: l2' ++ [back]) - 1)%nat with (length (l1 ++ back :: l2'))
      by (rewrite !length_app; simpl; rewrite length_app; simpl; lia).
    rewrite take_app_length.
    apply Permutation_app_head, Permutation_cons_append.
Qed.

Lemma EraseRemove_length pos handles :
  (pos < length handles)%nat → S (length (EraseRemove pos handles)) = length handles.
Proof.
  intros Hpos. rewrite (EraseRemove_Permutation _ _ Hpos).
  rewrite length_delete by (by apply lookup_lt_is_Some_2). lia.
Qed.

Lemma delete_split pos handles entry :
  handles !! pos = Some entry → handles ≡ₚ entry :: delete pos handles.
Proof.
  intros Hl. rewrite delete_take_drop.
  rewrite <- (take_drop_middle _ _ _ Hl) at 1.
  by rewrite Permutation_middle.
Qed.

Lemma EraseRemove_NoDup pos handles :
  (pos < length handles)%nat → NoDup handles.*1 → NoDup (EraseRemove pos handles).*1.
Proof.
  intros Hpos Hnd. rewrite (EraseRemove_Permutation _ _ Hpos).
  destruct (lookup_lt_is_Some_2 _ _ Hpos) as [x Hx].
  rewrite (delete_split _ _ _ Hx) in Hnd. simpl in Hnd. by apply NoDup_cons in Hnd as [_ ?].
Qed.

Lemma EraseRemove_closed h handles pos entry :
  NoDup handles.*1 → FindHandle h handles = Some (pos, entry) →
  FindHandle h (EraseRemove pos handles) = None.
Proof.
  intros Hnd Hf. apply FindHandle_Some in Hf as (Hl & Hh & Hpos).
  apply FindHandle_None. rewrite (EraseRemove_Permutation _ _ Hpos).
  rewrite (delete_split _ _ _ Hl) in Hnd. simpl in Hnd.
  apply NoDup_cons in Hnd as [Hnot _]. by rewrite Hh in Hnot.
Qed.

Lemma EraseRemove_others h h' handles pos entry :
  NoDup handles.*1 → FindHandle h handles = Some (pos, entry) → h' ≠ h →
  resolve h' (EraseRemove pos handles) = resolve h' handles.
Proof.
  intros Hnd Hf Hne. apply FindHandle_Some in Hf as (Hl & Hh & Hpos).
  pose proof (EraseRemove_NoDup _ _ Hpos Hnd) as Hnd'.
  apply option_eq. intros s. rewrite !resolve_Some by done.
  rewrite (EraseRemove_Permutation _ _ Hpos).
  rewrite (delete_split _ _ _ Hl) at 2. rewrite elem_of_cons.
  split; [by right|]. intros [Heq | Hin]; [|done].
  subst entry. by simpl in Hh.
Qed.

End Registry.

(** ** Seeking *)

Lemma sub64_id (a b : Z) : in_int64 (a - b) → sub64 a b = a - b.
Proof.
  unfold in_int64, sub64, wrap64, min_val, max_val. intros Hr.
  rewrite Z.mod_small; lia.
Qed.

Lemma add64_id (a b : Z) : in_int64 (a + b) → add64 a b = a + b.
Proof.
  unfold in_int64, add64, wrap64, min_val, max_val. intros Hr.
  rewrite Z.mod_small; lia.
Qed.

(** C6 (amended): for a reader whose cursor is at an offset [o >= 1],
    [Seek(Current, max_int64)] fails with the overflow error, detected by the
    comparison that precedes the addition, and nothing but the last-error
    text changes: the cursor keeps its value. *)
Theorem seek_current_max_overflows (d : Driver) (stream : Handle) (pos : nat) (reader : Reader) :
  bIsConnected d ≠ kFalse → stream ≠ nullptr →
  FindReader stream d = Some (pos, (stream, reader)) →
  1 ≤ offset_ reader ≤ max_val →
  driver_fseek d stream max_val ios_cur
    = (kBadSize, LogError "Signed overflow prevented" d)
  ∧ cursor (driver_fseek d stream max_val ios_cur).2 stream = Some (offset_ reader).
Proof.
  intros Hconn Hnull Hfind Hoff.
  assert (driver_fseek d stream max_val ios_cur
          = (kBadSize, LogError "Signed overflow prevented" d)) as Heq.
  { unfold driver_fseek.
    rewrite bool_decide_eq_false_2 by (intros Hk; by apply Hconn).
    rewrite bool_decide_eq_false_2 by done.
    rewrite Hfind. cbn [ios_beg ios_cur].
    rewrite (bool_decide_eq_false_2 (ios_cur = ios_beg)) by done.
    rewrite (bool_decide_eq_true_2 (ios_cur = ios_cur)) by done.
    rewrite sub64_id by (unfold in_int64, min_val, max_val in *; lia).
    rewrite bool_decide_eq_true_2 by lia. done. }
  split; [done|]. rewrite Heq. unfold cursor, resolve. simpl.
  unfold FindReader in Hfind. by rewrite Hfind.
Qed.

Lemma seek_current_max_overflows_witness :
  driver_fseek (seek_driver 5 100) 16 max_val ios_cur
    = (kBadSize, LogError "Signed overflow prevented" (seek_driver 5 100))
  ∧ cursor (driver_fseek (seek_driver 5 100) 16 max_val ios_cur).2 16 = Some 5.
Proof.
  apply (seek_current_max_overflows (seek_driver 5 100) 16 0
           {| bucketname_ := "data"; filename_ := "part"; offset_ := 5;
              commonHeaderLength_ := 0; filenames_ := ["part"];
              cumulativeSize_ := [100]; total_size_ := 100 |}).
  - vm_compute. discriminate.
  - vm_compute. discriminate.
  - reflexivity.
  - vm_compute. split; discriminate.
Defined.

(** C6, as stated, fails at offset 0: the sum [0 + max_int64] is
    representable, the seek succeeds and moves the cursor. *)
Lemma seek_current_max_from_zero_succeeds :
  (driver_fseek (seek_driver 0 100) 16 max_val ios_cur).1 = 0
  ∧ (driver_fseek (seek_driver 0 100) 16 max_val ios_cur).1 ≠ kBadSize
  ∧ lastError (driver_fseek (seek_driver 0 100) 16 max_val ios_cur).2 = ""
  ∧ cursor (seek_driver 0 100) 16 = Some 0
  ∧ cursor (driver_fseek (seek_driver 0 100) 16 max_val ios_cur).2 16 = Some max_val.
Proof. vm_compute. split_and!; done. Qed.

(** C7: on a reader over a zero-length logical stream, [Seek(End, 0)]
    succeeds and puts the cursor at 0, [Seek(End, -1)] fails with the
    invalid-offset error and [Seek(End, min_int64)] fails with the overflow
    error; both failures leave everything but the last-error text
    unchanged. *)
Theorem seek_end_on_empty_stream (d : Driver) (stream : Handle) (pos : nat) (reader : Reader) :
  bIsConnected d ≠ kFalse → stream ≠ nullptr →
  FindReader stream d = Some (pos, (stream, reader)) →
  total_size_ reader = 0 →
  (driver_fseek d stream 0 ios_end).1 = 0
  ∧ cursor (driver_fseek d stream 0 ios_end).2 stream = Some 0
  ∧ driver_fseek d stream (-1) ios_end
      = (kBadSize, LogError "Invalid seek offset -1" d)
  ∧ cursor (driver_fseek d stream (-1) ios_end).2 stream = Some (offset_ reader)
  ∧ driver_fseek d stream min_val ios_end
      = (kBadSize, LogError "Signed overflow prevented" d)
  ∧ cursor (driver_fseek d stream min_val ios_end).2 stream = Some (offset_ reader).
Proof.
  intros Hconn Hnull Hfind Htotal.
  assert (∀ offset, driver_fseek d stream offset ios_end =
            if bool_decide (offset = min_val) then
              (kBadSize, LogError "Signed overflow prevented" d)
            else if bool_decide (offset < 0) then
              (kBadSize, LogError ("Invalid seek offset " +:+ to_string offset) d)
            else (0, set_readers
                       (<[pos := (stream, set_offset reader offset)]>
                          (active_reader_handles d)) d)) as Hseek.
  { intros offset. unfold driver_fseek.
    rewrite bool_decide_eq_false_2 by (intros Hk; by apply Hconn).
    rewrite bool_decide_eq_false_2 by done.
    rewrite Hfind, Htotal.
    rewrite (bool_decide_eq_false_2 (ios_end = ios_beg)) by done.
    rewrite (bool_decide_eq_false_2 (ios_end = ios_cur)) by done.
    rewrite (bool_decide_eq_true_2 (ios_end = ios_end)) by done.
    rewrite (bool_decide_eq_false_2 (0 > 0)) by lia.
    rewrite (bool_decide_eq_true_2 (0 = 0)) by done.
    simpl. rewrite andb_true_r. done. }
  assert (cursor d stream = Some (offset_ reader)) as Hcur.
  { unfold cursor, resolve. unfold FindReader in Hfind. by rewrite Hfind. }
  rewrite !Hseek. simpl.
  split_and!; try done.
  unfold cursor, resolve. simpl.
  by rewrite (FindHandle_insert _ _ _ _ (set_offset reader 0) Hfind).
Qed.

Lemma seek_end_on_empty_stream_witness :
  (driver_fseek (seek_driver 0 0) 16 0 ios_end).1 = 0
  ∧ cursor (driver_fseek (seek_driver 0 0) 16 0 ios_end).2 16 = Some 0
  ∧ driver_fseek (seek_driver 0 0) 16 (-1) ios_end
      = (kBadSize, LogError "Invalid seek offset -1" (seek_driver 0 0))
  ∧ cursor (driver_fseek (seek_driver 0 0) 16 (-1) ios_end).2 16 = Some 0
  ∧ driver_fseek (seek_driver 0 0) 16 min_val ios_end
      = (kBadSize, LogError "Signed overflow prevented" (seek_driver 0 0))
  ∧ cursor (driver_fseek (seek_driver 0 0) 16 min_val ios_end).2 16 = Some 0.
Proof.
  apply (seek_end_on_empty_stream (seek_driver 0 0) 16 0
           {| bucketname_ := "data"; filename_ := "part"; offset_ := 0;
              commonHeaderLength_ := 0; filenames_ := ["part"];
              cumulativeSize_ := [0]; total_size_ := 0 |}).
  - vm_compute. discriminate.
  - vm_compute. discriminate.
  - reflexivity.
  - reflexivity.
Defined.

(** ** Closing *)

(** C9: after a successful close of an open handle [h], closing [h] again
    returns the end-of-file status with the error "Cannot identify stream.",
    [h] resolves to no reader and no writer, every other handle resolves to
    the stream it resolved to before, and exactly one entry has left the
    registry, by the swap with the last entry and truncation. *)
Theorem close_removes_exactly_the_handle (d : Driver) (h : Handle) :
  bIsConnected d ≠ 0 → NoDup (live_handles d) → h ≠ nullptr → h ∈ live_handles d →
  ∃ d', driver_fclose d h = (inr kCloseSuccess, d')
    ∧ driver_fclose d' h = (inr kCloseEOF, LogError "Cannot identify stream." d')
    ∧ resolve h (active_reader_handles d') = None
    ∧ resolve h (active_writer_handles d') = None
    ∧ (∀ h', h' ≠ h →
         resolve h' (active_reader_handles d') = resolve h' (active_reader_handles d)
         ∧ resolve h' (active_writer_handles d') = resolve h' (active_writer_handles d))
    ∧ S (length (live_handles d')) = length (live_handles d)
    ∧ ((∃ pos entry, FindReader h d = Some (pos, entry)
          ∧ active_reader_handles d' = EraseRemove pos (active_reader_handles d)
          ∧ active_writer_handles d' = active_writer_handles d)
       ∨ (∃ pos entry, FindReader h d = None ∧ FindWriter h d = Some (pos, entry)
          ∧ active_writer_handles d' = EraseRemove pos (active_writer_handles d)
          ∧ active_reader_handles d' = active_reader_handles d)).
Proof.
  intros Hconn Hnd Hnull Hopen. unfold live_handles in *.
  apply NoDup_app in Hnd as (Hndr & Hdisj & Hndw).
  assert (∀ d', bIsConnected d' = bIsConnected d →
            driver_fclose d' h =
              match FindReader h d' with
              | Some (pos, _) =>
                  (inr kCloseSuccess, set_readers (EraseRemove pos (active_reader_handles d')) d')
              | None =>
                  match FindWriter h d' with
                  | Some (pos, _) =>
                      (inr kCloseSuccess,
                       set_writers (EraseRemove pos (active_writer_handles d')) d')
                  | None => (inr kCloseEOF, LogError "Cannot identify stream." d')
                  end
              end) as Hclose.
  { intros d' Hc. unfold driver_fclose. rewrite Hc.
    rewrite bool_decide_eq_false_2 by done. by rewrite bool_decide_eq_false_2 by done. }
  pose proof (Hclose d eq_refl) as Hfirst.
  destruct (FindReader h d) as [[pos entry]|] eqn:Hfr.
  - eexists. split; [exact Hfirst|]. unfold FindReader in Hfr.
    pose proof (FindHandle_Some _ _ _ _ Hfr) as (Hl & Hh & Hpos).
    assert (h ∈ (active_reader_handles d).*1) as Hinr.
    { apply list_elem_of_fmap. exists entry. split; [done|]. by eapply list_elem_of_lookup_2. }
    assert (FindWriter h d = None) as Hfw.
    { apply FindHandle_None. by apply Hdisj. }
    rewrite (Hclose (set_readers _ d) eq_refl). unfold FindReader, FindWriter in *. simpl.
    rewrite (EraseRemove_closed _ _ _ _ Hndr Hfr), Hfw.
    split_and!; try done.
    + unfold resolve. by rewrite (EraseRemove_closed _ _ _ _ Hndr Hfr).
    + unfold resolve. by rewrite Hfw.
    + intros h' Hne. split; [|done]. by eapply EraseRemove_others.
    + rewrite !length_app, !length_fmap.
      pose proof (EraseRemove_length _ _ Hpos). lia.
    + left. by exists pos, entry.
  - assert (h ∈ (active_writer_handles d).*1) as Hinw.
    { apply elem_of_app in Hopen as [Hin|Hin]; [|done].
      by apply FindHandle_None in Hfr. }
    destruct (FindWriter h d) as [[pos entry]|] eqn:Hfw;
      [|by apply FindHandle_None in Hfw].
    eexists. split; [exact Hfirst|]. unfold FindWriter in Hfw.
    pose proof (FindHandle_Some _ _ _ _ Hfw) as (Hl & Hh & Hpos).
    rewrite (Hclose (set_writers _ d) eq_refl). unfold FindReader, FindWriter in *. simpl.
    rewrite Hfr, (EraseRemove_closed _ _ _ _ Hndw Hfw).
    split_and!; try done.
    + unfold resolve. by rewrite Hfr.
    + unfold resolve. by rewrite (EraseRemove_closed _ _ _ _ Hndw Hfw).
    + intros h' Hne. split; [done|]. by eapply EraseRemove_others.
    + rewrite !length_app, !length_fmap.
      pose proof (EraseRemove_length _ _ Hpos). lia.
    + right. by exists pos, entry.
Qed.

Lemma close_removes_exactly_the_handle_witness :
  ∃ d', driver_fclose close_driver 16 = (inr kCloseSuccess, d')
    ∧ driver_fclose d' 16 = (inr kCloseEOF, LogError "Cannot identify stream." d')
    ∧ resolve 16 (active_reader_handles d') = None
    ∧ resolve 16 (active_writer_handles d') = None
    ∧ (∀ h', h' ≠ 16 →
         resolve h' (active_reader_handles d') = resolve h' (active_reader_handles close_driver)
         ∧ resolve h' (active_writer_handles d') = resolve h' (active_writer_handles close_driver))
    ∧ S (length (live_handles d')) = length (live_handles close_driver)
    ∧ ((∃ pos entry, FindReader 16 close_driver = Some (pos, entry)
          ∧ active_reader_handles d' = EraseRemove pos (active_reader_handles close_driver)
          ∧ active_writer_handles d' = active_writer_handles close_driver)
       ∨ (∃ pos entry, FindReader 16 close_driver = None
          ∧ FindWriter 16 close_driver = Some (pos, entry)
          ∧ active_writer_handles d' = EraseRemove pos (active_writer_handles close_driver)
          ∧ active_reader_handles d' = active_reader_handles close_driver)).
Proof.
  apply (close_removes_exactly_the_handle close_driver 16).
  - vm_compute. discriminate.
  - apply (bool_decide_unpack _). by vm_compute.
  - vm_compute. discriminate.
  - apply (bool_decide_unpack _). by vm_compute.
Defined.

(** The entry that was last takes the place of the closed one. *)
Example close_swaps_with_last :
  (active_reader_handles (driver_fclose close_driver 16).2).*1 = [48; 32].
Proof. reflexivity. Qed.

(** ** Running computations against the store *)

Section Monad.
Context {World : Type}.
Implicit Types s : World * list Request.

Lemma bind_Ret_inv {A B : Type} (m : Remote World A) (k : A → Remote World B) s b s' :
  bind m k s = (Ret b, s') → ∃ a s1, m s = (Ret a, s1) ∧ k a s1 = (Ret b, s').
Proof.
  unfold bind. destruct (m s) as [[a|e|f] s1]; intros Heq; try discriminate.
  by exists a, s1.
Qed.

Lemma bind_Ret {A B : Type} (m : Remote World A) (k : A → Remote World B) s a s1 :
  m s = (Ret a, s1) → bind m k s = k a s1.
Proof. unfold bind. by intros ->. Qed.

Lemma try_Ret_inv {A : Type} (m : Remote World A) s x s' :
  try_ m s = (Ret x, s') →
  (∃ a, m s = (Ret a, s') ∧ x = inr a) ∨ (∃ e, m s = (Throw e, s') ∧ x = inl e).
Proof.
  unfold try_. destruct (m s) as [[a|e|f] s1]; intros [= <- <-]; eauto.
Qed.

Lemma try_Ret {A : Type} (m : Remote World A) s a s' :
  m s = (Ret a, s') → try_ m s = (Ret (inr a), s').
Proof. unfold try_. by intros ->. Qed.

Lemma try_Throw {A : Type} (m : Remote World A) s e s' :
  m s = (Throw e, s') → try_ m s = (Ret (inl e), s').
Proof. unfold try_. by intros ->. Qed.

Lemma at_Ret_inv {A : Type} (v : list A) i s x s' :
  at_ v i s = (Ret x, s') → v !! i = Some x ∧ s' = s.
Proof.
  unfold at_. destruct (v !! i); [|discriminate]. unfold ret. by intros [= <- <-].
Qed.

Lemma at_Some {A : Type} (v : list A) i x s : v !! i = Some x → at_ v i s = (Ret x, s).
Proof. unfold at_. by intros ->. Qed.

End Monad.

Lemma set_offset_id (r : Reader) : set_offset r (offset_ r) = r.
Proof. by destruct r. Qed.

Section ReadFailure.
Context {World : Type} `{BlobService World}.
Implicit Types s : World * list Request.

Lemma ReadBytesInFile_next_failure fuel multifile offset_bak idx st s res reader' buffer' s' :
  ReadBytesInFile_next fuel multifile offset_bak idx st s = (Ret (res, reader', buffer'), s') →
  is_success res = false →
  reader' = set_offset multifile offset_bak.
Proof.
  revert idx st s. induction fuel as [|fuel IH]; intros idx st s; simpl.
  - case_bool_decide; [|discriminate]. unfold ret. by intros [= <- <- <- <-].
  - case_bool_decide; [unfold ret; by intros [= <- <- <- <-]|].
    intros Hrun Hfail.
    apply bind_Ret_inv in Hrun as (cur & s1 & _ & Hrun).
    apply bind_Ret_inv in Hrun as (prev & s2 & _ & Hrun).
    apply bind_Ret_inv in Hrun as (filename & s3 & _ & Hrun).
    apply bind_Ret_inv in Hrun as (r & s4 & _ & Hrun).
    destruct r as [e|st'].
    + unfold ret in Hrun. by injection Hrun as <- <- <- <-.
    + by eapply IH.
Qed.

Lemma ReadBytesInFile_failure multifile buffer to_read s res reader' buffer' s' :
  ReadBytesInFile multifile buffer to_read s = (Ret (res, reader', buffer'), s') →
  is_success res = false →
  reader' = multifile.
Proof.
  unfold ReadBytesInFile. intros Hrun Hfail.
  apply bind_Ret_inv in Hrun as (cur & s1 & _ & Hrun).
  apply bind_Ret_inv in Hrun as (file_start & s2 & _ & Hrun).
  apply bind_Ret_inv in Hrun as (filename & s3 & _ & Hrun).
  apply bind_Ret_inv in Hrun as (r & s4 & _ & Hrun).
  destruct r as [e|st'].
  - unfold ret in Hrun. injection Hrun as <- <- <- <-. apply set_offset_id.
  - rewrite (ReadBytesInFile_next_failure _ _ _ _ _ _ _ _ _ _ Hrun Hfail).
    apply set_offset_id.
Qed.

End ReadFailure.

(** ** Arithmetic of a read request *)

Lemma wrap64_id (z : Z) : in_int64 z → wrap64 z = z.
Proof. unfold in_int64, wrap64, min_val, max_val. intros Hr. rewrite Z.mod_small; lia. Qed.

Lemma no_product_overflow (size count : Z) :
  0 < size → 0 < count → WillSizeCountProductOverflow size count = false →
  size * count ≤ max_val ∧ wrap64 (mulU64 size count) = size * count.
Proof.
  intros Hs Hc Hno. unfold WillSizeCountProductOverflow in Hno.
  apply orb_false_iff in Hno as [Hno _]. apply bool_decide_eq_false in Hno.
  assert (size * count ≤ max_val) as Hle.
  { pose proof (Z.mul_div_le max_val size Hs). nia. }
  split; [done|]. unfold mulU64, wrapU64.
  rewrite Z.mod_small by (unfold max_val in Hle; lia).
  apply wrap64_id. unfold in_int64, min_val. lia.
Qed.

Lemma product_overflow (size count : Z) :
  0 < size → 0 < count → max_val < size * count →
  WillSizeCountProductOverflow size count = true.
Proof.
  intros Hs Hc Hlt. unfold WillSizeCountProductOverflow.
  apply orb_true_iff. left. apply bool_decide_eq_true.
  apply Z.div_lt_upper_bound; lia.
Qed.

Lemma clamped_min (offset total_size to_read : Z) :
  0 ≤ offset → offset < total_size → total_size ≤ max_val →
  0 < to_read → to_read ≤ max_val - offset →
  clamped offset total_size to_read = Z.min to_read (total_size - offset).
Proof.
  intros. unfold clamped.
  rewrite add64_id by (unfold in_int64, min_val, max_val in *; lia).
  case_bool_decide.
  - rewrite sub64_id by (unfold in_int64, min_val, max_val in *; lia). lia.
  - lia.
Qed.

Section ReadFailureDriver.
Context {World : Type} `{BlobService World}.
Implicit Types s : World * list Request.

(** Whenever [driver_fread] returns [kBadSize], the registry of readers is
    the one of the call entry. *)
Lemma failed_read_keeps_the_readers (d : Driver) (ptr : option (list byte)) (size count : Z)
    (stream : Handle) (pos : nat) (h : Handle) (reader : Reader) s
    (ret : Z) (d' : Driver) (ptr' : option (list byte)) s' :
  0 ≤ size → 0 ≤ count →
  FindReader stream d = Some (pos, (h, reader)) →
  0 ≤ offset_ reader → total_size_ reader ≤ max_val →
  driver_fread d ptr size count stream s = (Ret (ret, d', ptr'), s') →
  ret = kBadSize →
  active_reader_handles d' = active_reader_handles d
  ∧ cursor d' stream = Some (offset_ reader).
Proof.
  intros Hsize Hcount Hfind Hoff Htotal Hrun ->.
  assert (cursor d stream = Some (offset_ reader)) as Hcur.
  { unfold cursor, resolve. unfold FindReader in Hfind. by rewrite Hfind. }
  assert (active_reader_handles d' = active_reader_handles d) as Hsame;
    [|split; [done|]; unfold cursor in *; by rewrite Hsame].
  unfold driver_fread in Hrun.
  repeat (case_bool_decide; [unfold ret in Hrun; by injection Hrun as <- <- <-|]).
  destruct ptr as [buffer|]; [|unfold ret in Hrun; by injection Hrun as <- <- <-].
  case_bool_decide; [unfold ret in Hrun; by injection Hrun as <- <- <-|].
  rewrite Hfind in Hrun.
  case_bool_decide; [unfold ret in Hrun; by injection Hrun|].
  destruct (WillSizeCountProductOverflow size count) eqn:Hprod;
    [unfold ret in Hrun; by injection Hrun as <- <- <-|].
  apply no_product_overflow in Hprod as [Hle Hto_read]; [|lia..].
  rewrite Hto_read in Hrun.
  rewrite sub64_id in Hrun by (unfold in_int64, min_val, max_val in *; nia).
  repeat (case_bool_decide; [unfold ret in Hrun; by injection Hrun as <- <- <-|]).
  fold (clamped (offset_ reader) (total_size_ reader) (size * count)) in Hrun.
  rewrite clamped_min in Hrun by nia.
  apply bind_Ret_inv in Hrun as ([[read_res reader'] buffer'] & s1 & Hread & Hrun).
  destruct (is_success read_res) eqn:Hres; unfold ret in Hrun.
  - injection Hrun as Hret _ _ _. unfold kBadSize in Hret. nia.
  - injection Hrun as <- <- <-. simpl.
    rewrite (ReadBytesInFile_failure _ _ _ _ _ _ _ _ Hread Hres).
    apply list_insert_id. by apply FindHandle_Some in Hfind as (? & _).
Qed.

End ReadFailureDriver.

(** ** Cumulative sizes and the elided stream *)

Lemma cumulative_length previous sizes : length (cumulative previous sizes) = length sizes.
Proof. revert previous. induction sizes as [|x xs IH]; intros; simpl; [done|]. by rewrite IH. Qed.

Lemma cumulative_lookup (parts : list (list byte)) (previous : Z) (i : nat) :
  (i < length parts)%nat →
  cumulative previous (byte_length <$> parts) !! i
    = Some (previous + byte_length (concat (take (S i) parts))).
Proof.
  revert previous i. induction parts as [|p parts IH]; intros previous i Hi; simpl in *; [lia|].
  destruct i as [|i]; simpl.
  - by rewrite app_nil_r.
  - rewrite IH by lia. f_equal. unfold byte_length. rewrite !length_app. lia.
Qed.

Lemma cumulative_last (parts : list (list byte)) :
  default 0 (last (cumulative 0 (byte_length <$> parts))) = byte_length (concat parts).
Proof.
  destruct (decide (parts = [])) as [->|Hne]; [done|].
  rewrite last_lookup, cumulative_length, length_fmap.
  assert (0 < length parts)%nat by (destruct parts; simpl; [done|lia]).
  rewrite cumulative_lookup by lia.
  replace (S (pred (length parts))) with (length parts) by lia.
  by rewrite take_ge by lia.
Qed.

Lemma logical_parts_length L contents : length (logical_parts L contents) = length contents.
Proof. destruct contents; simpl; [done|]. by rewrite length_fmap. Qed.

Lemma logical_parts_lookup_0 L contents c :
  contents !! 0%nat = Some c → logical_parts L contents !! 0%nat = Some c.
Proof. by destruct contents. Qed.

Lemma logical_parts_lookup_S L contents i c :
  contents !! S i = Some c → logical_parts L contents !! S i = Some (drop L c).
Proof.
  destruct contents as [|c0 rest]; [done|]. simpl. intros Hc.
  by rewrite list_lookup_fmap, Hc.
Qed.

Lemma slice_take_drop (start len : nat) (c : list byte) :
  (start + len ≤ length c)%nat →
  slice (Z.of_nat start) (Z.of_nat len) c = take len (drop start c).
Proof.
  intros Hle. unfold slice. rewrite Nat2Z.id. f_equal. lia.
Qed.

Lemma blit_length data pos buf :
  (pos + length data ≤ length buf)%nat → length (blit data pos buf) = length buf.
Proof.
  intros Hle. unfold blit. rewrite !length_app, length_take, length_drop. lia.
Qed.

Lemma blit_take data pos buf :
  (pos ≤ length buf)%nat → take (pos + length data) (blit data pos buf) = take pos buf ++ data.
Proof.
  intros Hle. unfold blit. rewrite (assoc_L (++)).
  rewrite take_app_length'; [done|]. rewrite length_app, length_take. lia.
Qed.

Lemma blit_drop data pos buf k :
  (pos + length data ≤ k)%nat → (pos ≤ length buf)%nat →
  drop k (blit data pos buf) = drop k buf.
Proof.
  intros Hk Hle. unfold blit. rewrite (assoc_L (++)).
  rewrite drop_app_ge by (rewrite length_app, length_take; lia).
  rewrite length_app, length_take, drop_drop. f_equal. lia.
Qed.

Lemma concat_take_S (parts : list (list byte)) i lp :
  parts !! i = Some lp → concat (take (S i) parts) = concat (take i parts) ++ lp.
Proof. intros Hlp. rewrite (take_S_r _ _ _ Hlp), concat_app. simpl. by rewrite app_nil_r. Qed.

Lemma concat_split_at (parts : list (list byte)) i lp :
  parts !! i = Some lp →
  concat parts = concat (take i parts) ++ lp ++ concat (drop (S i) parts).
Proof.
  intros Hlp. rewrite <- (take_drop_middle _ _ _ Hlp) at 1.
  by rewrite concat_app.
Qed.

(** The part found by the search holds the byte at the offset. *)
Lemma upper_bound_spec (parts : list (list byte)) (o : nat) :
  (o < length (concat parts))%nat →
  ∃ lp, parts !! upper_bound (cumulative 0 (byte_length <$> parts)) (Z.of_nat o) = Some lp
    ∧ (length (concat (take (upper_bound (cumulative 0 (byte_length <$> parts)) (Z.of_nat o))
                          parts)) ≤ o)%nat
    ∧ (o < length (concat (take (upper_bound (cumulative 0 (byte_length <$> parts))
                                   (Z.of_nat o)) parts)) + length lp)%nat.
Proof.
  intros Ho. unfold upper_bound.
  set (cum := cumulative 0 (byte_length <$> parts)).
  assert (0 < length parts)%nat as Hn by (destruct parts; simpl in *; lia).
  assert (cum !! pred (length parts) = Some (byte_length (concat parts))) as Hlast.
  { unfold cum. rewrite cumulative_lookup by lia.
    replace (S (pred (length parts))) with (length parts) by lia.
    by rewrite take_ge by lia. }
  destruct (list_find (λ y, Z.of_nat o < y) cum) as [[idx cur]|] eqn:Hfind.
  - apply list_find_Some in Hfind as (Hcur & Hlt & Hmin).
    assert (idx < length parts)%nat as Hidx.
    { apply lookup_lt_Some in Hcur. unfold cum in Hcur.
      by rewrite cumulative_length, length_fmap in Hcur. }
    destruct (lookup_lt_is_Some_2 parts idx Hidx) as [lp Hlp]. exists lp.
    split; [done|]. unfold cum in Hcur. rewrite cumulative_lookup in Hcur by done.
    injection Hcur as <-. rewrite (concat_take_S _ _ _ Hlp) in Hlt.
    unfold byte_length in Hlt. rewrite length_app in Hlt. split; [|lia].
    destruct idx as [|k]; [simpl; lia|].
    assert (cum !! k = Some (byte_length (concat (take (S k) parts)))) as Hk
      by (unfold cum; rewrite cumulative_lookup by lia; done).
    specialize (Hmin k _ Hk). unfold byte_length in Hmin. lia.
  - exfalso. apply list_find_None in Hfind.
    apply list_elem_of_lookup_2 in Hlast.
    rewrite Forall_forall in Hfind. specialize (Hfind _ Hlast).
    unfold byte_length in Hfind. lia.
Qed.

(** ** Reads that span parts *)

Section SpanningRead.
Context {World : Type} `{BlobService World}.
Implicit Types s : World * list Request.

Variable stable : World → Prop.
Variables (bucket : string) (names : list string) (contents : list (list byte)) (L : nat).


Hypothesis Hnames : length names = length contents.
Hypothesis Hshared : ∀ i c, contents !! S i = Some c → (L ≤ length c)%nat.
Hypothesis Hmax : byte_length (concat contents) ≤ max_val.
Hypothesis Hserves : serves stable bucket names contents.

Lemma part_length_le i c : contents !! i = Some c → byte_length c ≤ max_val.
Proof.
  intros Hc. etrans; [|exact Hmax]. unfold byte_length.
  apply list_elem_of_split_length in Hc as (l1 & l2 & -> & _).
  rewrite concat_app. simpl. rewrite !length_app. lia.
Qed.

Lemma logical_lookup i : 
  (i < length contents)%nat →
  cumulative_logical_sizes L contents !! i
    = Some (byte_length (concat (take (S i) (logical_parts L contents)))).
Proof.
  intros Hi. unfold cumulative_logical_sizes.
  by rewrite cumulative_lookup by (by rewrite logical_parts_length).
Qed.

Lemma download_serves i name c (start len : nat) w tr :
  names !! i = Some name → contents !! i = Some c →
  (start + len ≤ length c)%nat → stable w →
  ∃ w', download bucket name (Z.of_nat start) (Z.of_nat len) (w, tr)
        = (Ret {| dl_data := take len (drop start c); dl_BlobSize := byte_length c |},
           (w', tr ++ [ReqDownloadTo bucket name (Z.of_nat start) (Z.of_nat len)]))
      ∧ stable w'.
Proof.
  intros Hn Hc Hle Hw.
  destruct (Hserves i name c Hn Hc (Z.of_nat start) (Z.of_nat len) w) as (w' & Hw' & Hst);
    [unfold byte_length; lia | lia | done |].
  exists w'. split; [|done]. unfold download, call. simpl. rewrite Hw'.
  by rewrite slice_take_drop.
Qed.

Lemma read_range_and_update_serves i name c (start len : nat) st w tr :
  names !! i = Some name → contents !! i = Some c →
  (start + len ≤ length c)%nat → stable w →
  ∃ w', read_range_and_update bucket name (Z.of_nat start) (Z.of_nat len) st (w, tr)
        = (Ret {| rs_offset := add64 (rs_offset st) (Z.of_nat len);
                  rs_buffer_pos := rs_buffer_pos st + Z.of_nat len;
                  rs_to_read := sub64 (rs_to_read st) (Z.of_nat len);
                  rs_buffer := blit (take len (drop start c)) (Z.to_nat (rs_buffer_pos st))
                                 (rs_buffer st) |},
           (w', tr ++ [ReqDownloadTo bucket name (Z.of_nat start) (Z.of_nat len)]))
      ∧ stable w'.
Proof.
  intros Hn Hc Hle Hw.
  destruct (download_serves i name c start len w tr Hn Hc Hle Hw) as (w' & Hdl & Hst).
  exists w'. split; [|done].
  unfold read_range_and_update. by rewrite (bind_Ret _ _ _ _ _ Hdl).
Qed.

Lemma ReadBytesInFile_next_spanning r bak fuel :
  indexes bucket names contents L r →
  ∀ idx off (p t : nat) B w tr,
  (idx < length contents)%nat → (length contents ≤ fuel + idx)%nat →
  (t = 0%nat ∨ cumulative_logical_sizes L contents !! idx = Some off) →
  (t ≤ length (concat (drop (S idx) (logical_parts L contents))))%nat →
  (p + t ≤ length B)%nat →
  0 ≤ off → off + Z.of_nat t ≤ max_val → stable w →
  ∃ w' reqs,
    ReadBytesInFile_next fuel r bak idx
      {| rs_offset := off; rs_buffer_pos := Z.of_nat p; rs_to_read := Z.of_nat t;
         rs_buffer := B |} (w, tr)
    = (Ret (DriverSuccess 0, set_offset r (off + Z.of_nat t),
            take p B ++ take t (concat (drop (S idx) (logical_parts L contents)))
              ++ drop (p + t) B),
       (w', tr ++ reqs))
    ∧ Forall (starts_after_header bucket L) reqs ∧ stable w'.
Proof.
  intros (Hb & Hf & Hc & Hl & Ht).
  induction fuel as [|fuel IH];
    intros idx off p t B w tr Hidx Hfuel Hoff Hrest HB Hoff0 Hoffmax Hw; [lia|].
  simpl. destruct (decide (t = 0%nat)) as [->|Htpos].
  - rewrite bool_decide_eq_true_2 by done. exists w, []. split; [|done].
    unfold ret, MakeDriverSuccess. simpl. rewrite Z.add_0_r, Nat.add_0_r, app_nil_r.
    by rewrite take_drop.
  - rewrite bool_decide_eq_false_2 by lia.
    destruct Hoff as [?|Hoff]; [done|].
    assert (S idx < length contents)%nat as Hnext.
    { destruct (decide (S idx < length contents)%nat); [done|].
      rewrite drop_ge in Hrest by (rewrite logical_parts_length; lia). simpl in Hrest. lia. }
    destruct (lookup_lt_is_Some_2 contents (S idx) Hnext) as [c Hcont].
    destruct (lookup_lt_is_Some_2 names (S idx)) as [name Hname]; [lia|].
    pose proof (logical_parts_lookup_S L _ _ _ Hcont) as Hlp.
    pose proof (Hshared _ _ Hcont) as HL.
    pose proof (part_length_le _ _ Hcont) as Hcmax.
    rewrite Hc, Hf, Hb, Hl.
    rewrite (bind_Ret _ _ _ _ _ (at_Some _ _ _ _ (logical_lookup (S idx) Hnext))).
    rewrite Nat.sub_0_r.
    rewrite (bind_Ret _ _ _ _ _ (at_Some _ _ _ _ (logical_lookup idx Hidx))).
    rewrite (bind_Ret _ _ _ _ _ (at_Some _ _ _ _ Hname)).
    rewrite logical_lookup in Hoff by done. injection Hoff as <-.
    assert (length (drop L c) = (length c - L)%nat) as Hlplen by (by rewrite length_drop).
    set (lp := drop L c) in *.
    rewrite (take_S_r _ _ _ Hlp), concat_app. simpl. rewrite app_nil_r.
    rewrite (drop_S _ _ _ Hlp) in Hrest |- *. simpl in Hrest |- *.
    rewrite length_app in Hrest.
    set (before := concat (take (S idx) (logical_parts L contents))) in *.
    set (rest := concat (drop (S (S idx)) (logical_parts L contents))) in *.
    assert (byte_length (before ++ lp) = byte_length before + byte_length lp) as ->
      by (unfold byte_length; rewrite length_app; lia).
    unfold byte_length in *.
    rewrite sub64_id by (unfold in_int64, min_val, max_val in *; lia).
    replace (Z.of_nat (length before) + Z.of_nat (length lp) - Z.of_nat (length before))
      with (Z.of_nat (length lp)) by lia.
    remember (t `min` length lp)%nat as m eqn:Hm.
    replace (Z.of_nat t `min` Z.of_nat (length lp)) with (Z.of_nat m) by lia.
    edestruct (read_range_and_update_serves (S idx) name c L m) as (w1 & Hdl & Hw1);
      [exact Hname | exact Hcont | lia | exact Hw |].
    fold lp in Hdl.
    rewrite (bind_Ret _ _ _ _ _ (try_Ret _ _ _ _ Hdl)). simpl.
    rewrite add64_id by (unfold in_int64, min_val, max_val in *; lia).
    rewrite sub64_id by (unfold in_int64, min_val, max_val in *; lia).
    replace (Z.of_nat p + Z.of_nat m) with (Z.of_nat (p + m)) by lia.
    replace (Z.of_nat t - Z.of_nat m) with (Z.of_nat (t - m)) by lia.
    rewrite Nat2Z.id.
    assert (length (take m lp) = m) as Hdata by (rewrite length_take; lia).
    edestruct (IH (S idx) (Z.of_nat (length before) + Z.of_nat m) (p + m)%nat (t - m)%nat
                 (blit (take m lp) p B) w1
                 (tr ++ [ReqDownloadTo bucket name (Z.of_nat L) (Z.of_nat m)]))
      as (w' & reqs & Hrun & Hreqs & Hw').
    + done.
    + lia.
    + destruct (decide (t ≤ length lp)%nat); [left; lia|right].
      rewrite logical_lookup by done. f_equal.
      rewrite (take_S_r _ _ _ Hlp), concat_app. simpl. rewrite app_nil_r.
      unfold byte_length. rewrite length_app. fold before. lia.
    + fold rest. lia.
    + rewrite blit_length by lia. lia.
    + lia.
    + lia.
    + done.
    + exists w', (ReqDownloadTo bucket name (Z.of_nat L) (Z.of_nat m) :: reqs).
      split; [|split; [apply Forall_cons; split; [by eexists _, _|done]|done]].
      rewrite Hrun. f_equal; [|by rewrite <- (assoc_L (++))]. f_equal. f_equal.
      * do 2 f_equal. lia.
      * fold rest. rewrite <- Hdata at 1. rewrite blit_take by lia.
        rewrite blit_drop by lia.
        rewrite <- (assoc_L (++)). f_equal.
        rewrite take_app.
        replace (p + m + (t - m))%nat with (p + t)%nat by lia.
        rewrite (assoc_L (++)). f_equal. f_equal.
        -- destruct (decide (t ≤ length lp)%nat).
           ++ by replace m with t by lia.
           ++ replace m with (length lp) by lia.
              by rewrite !take_ge by lia.
        -- f_equal. lia.
Qed.

(** C2: a read of [t] bytes at logical offset [o] of an index with a shared
    header of [L] bytes delivers the bytes [o .. o + t) of the elided
    concatenation of the parts.  The first download starts, in the part
    [idx] that holds [o], at [o] for part 0 and at
    [o - cumulative[idx-1] + L] for a later part; every further download
    starts at physical offset [L]. *)
Theorem spanning_read_is_elided_concatenation (r : Reader) (buffer : list byte) (o t : nat)
    (w : World) (tr : list Request) :
  indexes bucket names contents L r → offset_ r = Z.of_nat o →
  (0 < t)%nat → (o + t ≤ length (elided_stream L contents))%nat → (t ≤ length buffer)%nat →
  stable w →
  ∃ w' idx name prev len reqs,
    ReadBytesInFile r buffer (Z.of_nat t) (w, tr)
    = (Ret (DriverSuccess 0, set_offset r (Z.of_nat (o + t)),
            take t (drop o (elided_stream L contents)) ++ drop t buffer),
       (w', tr ++ ReqDownloadTo bucket name
                    (if bool_decide (idx = 0%nat) then Z.of_nat o
                     else Z.of_nat o - prev + Z.of_nat L) len :: reqs))
    ∧ names !! idx = Some name
    ∧ (idx ≠ 0%nat → cumulativeSize_ r !! (idx - 1)%nat = Some prev)
    ∧ Forall (starts_after_header bucket L) reqs
    ∧ stable w'.
Proof.
  intros Hidx Hoff Ht Hend Hbuf Hw. pose proof Hidx as (Hb & Hf & Hc & Hl & Htot).
  unfold elided_stream in *.
  set (lps := logical_parts L contents) in *.
  destruct (upper_bound_spec lps o) as (lp & Hlp & Hlo & Hhi); [lia|].
  unfold ReadBytesInFile. rewrite Hc, Hf, Hb, Hl, Hoff.
  unfold cumulative_logical_sizes. fold lps.
  set (idx := upper_bound (cumulative 0 (byte_length <$> lps)) (Z.of_nat o)) in *.
  assert (idx < length contents)%nat as Hlt.
  { apply lookup_lt_Some in Hlp. unfold lps in Hlp. by rewrite logical_parts_length in Hlp. }
  destruct (lookup_lt_is_Some_2 contents idx Hlt) as [c Hcont].
  destruct (lookup_lt_is_Some_2 names idx) as [name Hname]; [lia|].
  pose proof (part_length_le _ _ Hcont) as Hcmax.
  assert (byte_length (concat lps) ≤ max_val) as Hsmax.
  { etrans; [|exact Hmax]. unfold byte_length, lps.
    destruct contents as [|c0 rest]; [done|]. simpl. rewrite !length_app.
    assert (length (concat (drop L <$> rest)) ≤ length (concat rest))%nat; [|lia].
    clear. induction rest as [|x xs IH]; csimpl; [done|].
    rewrite !length_app, length_drop. lia. }
  set (before := concat (take idx lps)) in *.
  set (rest := concat (drop (S idx) lps)).
  assert (concat lps = before ++ lp ++ rest) as Hsplit by (by apply concat_split_at).
  rewrite Hsplit in Hend. rewrite !length_app in Hend.
  pose proof (f_equal length Hsplit) as Hsl. rewrite !length_app in Hsl.
  (* the bytes of the first part involved *)
  remember (o - length before)%nat as skip eqn:Hskip.
  remember (t `min` (length lp - skip))%nat as len eqn:Hmin.
  assert (∃ start : nat,
            (start + len ≤ length c)%nat ∧ take len (drop start c) = take len (drop skip lp)
            ∧ Z.of_nat start = (if bool_decide (idx = 0%nat) then Z.of_nat o
                                else Z.of_nat o - byte_length before + Z.of_nat L))
    as (start & Hstart & Hdata & Hphys).
  { destruct idx as [|k] eqn:Hk.
    - exists o. unfold lps in Hlp. rewrite (logical_parts_lookup_0 _ _ _ Hcont) in Hlp.
      injection Hlp as <-. subst before. simpl in *.
      replace skip with o by lia. split_and!; [lia|done|done].
    - exists (skip + L)%nat. unfold lps in Hlp.
      rewrite (logical_parts_lookup_S _ _ _ _ Hcont) in Hlp. injection Hlp as <-.
      pose proof (Hshared _ _ Hcont). rewrite length_drop in *.
      split_and!; [lia| |].
      + by rewrite drop_drop, (Nat.add_comm L skip).
      + rewrite bool_decide_eq_false_2 by done. unfold byte_length. lia. }
  assert (cumulative 0 (byte_length <$> lps) !! idx
          = Some (byte_length before + byte_length lp)) as Hcur.
  { rewrite cumulative_lookup by (unfold lps; by rewrite logical_parts_length).
    rewrite (concat_take_S _ _ _ Hlp). fold before. unfold byte_length.
    rewrite length_app. f_equal. lia. }
  assert (idx ≠ 0%nat →
          cumulative 0 (byte_length <$> lps) !! (idx - 1)%nat = Some (byte_length before))
    as Hprev.
  { intros Hne. rewrite cumulative_lookup by (unfold lps; rewrite logical_parts_length; lia).
    replace (S (idx - 1)) with idx by lia. done. }
  unfold byte_length in *.
  rewrite (bind_Ret _ _ _ _ _ (at_Some _ _ _ _ Hcur)).
  assert ((if bool_decide (idx = 0%nat) then ret (Z.of_nat o)
           else prev <- at_ (cumulative 0 (byte_length <$> lps)) (idx - 1) ;;
                ret (add64 (sub64 (Z.of_nat o) prev) (Z.of_nat L))) (w, tr)
          = (Ret (Z.of_nat start), (w, tr))) as Hfs.
  { case_bool_decide as Hz; [by rewrite Hphys|].
    rewrite (bind_Ret _ _ _ _ _ (at_Some _ _ _ _ (Hprev Hz))). unfold ret.
    rewrite Hphys.
    rewrite sub64_id by (unfold in_int64, min_val, max_val in *; lia).
    rewrite add64_id by (unfold in_int64, min_val, max_val in *; lia). done. }
  rewrite (bind_Ret _ _ _ _ _ Hfs).
  rewrite sub64_id by (unfold in_int64, min_val, max_val in *; lia).
  replace (Z.of_nat t `min` (Z.of_nat (length before) + Z.of_nat (length lp) - Z.of_nat o))
    with (Z.of_nat len) by lia.
  rewrite (bind_Ret _ _ _ _ _ (at_Some _ _ _ _ Hname)).
  edestruct (read_range_and_update_serves idx name c start len) as (w1 & Hdl & Hw1);
    [exact Hname | exact Hcont | exact Hstart | exact Hw |].
  rewrite (bind_Ret _ _ _ _ _ (try_Ret _ _ _ _ Hdl)). simpl.
  rewrite add64_id by (unfold in_int64, min_val, max_val in *; lia).
  rewrite sub64_id by (unfold in_int64, min_val, max_val in *; lia).
  replace (Z.of_nat t - Z.of_nat len) with (Z.of_nat (t - len)) by lia.
  replace (Z.of_nat o + Z.of_nat len) with (Z.of_nat (o + len)) by lia.
  rewrite Hdata. rewrite cumulative_length, length_fmap. unfold lps at 1.
  rewrite logical_parts_length.
  assert (length (take len (drop skip lp)) = len) as Hlen
    by (rewrite length_take, length_drop; lia).
  edestruct (ReadBytesInFile_next_spanning r (Z.of_nat o) (length contents) Hidx idx
               (Z.of_nat (o + len)) len (t - len)%nat
               (blit (take len (drop skip lp)) 0 buffer) w1
               (tr ++ [ReqDownloadTo bucket name (Z.of_nat start) (Z.of_nat len)]))
    as (w' & reqs & Hrun & Hreqs & Hw').
  - done.
  - lia.
  - destruct (decide (t ≤ length lp - skip)%nat); [left; lia|right].
    unfold cumulative_logical_sizes, byte_length. fold lps. rewrite Hcur. f_equal. lia.
  - fold lps. fold rest. lia.
  - rewrite blit_length by (simpl; lia). lia.
  - lia.
  - lia.
  - done.
  - exists w', idx, name, (Z.of_nat (length before)), (Z.of_nat len), reqs.
    split_and!; [|done| |done|done].
    + change (0 + Z.of_nat len) with (Z.of_nat len). change (Z.to_nat 0) with 0%nat.
      rewrite Hrun. rewrite <- Hphys.
      f_equal; [|by rewrite <- (assoc_L (++))]. f_equal. f_equal.
      * do 2 f_equal. lia.
      * fold lps. fold rest. rewrite Hsplit.
        pose proof (blit_take (take len (drop skip lp)) 0 buffer) as Htake.
        pose proof (blit_drop (take len (drop skip lp)) 0 buffer t) as Hdrop.
        rewrite Hlen in Htake, Hdrop. simpl in Htake, Hdrop.
        rewrite Htake by lia.
        replace (len + (t - len))%nat with t by lia. rewrite Hdrop by lia.
        rewrite (assoc_L (++)). f_equal.
        rewrite drop_app_ge by lia. rewrite <- Hskip.
        rewrite drop_app_le by lia. rewrite take_app, length_drop.
        f_equal; [|f_equal; lia].
        destruct (decide (t ≤ length lp - skip)%nat).
        -- by replace len with t by lia.
        -- replace len with (length lp - skip)%nat by lia.
           by rewrite !take_ge by (rewrite length_drop; lia).
    + intros Hne. unfold byte_length. by apply Hprev.
Qed.

End SpanningRead.

(** ** Clamping of a read request *)

Section ReadClamp.
Context {World : Type} `{BlobService World}.
Implicit Types s : World * list Request.

(** States of the store in which the downloads of the read succeed. *)
Variable stable : World → Prop.

Lemma read_range_and_update_ok bucket names name start len st w tr :
  never_fails stable bucket names → name ∈ names → stable w →
  ∃ buffer' w' tr',
    read_range_and_update bucket name start len st (w, tr)
    = (Ret {| rs_offset := add64 (rs_offset st) len;
              rs_buffer_pos := rs_buffer_pos st + len;
              rs_to_read := sub64 (rs_to_read st) len;
              rs_buffer := buffer' |}, (w', tr'))
    ∧ stable w'.
Proof.
  intros Hok Hin Hw. destruct (Hok name start len w Hin Hw) as (dl & w' & Hdl & Hw').
  eexists _, w', _. split; [|done].
  unfold read_range_and_update, download, bind, call. simpl. by rewrite Hdl.
Qed.

Lemma wf_last r : index_wf r →
  cumulativeSize_ r !! pred (length (cumulativeSize_ r)) = Some (total_size_ r).
Proof.
  intros [Hne _ Htot _ _]. rewrite Htot, <- last_lookup.
  destruct (last (cumulativeSize_ r)) eqn:Hl; [done|]. by apply last_None in Hl.
Qed.

Lemma wf_bounds r i c : index_wf r → cumulativeSize_ r !! i = Some c → 0 ≤ c ≤ max_val.
Proof.
  intros [_ _ _ _ Hr] Hc. rewrite Forall_forall in Hr. apply Hr.
  by eapply list_elem_of_lookup_2.
Qed.

Lemma product_fits (size count : Z) :
  0 < size → 0 < count → size * count ≤ max_val →
  WillSizeCountProductOverflow size count = false.
Proof.
  intros Hs Hc Hle. unfold WillSizeCountProductOverflow.
  apply orb_false_iff. split; apply bool_decide_eq_false.
  - apply Z.le_ngt, Z.div_le_lower_bound; lia.
  - apply Z.le_ngt, Z.div_le_lower_bound; lia.
Qed.

End ReadClamp.

(** ** Transport failures during a read *)

Lemma set_readers_id (d : Driver) : set_readers (active_reader_handles d) d = d.
Proof. by destruct d. Qed.

Lemma wf_mono r i k a b :
  index_wf r → (i ≤ k)%nat →
  cumulativeSize_ r !! i = Some a → cumulativeSize_ r !! k = Some b → a ≤ b.
Proof.
  intros Hwf Hik Ha. revert b. induction Hik as [|k Hik IH]; intros b Hb.
  - rewrite Ha in Hb. injection Hb as <-. lia.
  - destruct (lookup_lt_is_Some_2 (cumulativeSize_ r) k) as [c Hc];
      [apply lookup_lt_Some in Hb; lia|].
    pose proof (wf_sorted r Hwf _ _ _ Hc Hb). specialize (IH _ Hc). lia.
Qed.

Section TransportFailure.
Context {World : Type} `{BlobService World}.
Implicit Types s : World * list Request.

Variable stable : World → Prop.

Lemma read_range_and_update_throws bucket name start len st w tr :
  always_fails stable bucket name → stable w →
  ∃ e s', try_ (read_range_and_update bucket name start len st) (w, tr) = (Ret (inl e), s').
Proof.
  intros Hfails Hw. destruct (Hfails start len w Hw) as (e & w' & Hdl).
  exists e, (w', tr ++ [ReqDownloadTo bucket name start len]).
  unfold try_, read_range_and_update, download, bind, call. simpl. by rewrite Hdl.
Qed.

(** The loop of a read whose download from part [j] fails, the parts before
    it being delivered. *)
Lemma ReadBytesInFile_next_throws r bak (lo j : nat) (name : string) (E : Z) fuel :
  index_wf r →
  filenames_ r !! j = Some name → always_fails stable (bucketname_ r) name →
  (∀ i name', (lo ≤ i < j)%nat → filenames_ r !! i = Some name' →
     never_fails stable (bucketname_ r) [name']) →
  (∀ prev, cumulativeSize_ r !! (j - 1)%nat = Some prev → prev < E) →
  E ≤ total_size_ r →
  ∀ idx st w tr,
  (lo ≤ idx < j)%nat → (length (cumulativeSize_ r) ≤ fuel + idx)%nat →
  cumulativeSize_ r !! idx = Some (rs_offset st) →
  rs_offset st + rs_to_read st = E →
  stable w →
  ∃ e buffer' s',
    ReadBytesInFile_next fuel r bak idx st (w, tr)
    = (Ret (MakeDriverFailureFromException e, set_offset r bak, buffer'), s').
Proof.
  intros Hwf Hname Hfails Hok Hreach Hend.
  pose proof (lookup_lt_Some _ _ _ Hname) as Hj. rewrite (wf_names r Hwf) in Hj.
  pose proof (wf_last r Hwf) as Hlast.
  pose proof (wf_bounds r _ _ Hwf Hlast) as Htotal.
  induction fuel as [|fuel IH]; intros idx st w tr Hidx Hfuel Hat Hsum Hw; [lia|].
  destruct (lookup_lt_is_Some_2 (cumulativeSize_ r) (j - 1)) as [last_before Hbefore]; [lia|].
  pose proof (Hreach _ Hbefore) as Hlt.
  pose proof (wf_mono r idx (j - 1) _ _ Hwf ltac:(lia) Hat Hbefore) as Hle.
  pose proof (wf_bounds r _ _ Hwf Hat) as Hob.
  simpl. rewrite bool_decide_eq_false_2 by lia.
  destruct (lookup_lt_is_Some_2 (cumulativeSize_ r) (S idx)) as [cur Hcur]; [lia|].
  destruct (lookup_lt_is_Some_2 (filenames_ r) (S idx)) as [name' Hname'];
    [rewrite (wf_names r Hwf); lia|].
  pose proof (wf_sorted r Hwf _ _ _ Hat Hcur) as Hsorted.
  pose proof (wf_bounds r _ _ Hwf Hcur) as Hcb.
  rewrite (bind_Ret _ _ _ _ _ (at_Some _ _ _ _ Hcur)).
  rewrite Nat.sub_0_r.
  rewrite (bind_Ret _ _ _ _ _ (at_Some _ _ _ _ Hat)).
  rewrite (bind_Ret _ _ _ _ _ (at_Some _ _ _ _ Hname')).
  rewrite sub64_id by (unfold in_int64, min_val, max_val in *; lia).
  destruct (decide (S idx = j)) as [Heq|Hne].
  - rewrite Heq, Hname in Hname'. injection Hname' as <-.
    destruct (read_range_and_update_throws (bucketname_ r) name (commonHeaderLength_ r)
                (rs_to_read st `min` (cur - rs_offset st)) st w tr Hfails Hw)
      as (e & s' & Hthrow).
    rewrite (bind_Ret _ _ _ _ _ Hthrow). by eexists e, _, _.
  - pose proof (wf_mono r (S idx) (j - 1) _ _ Hwf ltac:(lia) Hcur Hbefore) as Hcur_le.
    remember (rs_to_read st `min` (cur - rs_offset st)) as len eqn:Hlen.
    destruct (read_range_and_update_ok stable (bucketname_ r) [name'] name'
                (commonHeaderLength_ r) len st w tr
                (Hok (S idx) name' ltac:(lia) Hname') ltac:(by apply list_elem_of_singleton) Hw)
      as (buffer1 & w1 & tr1 & Hrun & Hw1).
    rewrite (bind_Ret _ _ _ _ _ (try_Ret _ _ _ _ Hrun)).
    rewrite (add64_id (rs_offset st) len) by (unfold in_int64, min_val, max_val in *; lia).
    rewrite (sub64_id (rs_to_read st) len) by (unfold in_int64, min_val, max_val in *; lia).
    apply IH; simpl; [lia|lia| |lia|done].
    rewrite Hcur. f_equal. lia.
Qed.

Lemma ReadBytesInFile_throws r buffer to_read (j : nat) (name : string) w tr :
  index_wf r → 0 ≤ offset_ r → offset_ r < total_size_ r →
  0 < to_read → to_read ≤ total_size_ r - offset_ r →
  (upper_bound (cumulativeSize_ r) (offset_ r) ≤ j)%nat →
  filenames_ r !! j = Some name → always_fails stable (bucketname_ r) name →
  never_fails stable (bucketname_ r)
    (take (j - upper_bound (cumulativeSize_ r) (offset_ r))
       (drop (upper_bound (cumulativeSize_ r) (offset_ r)) (filenames_ r))) →
  (∀ prev, (upper_bound (cumulativeSize_ r) (offset_ r) < j)%nat →
     cumulativeSize_ r !! (j - 1)%nat = Some prev → prev < offset_ r + to_read) →
  stable w →
  ∃ e buffer' s',
    ReadBytesInFile r buffer to_read (w, tr)
    = (Ret (MakeDriverFailureFromException e, r, buffer'), s').
Proof.
  intros Hwf Hoff Hlt Ht Hfit Hj Hname Hfails Hok Hreach Hw.
  pose proof (wf_last r Hwf) as Hlast.
  pose proof (wf_bounds r _ _ Hwf Hlast) as Htotal.
  pose proof (lookup_lt_Some _ _ _ Hname) as Hjn. rewrite (wf_names r Hwf) in Hjn.
  unfold ReadBytesInFile. revert Hj Hok Hreach. unfold upper_bound.
  destruct (list_find (λ y, offset_ r < y) (cumulativeSize_ r)) as [[idx cur]|] eqn:Hfind.
  2:{ intros. lia. }
  intros Hj Hok Hreach.
  apply list_find_Some in Hfind as (Hcur & Hocur & Hmin).
  pose proof (wf_bounds r _ _ Hwf Hcur) as Hcb.
  destruct (lookup_lt_is_Some_2 (filenames_ r) idx) as [name0 Hname0];
    [rewrite (wf_names r Hwf); lia|].
  rewrite (bind_Ret _ _ _ _ _ (at_Some _ _ _ _ Hcur)).
  assert (∃ file_start,
            (if bool_decide (idx = 0%nat) then ret (offset_ r)
             else prev <- at_ (cumulativeSize_ r) (idx - 1) ;;
                  ret (add64 (sub64 (offset_ r) prev) (commonHeaderLength_ r))) (w, tr)
            = (Ret file_start, (w, tr))) as [file_start Hfs].
  { case_bool_decide; [by eexists|].
    destruct (lookup_lt_is_Some_2 (cumulativeSize_ r) (idx - 1)) as [prev Hprev]; [lia|].
    rewrite (bind_Ret _ _ _ _ _ (at_Some _ _ _ _ Hprev)). by eexists. }
  rewrite (bind_Ret _ _ _ _ _ Hfs).
  rewrite (bind_Ret _ _ _ _ _ (at_Some _ _ _ _ Hname0)).
  rewrite sub64_id by (unfold in_int64, min_val, max_val in *; lia).
  set (st := {| rs_offset := offset_ r; rs_buffer_pos := 0; rs_to_read := to_read;
                rs_buffer := buffer |}).
  destruct (decide (idx = j)) as [Heq|Hne].
  - rewrite Heq, Hname in Hname0. injection Hname0 as <-.
    destruct (read_range_and_update_throws (bucketname_ r) name file_start
                (to_read `min` (cur - offset_ r)) st w tr Hfails Hw) as (e & s' & Hthrow).
    rewrite (bind_Ret _ _ _ _ _ Hthrow). unfold ret. rewrite set_offset_id.
    by eexists e, _, _.
  - assert (∀ i name', (idx ≤ i < j)%nat → filenames_ r !! i = Some name' →
              never_fails stable (bucketname_ r) [name']) as Hpoint.
    { intros i name' Hi Hi' name'' start len w0 Hin Hw0.
      apply list_elem_of_singleton in Hin as ->. apply Hok; [|done].
      apply (list_elem_of_lookup_2 _ (i - idx)).
      rewrite lookup_take_lt by lia. rewrite lookup_drop.
      by replace (idx + (i - idx))%nat with i by lia. }
    destruct (lookup_lt_is_Some_2 (cumulativeSize_ r) (j - 1)) as [before Hbefore]; [lia|].
    pose proof (Hreach _ ltac:(lia) Hbefore) as Hlast_lt.
    pose proof (wf_mono r idx (j - 1) _ _ Hwf ltac:(lia) Hcur Hbefore) as Hle.
    remember (to_read `min` (cur - offset_ r)) as len eqn:Hlen.
    destruct (read_range_and_update_ok stable (bucketname_ r) [name0] name0 file_start len st
                w tr (Hpoint idx name0 ltac:(lia) Hname0)
                ltac:(by apply list_elem_of_singleton) Hw)
      as (buffer1 & w1 & tr1 & Hrun & Hw1).
    rewrite (bind_Ret _ _ _ _ _ (try_Ret _ _ _ _ Hrun)). simpl.
    rewrite (add64_id (offset_ r) len) by (unfold in_int64, min_val, max_val in *; lia).
    rewrite (sub64_id to_read len) by (unfold in_int64, min_val, max_val in *; lia).
    destruct (ReadBytesInFile_next_throws r (offset_ r) idx j name (offset_ r + to_read)
                (length (cumulativeSize_ r)) Hwf Hname Hfails Hpoint
                ltac:(intros prev Hp; rewrite Hbefore in Hp; injection Hp as <-; lia)
                ltac:(lia) idx
                {| rs_offset := offset_ r + len; rs_buffer_pos := 0 + len;
                   rs_to_read := to_read - len; rs_buffer := buffer1 |} w1 tr1)
      as (e & buffer' & s' & Hrest); simpl; [lia|lia| |lia|done|].
    { rewrite Hcur. f_equal. lia. }
    rewrite Hrest, set_offset_id. by eexists e, _, _.
Qed.

(** C5: for every reader, whenever [driver_fread] returns [kBadSize] the
    registry of readers is the one of the call entry, so that the cursor has
    its entry value; and a transport failure during a read makes it return
    [kBadSize]: when the download from a part [j] fails, be it the first
    download of the read or the download from a later part of a read that
    spans parts, the parts before [j] having been transferred, the call
    returns [kBadSize] and logs the failure, the driver being otherwise the
    one of the call entry and the cursor of the reader having its entry
    value. *)
Theorem read_failure_restores_cursor (d : Driver) (buffer : list byte) (size count : Z)
    (stream : Handle) (pos : nat) (reader : Reader) (w : World) (tr : list Request) :
  bIsConnected d ≠ kFalse → stream ≠ nullptr →
  FindReader stream d = Some (pos, (stream, reader)) →
  0 < size → 0 < count → 0 ≤ offset_ reader → total_size_ reader ≤ max_val →
  (∀ ret d' ptr' s',
     driver_fread d (Some buffer) size count stream (w, tr) = (Ret (ret, d', ptr'), s') →
     ret = kBadSize →
     active_reader_handles d' = active_reader_handles d
     ∧ cursor d' stream = Some (offset_ reader))
  ∧ (∀ (j : nat) (name : string),
       index_wf reader → offset_ reader < total_size_ reader →
       size * count ≤ max_val - offset_ reader →
       (upper_bound (cumulativeSize_ reader) (offset_ reader) ≤ j)%nat →
       filenames_ reader !! j = Some name →
       (∀ prev, (upper_bound (cumulativeSize_ reader) (offset_ reader) < j)%nat →
          cumulativeSize_ reader !! (j - 1)%nat = Some prev →
          prev < offset_ reader
                 + Z.min (size * count) (total_size_ reader - offset_ reader)) →
       never_fails stable (bucketname_ reader)
         (take (j - upper_bound (cumulativeSize_ reader) (offset_ reader))
            (drop (upper_bound (cumulativeSize_ reader) (offset_ reader))
               (filenames_ reader))) →
       always_fails stable (bucketname_ reader) name →
       stable w →
       ∃ e buffer' s',
         driver_fread d (Some buffer) size count stream (w, tr)
         = (Ret (kBadSize,
                 LogBadResult (MakeDriverFailureFromException (T := Z) e)
                   "Error while reading from file." d,
                 Some buffer'), s')
         ∧ cursor (LogBadResult (MakeDriverFailureFromException (T := Z) e)
                     "Error while reading from file." d) stream
           = Some (offset_ reader)).
Proof.
  intros Hconn Hnull Hfind Hsize Hcount Hoff Htotal. split.
  - intros ret d' ptr' s' Hrun Hret.
    by apply (failed_read_keeps_the_readers d (Some buffer) size count stream pos stream
                reader (w, tr) ret d' ptr' s'); [lia|lia|..].
  - intros j name Hwf Hbefore Hfit Hj Hname Hreach Hok Hfails Hw.
    assert (0 < size * count) by nia.
    destruct (ReadBytesInFile_throws reader buffer
                (Z.min (size * count) (total_size_ reader - offset_ reader)) j name w tr
                Hwf Hoff Hbefore ltac:(lia) ltac:(lia) Hj Hname Hfails Hok Hreach Hw)
      as (e & buffer' & s' & Hrun).
    exists e, buffer', s'. split.
    + unfold driver_fread.
      rewrite (bool_decide_eq_false_2 (kFalse = bIsConnected d))
        by (intros Hk; by apply Hconn).
      rewrite (bool_decide_eq_false_2 (stream = nullptr)) by done.
      rewrite (bool_decide_eq_false_2 (0 = size)) by lia. rewrite Hfind.
      rewrite (bool_decide_eq_false_2 (0 = count)) by lia.
      pose proof (product_fits size count Hsize Hcount ltac:(lia)) as Hprod.
      rewrite Hprod. apply no_product_overflow in Hprod as [Hle ->]; [|lia..].
      rewrite (sub64_id max_val) by (unfold in_int64, min_val, max_val in *; lia).
      rewrite (bool_decide_eq_false_2 (offset_ reader > _)) by lia.
      rewrite (bool_decide_eq_false_2 (offset_ reader >= _)) by lia.
      fold (clamped (offset_ reader) (total_size_ reader) (size * count)).
      rewrite clamped_min by nia.
      rewrite (bind_Ret _ _ _ _ _ Hrun). cbn beta iota.
      assert (is_success (MakeDriverFailureFromException (T := Z) e) = false) as ->
        by (by destruct e).
      rewrite list_insert_id by (by apply FindHandle_Some in Hfind as (? & _)).
      by rewrite set_readers_id.
    + unfold cursor, resolve, LogBadResult. simpl. unfold FindReader in Hfind.
      by rewrite Hfind.
Qed.

End TransportFailure.

(** ** Header detection *)

Section Header.
Context {World : Type} `{BlobService World}.
Implicit Types s : World * list Request.

Variable stable : World → Prop.
Variables (bucket name : string) (c : list byte).

(** The blob holds the bytes [c] and every download from it succeeds. *)
Hypothesis Hblob : served stable bucket name c.
Hypothesis Hsize : byte_length c ≤ max_val.

Lemma download_block (bytes_read : nat) w tr :
  (bytes_read ≤ length c)%nat → stable w →
  ∃ w', download bucket name (Z.of_nat bytes_read) block_size (w, tr)
        = (Ret {| dl_data := take (Z.to_nat block_size) (drop bytes_read c);
                  dl_BlobSize := byte_length c |},
           (w', tr ++ [ReqDownloadTo bucket name (Z.of_nat bytes_read) block_size]))
      ∧ stable w'.
Proof.
  intros Hle Hw.
  destruct (Hblob (Z.of_nat bytes_read) block_size w) as (w' & Hdl & Hw');
    [unfold byte_length; lia | done | done |].
  exists w'. split; [|done]. unfold download, call. simpl. rewrite Hdl.
  do 3 f_equal. unfold slice. rewrite Nat2Z.id.
  destruct (decide (block_size ≤ Z.of_nat (length c) - Z.of_nat bytes_read)).
  - by rewrite Z.min_l by lia.
  - rewrite Z.min_r by lia. rewrite !take_ge; [done|rewrite length_drop; lia..].
Qed.

Lemma FindHeader_loop_found (k : nat) (fuel bytes_read : nat) w tr :
  first_newline_at c k →
  (bytes_read ≤ k)%nat → (k < bytes_read + fuel * Z.to_nat block_size)%nat → stable w →
  ∃ w' reqs,
    FindHeader_loop fuel bucket name (take bytes_read c) (Z.of_nat bytes_read) (w, tr)
    = (Ret (Some (take (S k) c)), (w', tr ++ reqs))
    ∧ Forall (block_request bucket name) reqs ∧ stable w'.
Proof.
  intros [Hk Hfirst]. revert bytes_read w tr.
  pose proof (lookup_lt_Some _ _ _ Hk) as Hklt.
  assert (0 < block_size) as Hpos by done.
  induction fuel as [|fuel IH]; intros bytes_read w tr Hle Hfuel Hw; [lia|].
  simpl FindHeader_loop.
  destruct (download_block bytes_read w tr) as (w1 & Hdl & Hw1); [lia|done|].
  rewrite (bind_Ret _ _ _ _ _ Hdl). cbv beta. cbn [dl_data dl_BlobSize].
  set (data := take (Z.to_nat block_size) (drop bytes_read c)).
  destruct (decide (k < bytes_read + Z.to_nat block_size)%nat) as [Hin|Hout].
  - assert (list_find (λ b, b = newline) data = Some ((k - bytes_read)%nat, newline)) as ->.
    { apply list_find_Some. split_and!; [|done|].
      - unfold data. rewrite lookup_take_lt by lia. rewrite lookup_drop.
        by replace (bytes_read + (k - bytes_read))%nat with k by lia.
      - intros j y Hy Hj ->. unfold data in Hy.
        apply lookup_take_Some in Hy as [Hy _]. rewrite lookup_drop in Hy.
        by apply (Hfirst (bytes_read + j)%nat ltac:(lia)). }
    exists w1, [ReqDownloadTo bucket name (Z.of_nat bytes_read) block_size].
    split; [|split; [|done]].
    + unfold ret. do 3 f_equal. unfold data.
      rewrite take_take. replace (S (k - bytes_read) `min` Z.to_nat block_size)%nat
        with (S (k - bytes_read)) by lia.
      rewrite <- (take_drop bytes_read (take (S k) c)). f_equal.
      * rewrite take_take. f_equal. lia.
      * rewrite take_drop_commute. do 2 f_equal. lia.
    + apply Forall_singleton. by eexists.
  - assert (list_find (λ b, b = newline) data = None) as ->.
    { apply list_find_None, Forall_forall. intros y Hy ->.
      apply list_elem_of_lookup_1 in Hy as [j Hj]. unfold data in Hj.
      apply lookup_take_Some in Hj as [Hj Hjlt]. rewrite lookup_drop in Hj.
      by apply (Hfirst (bytes_read + j)%nat ltac:(lia)). }
    assert (length data = Z.to_nat block_size) as Hlen
      by (unfold data; rewrite length_take, length_drop; lia).
    rewrite Hlen.
    rewrite (add64_id (Z.of_nat bytes_read)) by
      (unfold in_int64, byte_length, min_val, max_val in *; lia).
    rewrite bool_decide_eq_false_2 by (unfold byte_length; lia).
    replace (Z.of_nat bytes_read + Z.of_nat (Z.to_nat block_size))
      with (Z.of_nat (bytes_read + Z.to_nat block_size)) by lia.
    replace (take bytes_read c ++ data) with (take (bytes_read + Z.to_nat block_size) c)
      by (unfold data; by rewrite take_take_drop).
    destruct (IH (bytes_read + Z.to_nat block_size)%nat w1
                (tr ++ [ReqDownloadTo bucket name (Z.of_nat bytes_read) block_size]))
      as (w' & reqs & Hrun & Hreqs & Hw'); [lia|lia|done|].
    exists w', (ReqDownloadTo bucket name (Z.of_nat bytes_read) block_size :: reqs).
    split; [|split; [|done]].
    + rewrite Hrun. by rewrite <- (assoc_L (++)).
    + apply Forall_cons. split; [by eexists|done].
Qed.

Lemma FindHeader_loop_none (fuel bytes_read : nat) w tr :
  newline ∉ c →
  (bytes_read ≤ length c)%nat → (length c < bytes_read + fuel * Z.to_nat block_size)%nat →
  stable w →
  ∃ w' reqs,
    FindHeader_loop fuel bucket name (take bytes_read c) (Z.of_nat bytes_read) (w, tr)
    = (Ret None, (w', tr ++ reqs))
    ∧ Forall (block_request bucket name) reqs ∧ stable w'.
Proof.
  intros Hnone. revert bytes_read w tr.
  assert (0 < block_size) as Hpos by done.
  induction fuel as [|fuel IH]; intros bytes_read w tr Hle Hfuel Hw; [lia|].
  simpl FindHeader_loop.
  destruct (download_block bytes_read w tr) as (w1 & Hdl & Hw1); [lia|done|].
  rewrite (bind_Ret _ _ _ _ _ Hdl). cbv beta. cbn [dl_data dl_BlobSize].
  set (data := take (Z.to_nat block_size) (drop bytes_read c)).
  assert (list_find (λ b, b = newline) data = None) as ->.
  { apply list_find_None, Forall_forall. intros y Hy ->. apply Hnone.
    unfold data in Hy. apply list_elem_of_lookup_1 in Hy as [j Hj].
    apply lookup_take_Some in Hj as [Hj _]. rewrite lookup_drop in Hj.
    by eapply list_elem_of_lookup_2. }
  assert (length data = (Z.to_nat block_size `min` (length c - bytes_read))%nat) as Hlen
    by (unfold data; by rewrite length_take, length_drop).
  rewrite (add64_id (Z.of_nat bytes_read)) by
    (unfold in_int64, byte_length, min_val, max_val in *; lia).
  case_bool_decide as Hex.
  - exists w1, [ReqDownloadTo bucket name (Z.of_nat bytes_read) block_size].
    split; [done|]. split; [|done]. apply Forall_singleton. by eexists.
  - unfold byte_length in Hex.
    assert (length data = Z.to_nat block_size) as Hfull by lia.
    rewrite Hfull.
    replace (Z.of_nat bytes_read + Z.of_nat (Z.to_nat block_size))
      with (Z.of_nat (bytes_read + Z.to_nat block_size)) by lia.
    replace (take bytes_read c ++ data) with (take (bytes_read + Z.to_nat block_size) c)
      by (unfold data; by rewrite take_take_drop).
    destruct (IH (bytes_read + Z.to_nat block_size)%nat w1
                (tr ++ [ReqDownloadTo bucket name (Z.of_nat bytes_read) block_size]))
      as (w' & reqs & Hrun & Hreqs & Hw'); [lia|lia|done|].
    exists w', (ReqDownloadTo bucket name (Z.of_nat bytes_read) block_size :: reqs).
    split; [|split; [|done]].
    + rewrite Hrun. by rewrite <- (assoc_L (++)).
    + apply Forall_cons. split; [by eexists|done].
Qed.

End Header.

(** ** Header comparison across the parts *)

Section Comparison.
Context {World : Type} `{BlobService World}.
Implicit Types s : World * list Request.

Variable stable : World → Prop.
Variables (bucket : string) (header : list byte).

Lemma IsSameHeader_served item c part_buffer w tr :
  lists stable bucket item c → length part_buffer = length header → stable w →
  ∃ w', IsSameHeader bucket item header part_buffer (w, tr)
        = (Ret (bool_decide (blit (take (length header) c) 0 part_buffer = header),
                blit (take (length header) c) 0 part_buffer),
           (w', tr ++ [header_read bucket header (Name item)]))
      ∧ stable w'.
Proof.
  intros [_ Hserved] Hlen Hw.
  destruct (Hserved 0 (byte_length header) w) as (w' & Hdl & Hw');
    [unfold byte_length; lia..|done|].
  exists w'. split; [|done].
  unfold IsSameHeader, ReadPart, download, call, bind, ret. simpl.
  rewrite Hlen. fold (byte_length header). rewrite Hdl. simpl.
  replace (slice 0 (byte_length header) c) with (take (length header) c); [done|].
  unfold slice, byte_length. change (Z.to_nat 0) with 0%nat. rewrite drop_0, Z.sub_0_r.
  destruct (decide (length header ≤ length c)%nat).
  - by rewrite Z.min_l, Nat2Z.id by lia.
  - rewrite Z.min_r, Nat2Z.id by lia. rewrite !take_ge; [done|lia..].
Qed.

Lemma GetFileSize_next_different items total_size part_buffer s :
  GetFileSize_next bucket header items total_size false part_buffer s
  = (Ret (foldl add64 total_size (BlobSize <$> items), false), s).
Proof. revert total_size. induction items as [|item items IH]; intros; simpl; [done|]. apply IH. Qed.

Lemma foldl_add64 (total_size : Z) (sizes : list Z) :
  0 ≤ total_size → Forall (λ x, 0 ≤ x) sizes → total_size + foldr Z.add 0 sizes ≤ max_val →
  foldl add64 total_size sizes = total_size + foldr Z.add 0 sizes.
Proof.
  revert total_size. induction sizes as [|x xs IH]; intros total_size Ht Hpos Hmax; simpl in *.
  - lia.
  - apply Forall_cons in Hpos as [Hx Hxs].
    assert (0 ≤ foldr Z.add 0 xs).
    { clear -Hxs. induction Hxs; simpl; lia. }
    rewrite add64_id by (unfold in_int64, min_val, max_val in *; lia).
    rewrite IH; [lia|lia|done|lia].
Qed.

(** When every part begins with the header, every comparison succeeds. *)
Lemma GetFileSize_next_same items cs total_size part_buffer w tr :
  Forall2 (lists stable bucket) items cs → Forall (λ c, take (length header) c = header) cs →
  length part_buffer = length header → stable w →
  ∃ w', GetFileSize_next bucket header items total_size true part_buffer (w, tr)
        = (Ret (foldl add64 total_size (BlobSize <$> items), true),
           (w', tr ++ (header_read bucket header ∘ Name <$> items)))
      ∧ stable w'.
Proof.
  intros Hlists. revert total_size part_buffer w tr.
  induction Hlists as [|item c items cs Hitem _ IH]; intros total_size part_buffer w tr Hall Hlen Hw.
  - exists w. simpl. by rewrite app_nil_r.
  - apply Forall_cons in Hall as [Hc Hall]. simpl.
    destruct (IsSameHeader_served item c part_buffer w tr Hitem Hlen Hw) as (w1 & Hrun & Hw1).
    rewrite (bind_Ret _ _ _ _ _ Hrun). simpl.
    assert (blit (take (length header) c) 0 part_buffer = header) as Hblit.
    { unfold blit. simpl. rewrite Hc, drop_ge by lia. by rewrite app_nil_r. }
    rewrite Hblit, bool_decide_eq_true_2 by done.
    destruct (IH (add64 total_size (BlobSize item)) header w1
                (tr ++ [header_read bucket header (Name item)]) Hall eq_refl Hw1) as (w' & Hrest & Hw').
    exists w'. split; [|done]. rewrite Hrest. by rewrite <- (assoc_L (++)).
Qed.

(** [MakeReaderPtr] runs the comparisons of [GetFileSize] and keeps the
    names and the cumulative sizes. *)
Lemma MakeReaderPtr_next_as_GetFileSize_next items filenames cumulativeSize back
    same_headers part_buffer s :
  last cumulativeSize = Some back →
  MakeReaderPtr_next bucket header items filenames cumulativeSize same_headers part_buffer s
  = match GetFileSize_next bucket header items back same_headers part_buffer s with
    | (Ret (_, same_headers'), s') =>
        (Ret (filenames ++ (Name <$> items),
              cumulativeSize ++ cumulative_wrapped back (BlobSize <$> items),
              same_headers'), s')
    | (Throw e, s') => (Throw e, s')
    | (Stop f, s') => (Stop f, s')
    end.
Proof.
  revert filenames cumulativeSize back same_headers part_buffer s.
  induction items as [|item items IH];
    intros filenames cumulativeSize back same_headers part_buffer s Hback; simpl.
  - unfold ret. by rewrite !app_nil_r.
  - rewrite Hback. unfold bind at 1. unfold ret at 1.
    destruct same_headers.
    + unfold bind. destruct (IsSameHeader _ _ _ _ s) as [[[same' buf']|e|f] s1]; [|done..].
      rewrite (IH _ _ (add64 back (BlobSize item))) by (by rewrite last_snoc).
      simpl. destruct (GetFileSize_next _ _ _ _ _ _ _) as [[[? ?]|?|?] ?]; [|done..].
      by rewrite <- !(assoc_L (++)).
    + rewrite (IH _ _ (add64 back (BlobSize item))) by (by rewrite last_snoc).
      destruct (GetFileSize_next _ _ _ _ _ _ _) as [[[? ?]|?|?] ?]; [|done..].
      by rewrite <- !(assoc_L (++)).
Qed.

End Comparison.

Lemma cumulative_wrapped_id (previous : Z) (sizes : list Z) :
  0 ≤ previous → Forall (λ x, 0 ≤ x) sizes → previous + foldr Z.add 0 sizes ≤ max_val →
  cumulative_wrapped previous sizes = cumulative previous sizes.
Proof.
  revert previous. induction sizes as [|x xs IH]; intros previous Hp Hpos Hmax; simpl in *.
  - done.
  - apply Forall_cons in Hpos as [Hx Hxs].
    assert (0 ≤ foldr Z.add 0 xs) by (clear -Hxs; induction Hxs; simpl; lia).
    rewrite add64_id by (unfold in_int64, min_val, max_val in *; lia).
    rewrite IH; [done|lia|done|lia].
Qed.

(** ** Sizes of the elided parts *)

Lemma sum_byte_length (cs : list (list byte)) :
  foldr Z.add 0 (byte_length <$> cs) = byte_length (concat cs).
Proof.
  induction cs as [|c cs IH]; csimpl; [done|]. rewrite IH. unfold byte_length.
  rewrite length_app. lia.
Qed.

Lemma byte_length_nonneg (cs : list (list byte)) : Forall (λ x, 0 ≤ x) (byte_length <$> cs).
Proof. apply Forall_fmap, Forall_true. intros c. unfold byte_length. simpl. lia. Qed.

Lemma dropped_prefix_length (L : nat) (cs : list (list byte)) (i : nat) :
  Forall (λ c, L ≤ length c)%nat cs → (i ≤ length cs)%nat →
  Z.of_nat (length (concat (take i (drop L <$> cs))))
  = Z.of_nat (length (concat (take i cs))) - Z.of_nat i * Z.of_nat L.
Proof.
  intros Hall. revert i. induction Hall as [|c cs Hc _ IH]; intros i Hi.
  - simpl in Hi. replace i with 0%nat by lia. done.
  - destruct i as [|i]; [done|]. csimpl in *. rewrite !length_app, length_drop.
    rewrite !Nat2Z.inj_add, IH by lia. lia.
Qed.

Lemma elide_headers_logical (L : nat) (c0 : list byte) (cs : list (list byte)) :
  Forall (λ c, L ≤ length c)%nat cs → byte_length (concat (c0 :: cs)) ≤ max_val →
  elide_headers (Z.of_nat L) (cumulative 0 (byte_length <$> c0 :: cs))
  = cumulative_logical_sizes L (c0 :: cs).
Proof.
  intros Hall Hmax. apply list_eq. intros i. unfold elide_headers, cumulative_logical_sizes.
  rewrite list_lookup_imap.
  destruct (decide (i < length (c0 :: cs))%nat) as [Hi|Hi].
  - rewrite !cumulative_lookup by (rewrite ?logical_parts_length; done). simpl.
    destruct i as [|i]; [done|]. rewrite bool_decide_eq_false_2 by done.
    f_equal. unfold byte_length in *. simpl in *. rewrite !length_app in *.
    pose proof (dropped_prefix_length L cs (S i) Hall ltac:(lia)) as Hlen.
    assert (length (concat (take (S i) cs)) ≤ length (concat cs))%nat as Hle.
    { rewrite <- (take_drop (S i) cs) at 2. rewrite concat_app, length_app. lia. }
    unfold mulU64, wrapU64.
    rewrite Z.mod_small by (unfold max_val in *; lia).
    rewrite wrap64_id by (unfold in_int64, min_val, max_val in *; lia).
    rewrite sub64_id by (unfold in_int64, min_val, max_val in *; lia).
    lia.
  - rewrite !lookup_ge_None_2; [done| |].
    + rewrite cumulative_length, length_fmap, logical_parts_length. lia.
    + rewrite cumulative_length, length_fmap. lia.
Qed.

Lemma elided_length (L : nat) (c0 : list byte) (cs : list (list byte)) :
  Forall (λ c, L ≤ length c)%nat cs →
  byte_length (elided_stream L (c0 :: cs))
  = byte_length (concat (c0 :: cs)) - Z.of_nat (length cs) * Z.of_nat L.
Proof.
  intros Hall. unfold elided_stream, byte_length. simpl. rewrite !length_app.
  pose proof (dropped_prefix_length L cs (length cs) Hall ltac:(lia)) as Hlen.
  rewrite !take_ge in Hlen by (rewrite ?length_fmap; lia). lia.
Qed.

(** ** Index construction over a listing *)

Section IndexConstruction.
Context {World : Type} `{BlobService World}.
Implicit Types s : World * list Request.

Variable stable : World → Prop.
Variables (fuel : nat) (bucket object : string) (pos : nat).
Variables (first : BlobItem) (next : list BlobItem) (c0 : list byte) (cs : list (list byte)).
Variables (w : World) (tr : list Request) (w1 : World) (tr1 : list Request).

(** The pattern has a special character and the listing of the container
    keeps the blobs [first :: next], served with the bytes [c0 :: cs]. *)
Hypothesis Hpattern : FindPatternSpecialChar object = Some pos.
Hypothesis Hlisting :
  FilterList bucket object pos (w, tr) = (Ret (DriverSuccess (first :: next)), (w1, tr1)).
Hypothesis Hstable : stable w1.
Hypothesis Hmulti : next ≠ [].
Hypothesis Hparts : Forall2 (lists stable bucket) (first :: next) (c0 :: cs).
Hypothesis Hmax : byte_length (concat (c0 :: cs)) ≤ max_val.
Hypothesis Hfuel : (length c0 < fuel)%nat.

Lemma first_served : served stable bucket (Name first) c0.
Proof. apply Forall2_cons in Hparts as [[_ ?] _]. done. Qed.

Lemma first_size : BlobSize first = byte_length c0.
Proof. apply Forall2_cons in Hparts as [[? _] _]. done. Qed.

Lemma next_parts : Forall2 (lists stable bucket) next cs.
Proof. by apply Forall2_cons in Hparts as [_ ?]. Qed.

Lemma lists_sizes (items : list BlobItem) (contents : list (list byte)) :
  Forall2 (lists stable bucket) items contents → BlobSize <$> items = byte_length <$> contents.
Proof.
  induction 1 as [|item c items contents [Hs _] _ IH]; csimpl; [done|]. by rewrite Hs, IH.
Qed.

Lemma next_sizes : BlobSize <$> next = byte_length <$> cs.
Proof. apply lists_sizes, next_parts. Qed.

Lemma first_size_max : byte_length c0 ≤ max_val.
Proof. unfold byte_length in *. simpl in Hmax. rewrite length_app in Hmax. lia. Qed.

Lemma fuel_blocks : (length c0 < 0 + fuel * Z.to_nat block_size)%nat.
Proof. assert (0 < block_size) by done. nia. Qed.

Lemma raw_total :
  foldl add64 (BlobSize first) (BlobSize <$> next) = byte_length (concat (c0 :: cs)).
Proof.
  rewrite first_size, next_sizes. rewrite foldl_add64.
  - rewrite sum_byte_length. unfold byte_length. simpl. rewrite length_app. lia.
  - unfold byte_length. lia.
  - apply byte_length_nonneg.
  - rewrite sum_byte_length. unfold byte_length in *. simpl in Hmax.
    rewrite length_app in Hmax. lia.
Qed.

(** The two entry points up to the header search. *)
Lemma GetFileSize_multi :
  GetFileSize fuel (mkParseUriResult BLOB bucket object) (w, tr)
  = (r <- try_ (
       maybe_header <- FindHeader fuel bucket (Name first) ;;
       match maybe_header with
       | None =>
           ret (MakeDriverHttpFailure HttpStatusCode_None
                  "Error while reading header of first file.")
       | Some header =>
           r <- GetFileSize_next bucket header next (BlobSize first) true
                  (replicate (length header) "000"%byte) ;;
           ret (MakeDriverSuccess
                  (if r.2
                   then sub64 r.1 (wrap64 (mulU64 (Z.of_nat (length (first :: next)) - 1)
                                                  (Z.of_nat (length header))))
                   else r.1))
       end) ;;
     match r with
     | inr res => ret res
     | inl e => ret (MakeDriverFailureFromException e)
     end) (w1, tr1).
Proof.
  unfold GetFileSize. simpl. rewrite Hpattern. rewrite (bind_Ret _ _ _ _ _ Hlisting).
  destruct next as [|second rest]; [done|]. unfold bind, try_.
  destruct (FindHeader _ _ _ _) as [[[header|]|e|f] s1]; [|done..].
  destruct (GetFileSize_next _ _ _ _ _ _ _) as [[[total same]|e|f] s2]; done.
Qed.

Lemma MakeReaderPtr_multi :
  MakeReaderPtr fuel bucket object (w, tr)
  = (r <- try_ (
       maybe_header <- FindHeader fuel bucket (Name first) ;;
       match maybe_header with
       | None =>
           ret (MakeDriverHttpFailure HttpStatusCode_None
                  "Error while reading header of first file.")
       | Some header =>
           r <- MakeReaderPtr_next bucket header next [Name first] [BlobSize first] true
                  (replicate (length header) "000"%byte) ;;
           ret (MakeDriverSuccess
                  (make_Reader bucket object 0 (Z.of_nat (length header)) r.1.1
                     (if r.2 then elide_headers (Z.of_nat (length header)) r.1.2
                      else r.1.2)))
       end) ;;
     match r with
     | inr res => ret res
     | inl e => ret (MakeDriverFailureFromException e)
     end) (w1, tr1).
Proof.
  unfold MakeReaderPtr. rewrite Hpattern. rewrite (bind_Ret _ _ _ _ _ Hlisting).
  destruct next as [|second rest]; [done|]. unfold bind, try_.
  destruct (FindHeader _ _ _ _) as [[[header|]|e|f] s1]; [|done..].
  destruct (MakeReaderPtr_next _ _ _ _ _ _ _ _) as [[[[names cumul] same]|e|f] s2]; done.
Qed.

(** C1 (amended): when the first of several parts holds no newline byte,
    the size query and the construction of the index both fail with the
    error "Error while reading header of first file."; no size and no index
    are produced. *)
Theorem headerless_first_part_fails :
  newline ∉ c0 →
  ∃ s' s'',
    GetFileSize fuel (mkParseUriResult BLOB bucket object) (w, tr)
    = (Ret (DriverFailure HttpStatusCode_None "Error while reading header of first file."), s')
    ∧ MakeReaderPtr fuel bucket object (w, tr)
      = (Ret (DriverFailure HttpStatusCode_None "Error while reading header of first file."),
         s'').
Proof.
  intros Hnone.
  destruct (FindHeader_loop_none stable bucket (Name first) c0 first_served first_size_max
              fuel 0 w1 tr1 Hnone ltac:(lia) fuel_blocks Hstable)
    as (w' & reqs & Hrun & _ & _).
  exists (w', tr1 ++ reqs), (w', tr1 ++ reqs).
  rewrite GetFileSize_multi, MakeReaderPtr_multi.
  change (FindHeader_loop fuel bucket (Name first) (take 0 c0) (Z.of_nat 0))
    with (FindHeader fuel bucket (Name first)) in Hrun.
  split.
  - unfold bind at 1. unfold try_. by rewrite (bind_Ret _ _ _ _ _ Hrun).
  - unfold bind at 1. unfold try_. by rewrite (bind_Ret _ _ _ _ _ Hrun).
Qed.

Lemma header_found (k : nat) :
  first_newline_at c0 k →
  ∃ w' hreqs,
    FindHeader fuel bucket (Name first) (w1, tr1)
    = (Ret (Some (take (S k) c0)), (w', tr1 ++ hreqs))
    ∧ Forall (block_request bucket (Name first)) hreqs ∧ stable w'
    ∧ length (take (S k) c0) = S k.
Proof.
  intros Hk. pose proof (lookup_lt_Some _ _ _ (proj1 Hk)) as Hlt.
  pose proof fuel_blocks as Hblocks.
  destruct (FindHeader_loop_found stable bucket (Name first) c0 first_served first_size_max
              k fuel 0 w1 tr1 Hk ltac:(lia) ltac:(lia) Hstable)
    as (w' & reqs & Hrun & Hreqs & Hw').
  exists w', reqs. split_and!; [done..|]. rewrite length_take. lia.
Qed.

Lemma cumulative_sizes_of_parts :
  BlobSize first :: cumulative_wrapped (BlobSize first) (BlobSize <$> next)
  = cumulative 0 (byte_length <$> c0 :: cs).
Proof.
  rewrite first_size, next_sizes. rewrite cumulative_wrapped_id.
  - done.
  - unfold byte_length. lia.
  - apply byte_length_nonneg.
  - rewrite sum_byte_length. unfold byte_length in *. simpl in Hmax.
    rewrite length_app in Hmax. lia.
Qed.

End IndexConstruction.

(** ** Writers *)

Section Writers.
Context {World : Type} `{BlobService World}.
Implicit Types s : World * list Request.

(** C8: in append mode, when the store answers that the part exists
    already (nothing created, store unchanged), [MakeWriterPtr] succeeds, the
    store is as before and the only request made is the conditional
    creation; in write mode, whenever the creation answers that the part
    was not created, [MakeWriterPtr] fails with the status of that answer,
    and [RegisterWriter] then registers no handle. *)
Theorem writer_open_modes (d : Driver) (bucket object : string) (w : World) (tr : list Request) :
  (∀ response, CreateIfNotExists bucket object w = (Ret response, w) →
     Created response = false →
     MakeWriterPtr bucket object kAppend (w, tr)
     = (Ret (DriverSuccess (mkWriter bucket object)),
        (w, tr ++ [ReqCreateIfNotExists bucket object]))
     ∧ RegisterWriter d bucket object kAppend (w, tr)
       = (Ret (DriverSuccess (allocate (live_handles d)),
               set_writers (active_writer_handles d
                            ++ [(allocate (live_handles d), mkWriter bucket object)]) d),
          (w, tr ++ [ReqCreateIfNotExists bucket object])))
  ∧ (∀ response w', Create bucket object w = (Ret response, w') →
     Created response = false →
     MakeWriterPtr bucket object kWrite (w, tr)
     = (Ret (DriverFailure (raw_StatusCode response) (raw_ReasonPhrase response)),
        (w', tr ++ [ReqCreate bucket object]))
     ∧ RegisterWriter d bucket object kWrite (w, tr)
       = (Ret (DriverFailure (raw_StatusCode response) (raw_ReasonPhrase response), d),
          (w', tr ++ [ReqCreate bucket object]))).
Proof.
  split.
  - intros response Hcall Hcreated.
    assert (MakeWriterPtr bucket object kAppend (w, tr)
            = (Ret (DriverSuccess (mkWriter bucket object)),
               (w, tr ++ [ReqCreateIfNotExists bucket object]))) as Hmk.
    { unfold MakeWriterPtr, bind, try_, call, ret. simpl. by rewrite Hcall. }
    split; [done|]. unfold RegisterWriter. by rewrite (bind_Ret _ _ _ _ _ Hmk).
  - intros response w' Hcall Hcreated.
    assert (MakeWriterPtr bucket object kWrite (w, tr)
            = (Ret (DriverFailure (raw_StatusCode response) (raw_ReasonPhrase response)),
               (w', tr ++ [ReqCreate bucket object]))) as Hmk.
    { unfold MakeWriterPtr, bind, try_, call, ret. simpl. rewrite Hcall. simpl.
      by rewrite Hcreated. }
    split; [done|]. unfold RegisterWriter. by rewrite (bind_Ret _ _ _ _ _ Hmk).
Qed.


End Writers.

(** ** The in-memory store honours the contracts *)

Lemma mem_served (store : Mem.Store) (bucket name : string) (j : nat) (b : Mem.Blob) :
  Mem.lookup bucket name store = Some (j, b) → Mem.reachable b = true →
  served (λ w, w = store) bucket name (Mem.content b).
Proof.
  intros Hlookup Hreach start len w _ _ ->. exists store. split; [|done].
  simpl. unfold Mem.download_to. by rewrite Hlookup, Hreach.
Qed.

Lemma mem_never_fails (store : Mem.Store) (bucket : string) (names : list string) :
  (∀ name, name ∈ names →
     ∃ j b, Mem.lookup bucket name store = Some (j, b) ∧ Mem.reachable b = true) →
  never_fails (λ w, w = store) bucket names.
Proof.
  intros Hall name start len w Hin ->. destruct (Hall name Hin) as (j & b & Hlookup & Hreach).
  eexists _, store. split; [|done]. simpl. unfold Mem.download_to.
  by rewrite Hlookup, Hreach.
Qed.

Lemma mem_always_fails (store : Mem.Store) (bucket name : string) (j : nat) (b : Mem.Blob) :
  Mem.lookup bucket name store = Some (j, b) → Mem.reachable b = false →
  always_fails (λ w, w = store) bucket name.
Proof.
  intros Hlookup Hreach start len w ->. eexists _, store.
  simpl. unfold Mem.download_to. by rewrite Hlookup, Hreach.
Qed.

Lemma two_parts_serves :
  serves (λ w, w = two_parts) "data" ["part-0"; "part-1"] [part_a; part_b].
Proof.
  intros i name c Hname Hc. destruct i as [|[|i]]; simpl in *; simplify_eq.
  - by apply (mem_served two_parts "data" "part-0" 0 (Mem.mkBlob "data" "part-0" part_a false true)).
  - by apply (mem_served two_parts "data" "part-1" 1 (Mem.mkBlob "data" "part-1" part_b false true)).
Qed.

Lemma two_parts_lists :
  Forall2 (lists (λ w, w = two_parts) "data")
    [mkBlobItem "part-0" 100 false; mkBlobItem "part-1" 100 false] [part_a; part_b].
Proof.
  constructor; [|constructor; [|constructor]]; (split; [done|]).
  - by apply (mem_served two_parts "data" "part-0" 0 (Mem.mkBlob "data" "part-0" part_a false true)).
  - by apply (mem_served two_parts "data" "part-1" 1 (Mem.mkBlob "data" "part-1" part_b false true)).
Qed.

Lemma mixed_parts_lists :
  Forall2 (lists (λ w, w = mixed_parts) "data")
    [mkBlobItem "part-0" 100 false; mkBlobItem "part-1" 100 false] [part_a; part_c].
Proof.
  constructor; [|constructor; [|constructor]]; (split; [done|]).
  - by apply (mem_served mixed_parts "data" "part-0" 0
                (Mem.mkBlob "data" "part-0" part_a false true)).
  - by apply (mem_served mixed_parts "data" "part-1" 1
                (Mem.mkBlob "data" "part-1" part_c false true)).
Qed.

Lemma headerless_parts_lists :
  Forall2 (lists (λ w, w = headerless_parts) "data")
    [mkBlobItem "part-0" 7 false; mkBlobItem "part-1" 7 false] [payload 32 7; payload 64 7].
Proof.
  constructor; [|constructor; [|constructor]]; (split; [done|]).
  - by apply (mem_served headerless_parts "data" "part-0" 0
                (Mem.mkBlob "data" "part-0" (payload 32 7) false true)).
  - by apply (mem_served headerless_parts "data" "part-1" 1
                (Mem.mkBlob "data" "part-1" (payload 64 7) false true)).
Qed.

Lemma short_parts_lists :
  Forall2 (lists (λ w, w = short_parts) "data")
    [mkBlobItem "part-0" 6 false; mkBlobItem "part-1" 4 false; mkBlobItem "part-2" 2 false]
    [short_0; short_1; short_2].
Proof.
  constructor; [|constructor; [|constructor; [|constructor]]]; (split; [done|]).
  - by apply (mem_served short_parts "data" "part-0" 0
                (Mem.mkBlob "data" "part-0" short_0 false true)).
  - by apply (mem_served short_parts "data" "part-1" 1
                (Mem.mkBlob "data" "part-1" short_1 false true)).
  - by apply (mem_served short_parts "data" "part-2" 2
                (Mem.mkBlob "data" "part-2" short_2 false true)).
Qed.

Lemma part_a_first_newline : first_newline_at part_a 9.
Proof.
  split; [done|]. intros j Hj.
  do 9 (destruct j as [|j]; [done|]). lia.
Qed.

(** ** The claims on concrete inputs *)

(** C1, as stated, fails: with two parts whose first holds no newline, the
    size query and the construction of the index fail instead of returning
    the sum of the raw sizes, 14. *)
Lemma headerless_parts_are_rejected :
  (GetFileSize 8 (mkParseUriResult BLOB "data" "part-*") (headerless_parts, [])).1
    = Ret (DriverFailure HttpStatusCode_None "Error while reading header of first file.")
  ∧ (MakeReaderPtr 8 "data" "part-*" (headerless_parts, [])).1
    = Ret (DriverFailure HttpStatusCode_None "Error while reading header of first file.")
  ∧ (GetFileSize 8 (mkParseUriResult BLOB "data" "part-*") (headerless_parts, [])).1
    ≠ Ret (DriverSuccess 14).
Proof. split_and!; [by vm_compute..|]. vm_compute. discriminate. Qed.

Lemma headerless_first_part_fails_witness :
  ∃ s' s'',
    GetFileSize 8 (mkParseUriResult BLOB "data" "part-*") (headerless_parts, [])
    = (Ret (DriverFailure HttpStatusCode_None "Error while reading header of first file."), s')
    ∧ MakeReaderPtr 8 "data" "part-*" (headerless_parts, [])
      = (Ret (DriverFailure HttpStatusCode_None "Error while reading header of first file."),
         s'').
Proof.
  apply (headerless_first_part_fails (λ w, w = headerless_parts) 8 "data" "part-*" 5
           (mkBlobItem "part-0" 7 false) [mkBlobItem "part-1" 7 false]
           (payload 32 7) [payload 64 7] headerless_parts [] headerless_parts
           [ReqListBlobs "data" "part-"]).
  - reflexivity.
  - reflexivity.
  - reflexivity.
  - discriminate.
  - exact headerless_parts_lists.
  - vm_compute. discriminate.
  - vm_compute. lia.
  - apply (bool_decide_unpack _). by vm_compute.
Defined.

(** The example of the spec: two parts of 100 raw bytes with a shared header
    of 10 bytes; 20 bytes at logical offset 95 are the last 5 bytes of part 0
    and 15 bytes of part 1 from its physical offset 10. *)
Example spanning_read_example :
  ReadBytesInFile (two_part_reader 95) (zeros 20) 20 (two_parts, [])
  = (Ret (DriverSuccess 0, two_part_reader 115,
          drop 95 part_a ++ take 15 (drop 10 part_b)),
     (two_parts, [ReqDownloadTo "data" "part-0" 95 5; ReqDownloadTo "data" "part-1" 10 15])).
Proof. by vm_compute. Qed.

Lemma spanning_read_is_elided_concatenation_witness :
  ∃ w' idx name prev len reqs,
    ReadBytesInFile (two_part_reader 95) (zeros 20) (Z.of_nat 20) (two_parts, [])
    = (Ret (DriverSuccess 0, set_offset (two_part_reader 95) (Z.of_nat (95 + 20)),
            take 20 (drop 95 (elided_stream 10 [part_a; part_b])) ++ drop 20 (zeros 20)),
       (w', [] ++ ReqDownloadTo "data" name
                    (if bool_decide (idx = 0%nat) then Z.of_nat 95
                     else Z.of_nat 95 - prev + Z.of_nat 10) len :: reqs))
    ∧ ["part-0"; "part-1"] !! idx = Some name
    ∧ (idx ≠ 0%nat → cumulativeSize_ (two_part_reader 95) !! (idx - 1)%nat = Some prev)
    ∧ Forall (starts_after_header "data" 10) reqs
    ∧ w' = two_parts.
Proof.
  apply (spanning_read_is_elided_concatenation (λ w, w = two_parts) "data"
           ["part-0"; "part-1"] [part_a; part_b] 10).
  - reflexivity.
  - intros i c Hc. destruct i as [|i]; simpl in Hc; simplify_eq. vm_compute. lia.
  - vm_compute. discriminate.
  - exact two_parts_serves.
  - by vm_compute.
  - reflexivity.
  - lia.
  - vm_compute. lia.
  - vm_compute. lia.
  - reflexivity.
Defined.

(** The sizes of the spec on the store of the example: 190 with the shared
    header, 200 when the second part begins with another line. *)
Example shared_header_example :
  (GetFileSize 101 (mkParseUriResult BLOB "data" "part-*") (two_parts, [])).1
    = Ret (DriverSuccess 190)
  ∧ (GetFileSize 101 (mkParseUriResult BLOB "data" "part-*") (mixed_parts, [])).1
    = Ret (DriverSuccess 200).
Proof. by vm_compute. Qed.

(** C3: the claim fails on three parts with the first line [ab] of 3 bytes,
    newline included, the third of which holds the two letters only.  The
    third part differs from the header within its first 3 bytes, since it
    has no third byte, and the sum of the raw sizes is 12; yet the size query
    returns [12 - 2 * 3 = 6], and the index of the reader has the cumulative
    sizes [6; 7; 6] and the total 6: the comparison takes the third part for
    a part with the header, because the buffer it compares still holds the
    bytes read from the second part. *)
Theorem short_later_part_is_elided :
  first_newline_at short_0 2
  ∧ take 3 short_1 = take 3 short_0
  ∧ take 3 short_2 ≠ take 3 short_0
  ∧ byte_length (concat [short_0; short_1; short_2]) = 12
  ∧ (GetFileSize 7 (mkParseUriResult BLOB "data" "part-*") (short_parts, [])).1
    = Ret (DriverSuccess 6)
  ∧ (MakeReaderPtr 7 "data" "part-*" (short_parts, [])).1
    = Ret (DriverSuccess
             (make_Reader "data" "part-*" 0 3 ["part-0"; "part-1"; "part-2"] [6; 7; 6]))
  ∧ total_size_ (make_Reader "data" "part-*" 0 3 ["part-0"; "part-1"; "part-2"] [6; 7; 6])
    = 6.
Proof.
  split_and!; try by vm_compute.
  split; [done|]. intros j Hj. do 2 (destruct j as [|j]; [done|]). lia.
Qed.

Lemma two_part_reader_wf (offset : Z) : index_wf (two_part_reader offset).
Proof.
  split.
  - done.
  - done.
  - done.
  - intros i a b Ha Hb. destruct i as [|[|i]]; simpl in *; simplify_eq. lia.
  - repeat (constructor; [by vm_compute|]). constructor.
Qed.

Lemma two_parts_never_fail :
  never_fails (λ w, w = two_parts) "data" ["part-0"; "part-1"].
Proof.
  apply mem_never_fails. intros name Hin.
  apply elem_of_cons in Hin as [->|Hin]; [by eexists _, _|].
  apply elem_of_cons in Hin as [->|Hin]; [by eexists _, _|].
  by apply elem_of_nil in Hin.
Qed.

(** C4, as stated, fails: with the cursor at 5 of 190 bytes, a request of
    [max_int64] bytes is refused by the overflow guard on the sum of cursor
    and length, although the cursor is before the end. *)
Lemma huge_request_before_end_fails :
  driver_fread (read_driver 5) (Some (zeros 20)) max_val 1 16 (two_parts, [])
  = (Ret (kBadSize,
          LogError "signed overflow prevented on reading attempt" (read_driver 5),
          Some (zeros 20)),
     (two_parts, []))
  ∧ cursor (read_driver 5) 16 = Some 5
  ∧ total_size_ (two_part_reader 5) = 190.
Proof. by vm_compute. Qed.

(** A request of 20 bytes with 10 bytes left returns 10. *)
Example clamped_read_example :
  (driver_fread (read_driver 180) (Some (zeros 20)) 1 20 16 (two_parts, [])).1
  = Ret (10,
         set_readers [(16, two_part_reader 190)] (read_driver 180),
         Some (take 10 (drop 90 part_b) ++ zeros 10)).
Proof. by vm_compute. Qed.

(** On parts whose first lines differ, the index keeps the raw cumulative
    sizes together with the length of the first line: a read of 100 bytes at
    the cursor 100 asks the second part for 100 bytes from its offset 10,
    stores the 90 bytes that are there, and returns 100. *)
Example unequal_first_lines_example :
  (MakeReaderPtr 101 "data" "part-*" (mixed_parts, [])).1
  = Ret (DriverSuccess (mixed_reader 0))
  ∧ driver_fread
      {| bIsConnected := kTrue; lastError := "";
         active_reader_handles := [(16, mixed_reader 100)]; active_writer_handles := [] |}
      (Some (zeros 100)) 1 100 16 (mixed_parts, [])
    = (Ret (100,
            {| bIsConnected := kTrue; lastError := "";
               active_reader_handles := [(16, mixed_reader 200)];
               active_writer_handles := [] |},
            Some (drop 10 part_c ++ zeros 10)),
       (mixed_parts, [ReqDownloadTo "data" "part-1" 10 100])).
Proof. by vm_compute. Qed.

(** A download that fails on the second part, after the 5 bytes of the first
    part have reached the buffer: the call fails and the cursor is still 95. *)
Example failing_second_part_example :
  driver_fread (read_driver 95) (Some (zeros 20)) 1 20 16 (flaky_parts, [])
  = (Ret (kBadSize,
          LogError ("Error while reading from file." +:+ ": "
                    +:+ "The server encountered an internal error.") (read_driver 95),
          Some (drop 95 part_a ++ zeros 15)),
     (flaky_parts, [ReqDownloadTo "data" "part-0" 95 5; ReqDownloadTo "data" "part-1" 10 15])).
Proof. by vm_compute. Qed.

Lemma read_failure_restores_cursor_witness :
  ∃ e buffer' s',
    driver_fread (read_driver 95) (Some (zeros 20)) 1 20 16 (flaky_parts, [])
    = (Ret (kBadSize,
            LogBadResult (MakeDriverFailureFromException (T := Z) e)
              "Error while reading from file." (read_driver 95),
            Some buffer'), s')
    ∧ cursor (LogBadResult (MakeDriverFailureFromException (T := Z) e)
                "Error while reading from file." (read_driver 95)) 16
      = Some (offset_ (two_part_reader 95)).
Proof.
  refine (proj2 (read_failure_restores_cursor (λ w, w = flaky_parts) (read_driver 95)
                   (zeros 20) 1 20 16 0 (two_part_reader 95) flaky_parts []
                   _ _ eq_refl _ _ _ _)
            1%nat "part-1" (two_part_reader_wf 95) _ _ _ eq_refl _ _ _ eq_refl).
  - vm_compute. discriminate.
  - vm_compute. discriminate.
  - lia.
  - lia.
  - vm_compute. discriminate.
  - vm_compute. discriminate.
  - vm_compute. reflexivity.
  - vm_compute. discriminate.
  - vm_compute. lia.
  - intros prev _ Hprev. vm_compute in Hprev. injection Hprev as <-. vm_compute. reflexivity.
  - apply mem_never_fails. intros name Hin. vm_compute in Hin.
    apply list_elem_of_singleton in Hin as ->. by eexists _, _.
  - by apply (mem_always_fails flaky_parts "data" "part-1" 1
                (Mem.mkBlob "data" "part-1" part_b false false)).
Defined.

(** ** Writers on concrete stores *)

Definition log_store : Mem.Store := [Mem.mkBlob "data" "log" (Mem.bytes "abc") false true].

Lemma writer_open_modes_witness :
  (MakeWriterPtr "data" "log" kAppend (log_store, [])
   = (Ret (DriverSuccess (mkWriter "data" "log")),
      (log_store, [] ++ [ReqCreateIfNotExists "data" "log"]))
   ∧ RegisterWriter idle_driver "data" "log" kAppend (log_store, [])
     = (Ret (DriverSuccess (allocate (live_handles idle_driver)),
             set_writers (active_writer_handles idle_driver
                          ++ [(allocate (live_handles idle_driver), mkWriter "data" "log")])
               idle_driver),
        (log_store, [] ++ [ReqCreateIfNotExists "data" "log"])))
  ∧ (MakeWriterPtr "data" "log" kWrite (log_store, [])
     = (Ret (DriverFailure 409 "The specified blob already exists."),
        (log_store, [] ++ [ReqCreate "data" "log"]))
     ∧ RegisterWriter idle_driver "data" "log" kWrite (log_store, [])
       = (Ret (DriverFailure 409 "The specified blob already exists.", idle_driver),
          (log_store, [] ++ [ReqCreate "data" "log"]))).
Proof.
  destruct (writer_open_modes idle_driver "data" "log" log_store []) as [Happend Hwrite].
  split.
  - apply (Happend (mkCreateResult false 409 "The specified blob already exists."));
      reflexivity.
  - apply (Hwrite (mkCreateResult false 409 "The specified blob already exists.") log_store);
      reflexivity.
Defined.


(** With the parts [part-0] and [part-1] in the store, the writer is bound to
    [part-1]; with no part under the pattern, nothing is registered. *)
Example append_to_last_part_example :
  (driver_fopen 0 idle_driver (Some "http://127.0.0.1:10000/devstoreaccount1/data/part-*")
     "a" (two_parts, [])).1
  = Ret (1, set_writers [(1, mkWriter "data" "part-1")] idle_driver)
  ∧ (driver_fopen 0 idle_driver (Some "http://127.0.0.1:10000/devstoreaccount1/data/none-*")
       "a" (two_parts, [])).1
    = Ret (nullptr,
           LogError "Error while opening stream in append mode.: No blob matching pattern in container."
             idle_driver).
Proof. by vm_compute. Qed.

(** * Further properties of the driver *)

(** ** Strings *)

Lemma append_cons c s t : String c s +:+ t = String c (s +:+ t).
Proof. reflexivity. Qed.

Lemma append_nil_l t : "" +:+ t = t.
Proof. reflexivity. Qed.

Lemma append_assoc s t u : (s +:+ t) +:+ u = s +:+ t +:+ u.
Proof. induction s as [|c s IH]; [done|]. by rewrite !append_cons, IH. Qed.

Lemma length_append s t : String.length (s +:+ t) = (String.length s + String.length t)%nat.
Proof. induction s as [|c s IH]; [done|]. rewrite append_cons. simpl. by rewrite IH. Qed.

Lemma substring_full s : String.substring 0 (String.length s) s = s.
Proof. induction s as [|c s IH]; [done|]. simpl. by rewrite IH. Qed.

Lemma substring_append_l s t : String.substring 0 (String.length s) (s +:+ t) = s.
Proof.
  induction s as [|c s IH]; [by destruct t|]. rewrite append_cons. simpl. by rewrite IH.
Qed.

Lemma substring_append_r s t n m :
  String.substring (String.length s + n) m (s +:+ t) = String.substring n m t.
Proof. induction s as [|c s IH]; [done|]. rewrite append_cons. simpl. by rewrite IH. Qed.

Lemma substring_split s i :
  (i ≤ String.length s)%nat →
  s = String.substring 0 i s +:+ String.substring i (String.length s - i) s.
Proof.
  revert i. induction s as [|c s IH]; intros i Hi; simpl in *.
  - by destruct i.
  - destruct i as [|i]; simpl.
    + rewrite append_nil_l. by rewrite substring_full.
    + rewrite append_cons. f_equal. apply IH. lia.
Qed.

Lemma substring_length s n m :
  (n + m ≤ String.length s)%nat → String.length (String.substring n m s) = m.
Proof.
  revert n m. induction s as [|c s IH]; intros n m Hle; simpl in *.
  - destruct n, m; simpl in *; lia.
  - destruct n as [|n]; [destruct m as [|m]|]; simpl; [done| |].
    + f_equal. apply (IH 0%nat). lia.
    + apply IH. lia.
Qed.

Lemma get_substring_S s i c :
  String.get i s = Some c →
  String.substring i (String.length s - i) s
  = String c (String.substring (S i) (String.length s - S i) s).
Proof.
  revert i. induction s as [|c' s IH]; intros i Hget; [by destruct i|].
  destruct i as [|i]; simpl in *.
  - simplify_eq. rewrite Nat.sub_0_r. by rewrite substring_full.
  - by apply IH.
Qed.

Lemma get_lt s i c : String.get i s = Some c → (i < String.length s)%nat.
Proof.
  revert i. induction s as [|c' s IH]; intros i Hget; [by destruct i|].
  destruct i as [|i]; simpl in *; [lia|]. apply IH in Hget. lia.
Qed.

Lemma get_append_l s t i :
  (i < String.length s)%nat → String.get i (s +:+ t) = String.get i s.
Proof. intros. symmetry. by apply append_correct1. Qed.

Lemma get_append_r s t i :
  String.get (String.length s + i) (s +:+ t) = String.get i t.
Proof. rewrite Nat.add_comm. symmetry. apply append_correct2. Qed.

(** [find] of a character. *)
Lemma prefix_char c s :
  String.prefix (String c "") s = true ↔ String.get 0 s = Some c.
Proof.
  etrans; [apply prefix_correct|]. destruct s as [|c' s]; simpl; [done|].
  assert (String.substring 0 0 s = "") as -> by by destruct s.
  split; congruence.
Qed.

Lemma index_char_spec c s : ∀ n,
  match String.index n (String c "") s with
  | Some i => (n ≤ i)%nat ∧ String.get i s = Some c
              ∧ ∀ j, (n ≤ j < i)%nat → String.get j s ≠ Some c
  | None => ∀ j, (n ≤ j)%nat → String.get j s ≠ Some c
  end.
Proof.
  induction s as [|c' s IH]; intros n.
  - destruct n; simpl; intros j _; by destruct j.
  - destruct n as [|n]; cbn [String.index].
    + destruct (String.prefix (String c "") (String c' s)) eqn:Hp.
      * apply prefix_char in Hp. split_and!; [lia|done|intros; lia].
      * assert (String.get 0 (String c' s) ≠ Some c) as Hne.
        { intros Hget. apply prefix_char in Hget. congruence. }
        specialize (IH 0%nat). destruct (String.index 0 (String c "") s) as [i|].
        -- destruct IH as (_ & Hget & Hmin). split_and!; [lia|done|].
           intros [|j] Hj; [done|]. apply Hmin. lia.
        -- intros [|j] Hj; [done|]. apply IH. lia.
    + specialize (IH n). destruct (String.index n (String c "") s) as [i|].
      * destruct IH as (Hle & Hget & Hmin). split_and!; [lia|done|].
        intros [|j] Hj; [lia|]. apply Hmin. lia.
      * intros [|j] Hj; [lia|]. apply IH. lia.
Qed.

Lemma string_find_found s c (i : nat) (from : nat) :
  (from ≤ i)%nat → String.get i s = Some c →
  (∀ j, (from ≤ j < i)%nat → String.get j s ≠ Some c) →
  string_find s c (Z.of_nat from) = Z.of_nat i.
Proof.
  intros Hle Hget Hmin. unfold string_find. rewrite Nat2Z.id.
  pose proof (index_char_spec c s from) as Hspec.
  destruct (String.index from (String c "") s) as [i'|].
  - destruct Hspec as (Hle' & Hget' & Hmin'). f_equal.
    destruct (Nat.lt_trichotomy i i') as [Hlt|[->|Hgt]]; [|done|].
    + exfalso. by apply (Hmin' i).
    + exfalso. by apply (Hmin i').
  - exfalso. by apply (Hspec i).
Qed.

Lemma string_find_none s c (from : nat) :
  (∀ j, (from ≤ j)%nat → String.get j s ≠ Some c) →
  string_find s c (Z.of_nat from) = npos.
Proof.
  intros Hnone. unfold string_find. rewrite Nat2Z.id.
  pose proof (index_char_spec c s from) as Hspec.
  destruct (String.index from (String c "") s) as [i'|]; [|done].
  destruct Hspec as (Hle' & Hget' & Hmin'). exfalso. by apply (Hnone i').
Qed.

Lemma string_find_inv s c (from : nat) :
  Z.of_nat (String.length s) < npos →
  (string_find s c (Z.of_nat from) = npos
   ∧ ∀ j, (from ≤ j)%nat → String.get j s ≠ Some c)
  ∨ (∃ i, string_find s c (Z.of_nat from) = Z.of_nat i ∧ Z.of_nat i < npos
       ∧ (from ≤ i)%nat ∧ String.get i s = Some c
       ∧ ∀ j, (from ≤ j < i)%nat → String.get j s ≠ Some c).
Proof.
  intros Hlen. unfold string_find. rewrite Nat2Z.id.
  pose proof (index_char_spec c s from) as Hspec.
  destruct (String.index from (String c "") s) as [i|]; [right|by left].
  destruct Hspec as (Hle & Hget & Hmin). exists i. split_and!; [done| |done..].
  apply get_lt in Hget. lia.
Qed.

(** [compare_suffix]. *)
Lemma compare_suffix_true full suffix :
  compare_suffix full suffix = true ↔ ∃ pre, full = pre +:+ suffix.
Proof.
  unfold compare_suffix. rewrite andb_true_iff, !bool_decide_eq_true. split.
  - intros [Hle Hsub].
    exists (String.substring 0 (String.length full - String.length suffix) full).
    etrans; [apply (substring_split full (String.length full - String.length suffix)); lia|].
    f_equal. rewrite <- Hsub at 3. f_equal. lia.
  - intros [pre ->]. rewrite length_append. split; [lia|].
    replace (String.length pre + String.length suffix - String.length suffix)%nat
      with (String.length pre + 0)%nat by lia.
    rewrite substring_append_r. apply substring_full.
Qed.

Lemma compare_suffix_same_length pre suffix suffix' :
  String.length suffix = String.length suffix' → suffix ≠ suffix' →
  compare_suffix (pre +:+ suffix) suffix' = false.
Proof.
  intros Hlen Hne. apply not_true_is_false. intros [pre' Heq]%compare_suffix_true.
  apply Hne. assert (String.length pre = String.length pre') as Hpre.
  { apply (f_equal String.length) in Heq. rewrite !length_append in Heq. lia. }
  clear Hlen Hne. revert pre' Heq Hpre.
  induction pre as [|c pre IH]; intros [|c' pre'] Heq Hpre; simpl in Hpre; try lia.
  - done.
  - rewrite !append_cons in Heq. simplify_eq. eapply IH; [done|lia].
Qed.

(** ** The overflow guard and the special characters of a pattern *)

(** X1: for a positive [size] and a positive [count], the guard
    [WillSizeCountProductOverflow] answers false exactly when the product
    [size * count], taken in the integers, is at most the largest
    [long long]; when it answers false, the [size_t] product converted to
    [long long] is that product. *)
Theorem product_guard_is_exact (size count : Z) :
  0 < size → 0 < count →
  (WillSizeCountProductOverflow size count = false ↔ size * count ≤ max_val)
  ∧ (WillSizeCountProductOverflow size count = false →
     wrap64 (mulU64 size count) = size * count).
Proof.
  intros Hs Hc. split; [split|].
  - intros Hno. by apply no_product_overflow.
  - by apply product_fits.
  - intros Hno. by apply no_product_overflow.
Qed.

Lemma product_guard_is_exact_witness :
  (WillSizeCountProductOverflow (2 ^ 32) (2 ^ 31) = false ↔ 2 ^ 32 * 2 ^ 31 ≤ max_val)
  ∧ (WillSizeCountProductOverflow (2 ^ 32) (2 ^ 31) = false →
     wrap64 (mulU64 (2 ^ 32) (2 ^ 31)) = 2 ^ 32 * 2 ^ 31).
Proof. apply (product_guard_is_exact (2 ^ 32) (2 ^ 31)); done. Defined.

Lemma special_from_S prev c rest i :
  special_from prev (String c rest) (S i)
  ↔ special_from (bool_decide (c = "\"%char)) rest i.
Proof.
  unfold special_from. simpl. split; intros (c' & Hget & Hsp & Hprev); exists c'.
  - split_and!; [done..|]. destruct i as [|i]; simpl in *.
    + apply bool_decide_eq_false. congruence.
    + done.
  - split_and!; [done..|]. destruct i as [|i]; simpl in *.
    + apply bool_decide_eq_false in Hprev. congruence.
    + done.
Qed.

Lemma FindPatternSpecialChar_from_spec pattern : ∀ prev n,
  match FindPatternSpecialChar_from prev n pattern with
  | Some m => ∃ i, m = (n + i)%nat ∧ special_from prev pattern i
                   ∧ ∀ j, (j < i)%nat → ¬ special_from prev pattern j
  | None => ∀ j, ¬ special_from prev pattern j
  end.
Proof.
  induction pattern as [|c rest IH]; intros prev n; simpl.
  - intros j (c & Hget & _). by destruct j.
  - destruct (is_special_char c && negb prev) eqn:Hc.
    + apply andb_true_iff in Hc as [Hsp Hprev]. apply negb_true_iff in Hprev.
      exists 0%nat. split_and!; [lia| |intros; lia]. by exists c.
    + specialize (IH (bool_decide (c = "\"%char)) (S n)).
      assert (¬ special_from prev (String c rest) 0) as H0.
      { intros (c' & Hget & Hsp & Hprev). simpl in Hget. simplify_eq.
        rewrite Hsp in Hc. by subst. }
      destruct (FindPatternSpecialChar_from _ _ rest) as [m|].
      * destruct IH as (i & -> & Hi & Hmin). exists (S i). split_and!; [lia| |].
        -- by apply special_from_S.
        -- intros [|j] Hj; [done|]. rewrite special_from_S. apply Hmin. lia.
      * intros [|j]; [done|]. rewrite special_from_S. apply IH.
Qed.

Lemma special_from_false pattern i :
  special_from false pattern i ↔ unescaped_special_at pattern i.
Proof.
  unfold special_from, unescaped_special_at.
  split; intros (c & Hget & Hsp & Hprev); exists c; (split_and!; [done..|]).
  - destruct i as [|i]; [by left|right]. simpl. by rewrite Nat.sub_0_r.
  - destruct i as [|i]; [done|]. destruct Hprev as [|Hprev]; [done|].
    simpl in Hprev. by rewrite Nat.sub_0_r in Hprev.
Qed.

(** X2: [FindPatternSpecialChar] returns the position [i] exactly when [i] is
    the first position of the pattern that holds one of the characters
    [* ? ! [ ^] with no backslash just before it, and returns nothing exactly
    when the pattern has no such position. *)
Theorem FindPatternSpecialChar_first_unescaped (pattern : string) :
  (∀ i, FindPatternSpecialChar pattern = Some i
        ↔ unescaped_special_at pattern i
          ∧ ∀ j, (j < i)%nat → ¬ unescaped_special_at pattern j)
  ∧ (FindPatternSpecialChar pattern = None ↔ ∀ j, ¬ unescaped_special_at pattern j).
Proof.
  unfold FindPatternSpecialChar.
  pose proof (FindPatternSpecialChar_from_spec pattern false 0) as Hspec.
  destruct (FindPatternSpecialChar_from false 0 pattern) as [m|].
  - destruct Hspec as (i & -> & Hi & Hmin). simpl. split.
    + intros i'. split.
      * intros [= <-]. split; [by apply special_from_false|].
        intros j Hj. rewrite <- special_from_false. by apply Hmin.
      * intros [Hi' Hmin']. f_equal.
        destruct (Nat.lt_trichotomy i i') as [Hlt|[->|Hgt]]; [|done|].
        -- exfalso. apply (Hmin' i Hlt). by apply special_from_false.
        -- exfalso. apply (Hmin i' Hgt). by apply special_from_false.
    + split; [done|]. intros Hnone. exfalso. apply (Hnone i). by apply special_from_false.
  - split.
    + intros i. split; [done|]. intros [Hi _]. exfalso. apply (Hspec i).
      by apply special_from_false.
    + split; [|done]. intros _ j. rewrite <- special_from_false. apply Hspec.
Qed.

(** ** Locators *)

Lemma no_slash_get s i : no_slash s → String.get i s ≠ Some "/"%char.
Proof.
  unfold no_slash. intros Hs. pose proof (index_char_spec "/" s 0) as Hspec.
  rewrite Hs in Hspec. apply Hspec. lia.
Qed.

Lemma get_no_slash s : (∀ i, String.get i s ≠ Some "/"%char) → no_slash s.
Proof.
  unfold no_slash. intros Hs. pose proof (index_char_spec "/" s 0) as Hspec.
  destruct (String.index 0 "/" s) as [i|]; [|done].
  destruct Hspec as (_ & Hget & _). by destruct (Hs i).
Qed.

Lemma slash_after pre b rest :
  no_slash b →
  string_find (pre +:+ b +:+ String "/" rest) "/" (Z.of_nat (String.length pre))
  = Z.of_nat (String.length pre + String.length b).
Proof.
  intros Hb. apply string_find_found; [lia| |].
  - rewrite get_append_r. rewrite <- (Nat.add_0_r (String.length b)).
    by rewrite get_append_r.
  - intros j Hj. replace j with (String.length pre + (j - String.length pre))%nat by lia.
    rewrite get_append_r, get_append_l by lia. by apply no_slash_get.
Qed.

Lemma substr_between pre b rest :
  substr (pre +:+ b +:+ rest) (Z.of_nat (String.length pre))
    (Z.of_nat (String.length pre + String.length b) - Z.of_nat (String.length pre)) = b.
Proof.
  unfold substr. rewrite Nat2Z.id.
  replace (Z.to_nat _) with (String.length b) by lia.
  rewrite <- (Nat.add_0_r (String.length pre)). rewrite substring_append_r.
  apply substring_append_l.
Qed.

Lemma substr_from_after pre rest :
  substr_from (pre +:+ String "/" rest) (Z.of_nat (String.length pre) + 1) = rest.
Proof.
  unfold substr_from. rewrite length_append. simpl.
  replace (Z.to_nat _) with (String.length pre + 1)%nat by lia.
  rewrite substring_append_r. simpl.
  replace (_ - _)%nat with (String.length rest) by lia. apply substring_full.
Qed.

Section LocatorProperties.
Context {World : Type} `{BlobService World}.

Lemma valid_scheme_test uri :
  valid_scheme uri →
  bool_decide (Url_GetScheme uri ≠ "https") && bool_decide (Url_GetScheme uri ≠ "http") = false.
Proof.
  intros [Hs|Hs]; rewrite Hs.
  - by rewrite (bool_decide_eq_false_2 ("https" ≠ "https")) by (by intros ?).
  - rewrite (bool_decide_eq_false_2 ("http" ≠ "http")) by (by intros ?).
    apply andb_false_r.
Qed.

Lemma ParseAzureUri_production_path (uri container blob : string) :
  valid_scheme uri →
  compare_suffix (Url_GetHost uri) ".core.windows.net" = true →
  Url_GetPath uri = container +:+ "/" +:+ blob →
  no_slash container →
  Z.of_nat (String.length (Url_GetPath uri)) < npos →
  ParseAzureUri uri
  = DriverSuccess {| service := host_service (Url_GetHost uri);
                     bucket := container; object := blob |}.
Proof.
  intros Hscheme Hhost Hpath Hc Hlen.
  assert (string_find (Url_GetPath uri) "/" 0 = Z.of_nat (String.length container)) as H1.
  { rewrite Hpath. apply (slash_after "" container blob Hc). }
  assert (substr (Url_GetPath uri) 0 (Z.of_nat (String.length container) - 0) = container)
    as H3.
  { rewrite Hpath. apply (substr_between "" container ("/" +:+ blob)). }
  assert (substr_from (Url_GetPath uri) (Z.of_nat (String.length container) + 1) = blob) as H4.
  { rewrite Hpath. apply (substr_from_after container blob). }
  assert (Z.of_nat (String.length container) ≠ npos).
  { rewrite Hpath, length_append in Hlen. lia. }
  unfold ParseAzureUri, host_service.
  rewrite (valid_scheme_test _ Hscheme), Hhost, H1.
  destruct (compare_suffix _ ".blob.core.windows.net").
  - rewrite bool_decide_eq_false_2 by done. by rewrite H3, H4.
  - destruct (compare_suffix _ ".file.core.windows.net").
    + rewrite bool_decide_eq_false_2 by done. by rewrite H3, H4.
    + rewrite bool_decide_eq_false_2 by done. by rewrite H3, H4.
Qed.

Lemma ParseAzureUri_production (uri account suffix container blob : string) (svc : Service) :
  valid_scheme uri →
  (suffix = ".blob.core.windows.net" ∧ svc = BLOB)
  ∨ (suffix = ".file.core.windows.net" ∧ svc = SHARE) →
  Url_GetHost uri = account +:+ suffix →
  Url_GetPath uri = container +:+ "/" +:+ blob →
  no_slash container →
  Z.of_nat (String.length (Url_GetPath uri)) < npos →
  ParseAzureUri uri
  = DriverSuccess {| service := svc; bucket := container; object := blob |}.
Proof.
  intros Hscheme Hsvc Hhost Hpath Hc Hlen.
  rewrite (ParseAzureUri_production_path uri container blob) by first
    [ done
    | rewrite Hhost; apply compare_suffix_true; destruct Hsvc as [[-> _]|[-> _]];
      [exists (account +:+ ".blob")|exists (account +:+ ".file")]; by rewrite append_assoc ].
  do 2 f_equal. unfold host_service. rewrite Hhost.
  destruct Hsvc as [[-> ->]|[-> ->]].
  - assert (compare_suffix (account +:+ ".blob.core.windows.net") ".blob.core.windows.net"
            = true) as -> by (apply compare_suffix_true; by eexists).
    done.
  - rewrite compare_suffix_same_length by done.
    assert (compare_suffix (account +:+ ".file.core.windows.net") ".file.core.windows.net"
            = true) as -> by (apply compare_suffix_true; by eexists).
    done.
Qed.

(** Emulator form. *)
Lemma ParseAzureUri_emulator_path (uri account container blob : string) :
  valid_scheme uri →
  compare_suffix (Url_GetHost uri) ".core.windows.net" = false →
  Url_GetPath uri = account +:+ "/" +:+ container +:+ "/" +:+ blob →
  no_slash account → no_slash container →
  Z.of_nat (String.length (Url_GetPath uri)) < npos →
  ParseAzureUri uri
  = DriverSuccess {| service := BLOB; bucket := container; object := blob |}.
Proof.
  intros Hscheme Hhost Hpath Ha Hc Hlen.
  assert (string_find (Url_GetPath uri) "/" 0 = Z.of_nat (String.length account)) as H1.
  { rewrite Hpath. apply (slash_after "" account (container +:+ "/" +:+ blob) Ha). }
  assert (string_find (Url_GetPath uri) "/" (Z.of_nat (String.length (account +:+ "/")))
          = Z.of_nat (String.length (account +:+ "/") + String.length container)) as H2.
  { rewrite Hpath. rewrite <- (slash_after (account +:+ "/") container blob Hc).
    f_equal. by rewrite append_assoc. }
  assert (substr (Url_GetPath uri) (Z.of_nat (String.length (account +:+ "/")))
            (Z.of_nat (String.length (account +:+ "/") + String.length container)
             - Z.of_nat (String.length (account +:+ "/"))) = container) as H3.
  { rewrite Hpath.
    etrans; [|apply (substr_between (account +:+ "/") container ("/" +:+ blob))].
    f_equal. by rewrite append_assoc. }
  assert (substr_from (Url_GetPath uri)
            (Z.of_nat (String.length (account +:+ "/") + String.length container) + 1)
          = blob) as H4.
  { rewrite Hpath.
    etrans; [|apply (substr_from_after ((account +:+ "/") +:+ container) blob)].
    f_equal; [by rewrite !append_assoc|]. rewrite (length_append (account +:+ "/")). lia. }
  assert (wrapU64 (Z.of_nat (String.length account) + 1)
          = Z.of_nat (String.length (account +:+ "/"))) as Hwrap.
  { rewrite length_append. simpl. unfold wrapU64. rewrite Z.mod_small; [lia|].
    rewrite Hpath, length_append in Hlen. unfold npos, size_max in Hlen. lia. }
  assert (Z.of_nat (String.length (account +:+ "/") + String.length container) ≠ npos).
  { rewrite Hpath, !length_append in Hlen. rewrite length_append. simpl in *. lia. }
  unfold ParseAzureUri.
  rewrite (valid_scheme_test _ Hscheme), Hhost, H1, Hwrap, H2.
  rewrite bool_decide_eq_false_2 by done. by rewrite H3, H4.
Qed.

Lemma ParseAzureUri_emulator (uri account container blob : string) :
  valid_scheme uri →
  compare_suffix (Url_GetHost uri) ".core.windows.net" = false →
  Url_GetPath uri = account +:+ "/" +:+ container +:+ "/" +:+ blob →
  no_slash account → no_slash container →
  Z.of_nat (String.length (Url_GetPath uri)) < npos →
  ParseAzureUri uri
  = DriverSuccess {| service := BLOB; bucket := container; object := blob |}.
Proof. apply ParseAzureUri_emulator_path. Qed.

(** X3: a locator with the scheme [http] or [https] is accepted in two forms.
    When its host is an account name followed by [.blob.core.windows.net] (or
    [.file.core.windows.net]) and its path is [container/blob] with no slash
    in the container, it parses to the service BLOB (or SHARE), the container
    as bucket and the rest of the path, slashes included, as object.  When its
    host does not end with [.core.windows.net] it is read as a locator of the
    storage emulator: the first segment of the path is the account and is
    dropped, the second is the bucket, the rest is the object, and the service
    is BLOB. *)
Theorem ParseAzureUri_accepts (uri : string) :
  valid_scheme uri → Z.of_nat (String.length (Url_GetPath uri)) < npos →
  (∀ account suffix container blob svc,
     (suffix = ".blob.core.windows.net" ∧ svc = BLOB)
     ∨ (suffix = ".file.core.windows.net" ∧ svc = SHARE) →
     Url_GetHost uri = account +:+ suffix →
     Url_GetPath uri = container +:+ "/" +:+ blob → no_slash container →
     ParseAzureUri uri
     = DriverSuccess {| service := svc; bucket := container; object := blob |})
  ∧ (∀ account container blob,
       compare_suffix (Url_GetHost uri) ".core.windows.net" = false →
       Url_GetPath uri = account +:+ "/" +:+ container +:+ "/" +:+ blob →
       no_slash account → no_slash container →
       ParseAzureUri uri
       = DriverSuccess {| service := BLOB; bucket := container; object := blob |}).
Proof.
  intros Hscheme Hlen. split.
  - intros account suffix container blob svc Hsuffix Hhost Hpath Hcontainer.
    by apply (ParseAzureUri_production uri account suffix container blob svc).
  - intros account container blob Hhost Hpath Haccount Hcontainer.
    by apply (ParseAzureUri_emulator uri account container blob).
Qed.

Lemma split_at_slash (s : string) :
  no_slash s ∨ ∃ a t, s = a +:+ "/" +:+ t ∧ no_slash a.
Proof.
  pose proof (index_char_spec "/" s 0) as Hspec.
  destruct (String.index 0 "/" s) as [i|] eqn:Hi; [right|by left].
  destruct Hspec as (_ & Hget & Hmin).
  exists (String.substring 0 i s),
         (String.substring (S i) (String.length s - S i) s). split.
  - pose proof (get_lt _ _ _ Hget).
    etrans; [apply (substring_split s i); lia|]. f_equal. by apply get_substring_S.
  - apply get_no_slash. intros j.
    destruct (decide (j < i)%nat).
    + rewrite substring_correct1 by done. apply Hmin. lia.
    + rewrite substring_correct2 by lia. done.
Qed.

Lemma no_slash_find s : no_slash s → string_find s "/" 0 = npos.
Proof.
  unfold no_slash, string_find. intros Hs. change (Z.to_nat 0) with 0%nat. by rewrite Hs.
Qed.

Lemma no_slash_find_after pre rest :
  no_slash rest →
  string_find (pre +:+ rest) "/" (Z.of_nat (String.length pre)) = npos.
Proof.
  intros Hrest. apply string_find_none. intros j Hj.
  replace j with (String.length pre + (j - String.length pre))%nat by lia.
  rewrite get_append_r. by apply no_slash_get.
Qed.

(** X5: whenever [ParseAzureUri] succeeds, the scheme is [http] or [https],
    the bucket holds no slash, and the path of the locator is rebuilt from the
    result: it is [bucket/object] for a host under [.core.windows.net], whose
    suffix then gives the service, and [account/bucket/object] for some
    account without slash otherwise, the service being BLOB. *)
Theorem ParseAzureUri_reassembles (uri : string) (p : ParseUriResult) :
  Z.of_nat (String.length (Url_GetPath uri)) < npos →
  ParseAzureUri uri = DriverSuccess p →
  valid_scheme uri ∧ no_slash (bucket p)
  ∧ (if compare_suffix (Url_GetHost uri) ".core.windows.net"
     then Url_GetPath uri = bucket p +:+ "/" +:+ object p
          ∧ service p = host_service (Url_GetHost uri)
     else service p = BLOB
          ∧ ∃ account, no_slash account
              ∧ Url_GetPath uri = account +:+ "/" +:+ bucket p +:+ "/" +:+ object p).
Proof.
  intros Hlen Hparse.
  assert (valid_scheme uri) as Hscheme.
  { unfold ParseAzureUri in Hparse. unfold valid_scheme.
    destruct (decide (Url_GetScheme uri = "https")) as [|Hs]; [by left|].
    destruct (decide (Url_GetScheme uri = "http")) as [|Hp]; [by right|].
    by rewrite !bool_decide_eq_true_2 in Hparse by done. }
  split; [done|].
  assert (∀ s, string_find s "/" 0 = npos
               → string_find s "/" (wrapU64 (string_find s "/" 0 + 1)) = npos) as Hwrap.
  { intros s Hs. rewrite Hs. by assert (wrapU64 (npos + 1) = 0) as -> by done. }
  destruct (compare_suffix (Url_GetHost uri) ".core.windows.net") eqn:Hhost.
  - destruct (split_at_slash (Url_GetPath uri)) as [Hnone|(a & t & Hpath & Ha)].
    + exfalso. unfold ParseAzureUri in Hparse.
      rewrite (valid_scheme_test _ Hscheme), Hhost, (no_slash_find _ Hnone) in Hparse.
      destruct (compare_suffix _ ".blob.core.windows.net");
        [|destruct (compare_suffix _ ".file.core.windows.net")];
        by rewrite bool_decide_eq_true_2 in Hparse by done.
    + rewrite (ParseAzureUri_production_path uri a t) in Hparse by done.
      by simplify_eq/=.
  - destruct (split_at_slash (Url_GetPath uri)) as [Hnone|(a & t & Hpath & Ha)].
    + exfalso. unfold ParseAzureUri in Hparse.
      rewrite (valid_scheme_test _ Hscheme), Hhost in Hparse.
      rewrite Hwrap in Hparse by (by apply no_slash_find).
      by rewrite bool_decide_eq_true_2 in Hparse by done.
    + destruct (split_at_slash t) as [Hnone|(b & o & -> & Hb)].
      * exfalso. unfold ParseAzureUri in Hparse.
        rewrite (valid_scheme_test _ Hscheme), Hhost in Hparse.
        rewrite Hpath in Hparse, Hlen.
        assert (string_find (a +:+ "/" +:+ t) "/" 0 = Z.of_nat (String.length a)) as H1
          by apply (slash_after "" a t Ha).
        rewrite H1 in Hparse.
        assert (wrapU64 (Z.of_nat (String.length a) + 1)
                = Z.of_nat (String.length (a +:+ "/"))) as Hw.
        { rewrite length_append. simpl. unfold wrapU64. rewrite Z.mod_small; [lia|].
          rewrite length_append in Hlen. unfold npos, size_max in Hlen. lia. }
        simpl in Hparse. rewrite Hw in Hparse.
        rewrite <- (append_assoc a "/" t) in Hparse.
        rewrite (no_slash_find_after (a +:+ "/") t Hnone) in Hparse.
        by rewrite bool_decide_eq_true_2 in Hparse by done.
      * rewrite (ParseAzureUri_emulator_path uri a b o) in Hparse by done.
        simplify_eq/=. split_and!; [done..|]. by exists a.
Qed.

(** X6: [ParseAzureUri] fails with the status Bad Request and the reason
    "Invalid Azure URI" when the scheme is neither [http] nor [https], and
    with the reason "Invalid Azure URI, missing object name: " followed by
    the locator when the path holds no slash, or, for a host outside
    [.core.windows.net], when the path holds exactly one slash. *)
Theorem ParseAzureUri_rejects (uri : string) :
  (¬ valid_scheme uri →
   ParseAzureUri uri = DriverFailure HttpStatusCode_BadRequest "Invalid Azure URI")
  ∧ (valid_scheme uri → no_slash (Url_GetPath uri) →
     ParseAzureUri uri
     = DriverFailure HttpStatusCode_BadRequest
         ("Invalid Azure URI, missing object name: " +:+ uri))
  ∧ (∀ account rest,
       valid_scheme uri →
       compare_suffix (Url_GetHost uri) ".core.windows.net" = false →
       Url_GetPath uri = account +:+ "/" +:+ rest → no_slash account → no_slash rest →
       Z.of_nat (String.length (Url_GetPath uri)) < npos →
       ParseAzureUri uri
       = DriverFailure HttpStatusCode_BadRequest
           ("Invalid Azure URI, missing object name: " +:+ uri)).
Proof.
  split_and!.
  - intros Hscheme. unfold ParseAzureUri, valid_scheme in *.
    rewrite !bool_decide_eq_true_2; [done|..]; intros Hs; apply Hscheme; auto.
  - intros Hscheme Hnone. unfold ParseAzureUri.
    rewrite (valid_scheme_test _ Hscheme), (no_slash_find _ Hnone).
    assert (wrapU64 (npos + 1) = 0) as -> by done.
    rewrite (no_slash_find _ Hnone).
    destruct (compare_suffix _ ".core.windows.net");
      [destruct (compare_suffix _ ".blob.core.windows.net");
         [|destruct (compare_suffix _ ".file.core.windows.net")]|];
      by rewrite bool_decide_eq_true_2 by done.
  - intros account rest Hscheme Hhost Hpath Ha Hrest Hlen. unfold ParseAzureUri.
    rewrite (valid_scheme_test _ Hscheme), Hhost. rewrite Hpath in *.
    assert (string_find (account +:+ "/" +:+ rest) "/" 0 = Z.of_nat (String.length account))
      as H1 by apply (slash_after "" account rest Ha).
    rewrite H1.
    assert (wrapU64 (Z.of_nat (String.length account) + 1)
            = Z.of_nat (String.length (account +:+ "/"))) as Hw.
    { rewrite length_append. simpl. unfold wrapU64. rewrite Z.mod_small; [lia|].
      rewrite length_append in Hlen. unfold npos, size_max in Hlen. lia. }
    simpl. rewrite Hw.
    rewrite <- (append_assoc account "/" rest).
    rewrite (no_slash_find_after (account +:+ "/") rest Hrest).
    by rewrite bool_decide_eq_true_2 by done.
Qed.

End LocatorProperties.

(** ** Seeks on an open reader *)

Lemma cursor_after_seek (d : Driver) (stream : Handle) (pos : nat) (reader : Reader) (o : Z) :
  FindReader stream d = Some (pos, (stream, reader)) →
  cursor (set_readers (<[pos := (stream, set_offset reader o)]> (active_reader_handles d)) d)
    stream = Some o.
Proof.
  intros Hfind. unfold cursor, resolve. simpl.
  unfold FindReader in Hfind. by rewrite (FindHandle_insert _ _ _ _ _ Hfind).
Qed.

Lemma FindReader_handle (d : Driver) (stream : Handle) pos h reader :
  FindReader stream d = Some (pos, (h, reader)) → h = stream.
Proof. intros Hfind. by apply FindHandle_Some in Hfind as (_ & ? & _). Qed.

Lemma connected_test (d : Driver) :
  bIsConnected d ≠ kFalse → bool_decide (kFalse = bIsConnected d) = false.
Proof. intros Hc. apply bool_decide_eq_false. congruence. Qed.

(** X7: whatever its arguments, [driver_fseek] either fails with [kBadSize] and
    changes nothing but the last-error text, or returns 0 after it has set
    the cursor of the reader behind the handle to a value that is not
    negative; no other stream, and nothing else of that reader, changes. *)
Theorem fseek_moves_only_the_cursor (d : Driver) (stream : Handle) (offset whence : Z) :
  (∃ msg, driver_fseek d stream offset whence = (kBadSize, LogError msg d))
  ∨ (∃ pos reader o,
       FindReader stream d = Some (pos, (stream, reader)) ∧ 0 ≤ o
       ∧ driver_fseek d stream offset whence
         = (0, set_readers
                 (<[pos := (stream, set_offset reader o)]> (active_reader_handles d)) d)).
Proof.
  unfold driver_fseek.
  case_bool_decide; [left; by eexists|].
  case_bool_decide; [left; by eexists|].
  destruct (FindReader stream d) as [[pos [h reader]]|] eqn:Hfind; [|left; by eexists].
  pose proof (FindReader_handle _ _ _ _ _ Hfind) as ->.
  cbv zeta. repeat case_bool_decide; simpl;
    first [ left; by eexists
          | right; eexists pos, reader, _; split_and!; [done| |done]; lia ].
Qed.

(** X8: on an open reader, a seek from the beginning to an [offset] that is
    not negative returns 0, sets the cursor to [offset], even beyond the end
    of the stream, and leaves the last-error text; a negative [offset] fails
    with "Invalid seek offset " followed by its decimal text. *)
Theorem seek_begin_sets_cursor (d : Driver) (stream : Handle) (pos : nat) (reader : Reader)
    (offset : Z) :
  bIsConnected d ≠ kFalse → stream ≠ nullptr →
  FindReader stream d = Some (pos, (stream, reader)) →
  (0 ≤ offset →
     (driver_fseek d stream offset ios_beg).1 = 0
     ∧ cursor (driver_fseek d stream offset ios_beg).2 stream = Some offset
     ∧ lastError (driver_fseek d stream offset ios_beg).2 = lastError d)
  ∧ (offset < 0 →
     driver_fseek d stream offset ios_beg
     = (kBadSize, LogError ("Invalid seek offset " +:+ to_string offset) d)).
Proof.
  intros Hconn Hnull Hfind. unfold driver_fseek.
  rewrite (connected_test _ Hconn), (bool_decide_eq_false_2 (stream = nullptr)) by done.
  rewrite Hfind. rewrite (bool_decide_eq_true_2 (ios_beg = ios_beg)) by done. split.
  - intros Hoff. rewrite bool_decide_eq_false_2 by lia. simpl.
    split_and!; [done| |done]. by apply cursor_after_seek.
  - intros Hoff. by rewrite bool_decide_eq_true_2 by lia.
Qed.

(** X9: on an open reader of a stream that is not empty, a seek from the end
    counts from the last byte: the target is [total_size - 1 + offset].  The
    call fails with "Signed overflow prevented" when [offset] exceeds
    [max - (total_size - 1)], fails with "Invalid seek offset" when the
    target is negative, and otherwise returns 0 with the cursor on the
    target. *)
Theorem seek_end_counts_from_last_byte (d : Driver) (stream : Handle) (pos : nat)
    (reader : Reader) (offset : Z) :
  bIsConnected d ≠ kFalse → stream ≠ nullptr →
  FindReader stream d = Some (pos, (stream, reader)) →
  0 < total_size_ reader ≤ max_val → min_val ≤ offset ≤ max_val →
  (max_val - (total_size_ reader - 1) < offset →
     driver_fseek d stream offset ios_end
     = (kBadSize, LogError "Signed overflow prevented" d))
  ∧ (total_size_ reader - 1 + offset < 0 →
     driver_fseek d stream offset ios_end
     = (kBadSize,
        LogError ("Invalid seek offset " +:+ to_string (total_size_ reader - 1 + offset)) d))
  ∧ (0 ≤ total_size_ reader - 1 + offset ≤ max_val →
     (driver_fseek d stream offset ios_end).1 = 0
     ∧ cursor (driver_fseek d stream offset ios_end).2 stream
       = Some (total_size_ reader - 1 + offset)).
Proof.
  intros Hconn Hnull Hfind Htotal Hoff. unfold driver_fseek.
  rewrite (connected_test _ Hconn), (bool_decide_eq_false_2 (stream = nullptr)) by done.
  rewrite Hfind.
  rewrite (bool_decide_eq_false_2 (ios_end = ios_beg)),
    (bool_decide_eq_false_2 (ios_end = ios_cur)),
    (bool_decide_eq_true_2 (ios_end = ios_end)) by done.
  rewrite (bool_decide_eq_true_2 (total_size_ reader > 0)) by lia.
  rewrite (bool_decide_eq_false_2 (total_size_ reader = 0)) by lia.
  rewrite (sub64_id (total_size_ reader) 1)
    by (unfold in_int64, min_val, max_val in *; lia).
  rewrite (sub64_id max_val) by (unfold in_int64, min_val, max_val in *; lia).
  rewrite andb_false_r. simpl. split_and!.
  - intros Hover. by rewrite bool_decide_eq_true_2 by lia.
  - intros Hneg. rewrite bool_decide_eq_false_2 by lia.
    rewrite add64_id by (unfold in_int64, min_val, max_val in *; lia).
    by rewrite bool_decide_eq_true_2 by lia.
  - intros Hin. rewrite bool_decide_eq_false_2 by lia.
    rewrite add64_id by (unfold in_int64, min_val, max_val in *; lia).
    rewrite bool_decide_eq_false_2 by lia. simpl. split; [done|].
    by apply cursor_after_seek.
Qed.

Lemma seek_begin_ok (d : Driver) (stream : Handle) (pos : nat) (reader : Reader) (o : Z) :
  bIsConnected d ≠ kFalse → stream ≠ nullptr →
  FindReader stream d = Some (pos, (stream, reader)) → 0 ≤ o →
  driver_fseek d stream o ios_beg
  = (0, set_readers (<[pos := (stream, set_offset reader o)]> (active_reader_handles d)) d).
Proof.
  intros Hconn Hnull Hfind Ho. unfold driver_fseek.
  rewrite (connected_test _ Hconn), (bool_decide_eq_false_2 (stream = nullptr)) by done.
  rewrite Hfind. rewrite (bool_decide_eq_true_2 (ios_beg = ios_beg)) by done.
  by rewrite bool_decide_eq_false_2 by lia.
Qed.

Lemma seek_current_ok (d : Driver) (stream : Handle) (pos : nat) (reader : Reader) (b : Z) :
  bIsConnected d ≠ kFalse → stream ≠ nullptr →
  FindReader stream d = Some (pos, (stream, reader)) →
  0 ≤ offset_ reader ≤ max_val → 0 ≤ offset_ reader + b ≤ max_val →
  driver_fseek d stream b ios_cur
  = (0, set_readers
          (<[pos := (stream, set_offset reader (offset_ reader + b))]>
             (active_reader_handles d)) d).
Proof.
  intros Hconn Hnull Hfind Ho Hb. unfold driver_fseek.
  rewrite (connected_test _ Hconn), (bool_decide_eq_false_2 (stream = nullptr)) by done.
  rewrite Hfind.
  rewrite (bool_decide_eq_false_2 (ios_cur = ios_beg)),
    (bool_decide_eq_true_2 (ios_cur = ios_cur)) by done.
  rewrite sub64_id by (unfold in_int64, min_val, max_val in *; lia).
  rewrite bool_decide_eq_false_2 by lia.
  rewrite add64_id by (unfold in_int64, min_val, max_val in *; lia).
  by rewrite bool_decide_eq_false_2 by lia.
Qed.

(** X10: on an open reader, a seek from the beginning to [a] followed by a
    relative seek of [b] gives the same status and the same driver state as
    one seek from the beginning to [a + b], when [a] and [a + b] lie between
    0 and the largest [long long]. *)
Theorem seek_begin_then_current (d : Driver) (stream : Handle) (pos : nat) (reader : Reader)
    (a b : Z) :
  bIsConnected d ≠ kFalse → stream ≠ nullptr →
  FindReader stream d = Some (pos, (stream, reader)) →
  0 ≤ a ≤ max_val → 0 ≤ a + b ≤ max_val →
  driver_fseek (driver_fseek d stream a ios_beg).2 stream b ios_cur
  = driver_fseek d stream (a + b) ios_beg.
Proof.
  intros Hconn Hnull Hfind Ha Hab.
  rewrite !(seek_begin_ok d stream pos reader) by (done || lia).
  cbn [snd].
  rewrite (seek_current_ok _ stream pos (set_offset reader a)).
  - unfold set_readers. simpl. by rewrite list_insert_insert_eq.
  - done.
  - done.
  - unfold FindReader in *. simpl. by apply (FindHandle_insert _ _ _ reader).
  - done.
  - done.
Qed.

(** ** What a read leaves of the registry *)

Lemma FindHandle_insert_ne {Stream : Type} (h h' : Handle) (handles : StreamVec Stream)
    (pos : nat) (s s' : Stream) :
  handles !! pos = Some (h, s) → h' ≠ h →
  resolve h' (<[pos := (h, s')]> handles) = resolve h' handles.
Proof.
  unfold resolve, FindHandle. revert pos.
  induction handles as [|[a x] handles IH]; intros pos Hpos Hne; [done|].
  destruct pos as [|pos]; simpl in *.
  - simplify_eq. rewrite !decide_False by done. simpl.
    by rewrite <- !option_fmap_compose.
  - case_decide; [done|]. specialize (IH pos Hpos Hne).
    rewrite <- !option_fmap_compose in *.
    destruct (list_find _ (<[pos:=_]> handles)) as [[i e]|],
             (list_find _ handles) as [[i' e']|]; simpl in *; congruence.
Qed.

Lemma insert_handles {Stream : Type} (h : Handle) (handles : StreamVec Stream)
    (pos : nat) (s s' : Stream) :
  handles !! pos = Some (h, s) → (<[pos := (h, s')]> handles).*1 = handles.*1.
Proof.
  intros Hpos. rewrite list_fmap_insert. simpl. apply list_insert_id.
  by rewrite list_lookup_fmap, Hpos.
Qed.

Section ReadFrame.
Context {World : Type} `{BlobService World}.
Implicit Types s : World * list Request.

Lemma no_throw_ret {A : Type} (a : A) : no_throw (World := World) (ret a).
Proof. by intros s e s'. Qed.

Lemma no_throw_stop {A : Type} (f : Fault) : no_throw (World := World) (stop (A := A) f).
Proof. by intros s e s'. Qed.

Lemma no_throw_try {A : Type} (m : Remote World A) : no_throw (World := World) (try_ m).
Proof. intros s e s'. unfold try_. by destruct (m s) as [[?|?|?] ?]. Qed.

Lemma no_throw_at {A : Type} (v : list A) (i : nat) : no_throw (World := World) (at_ v i).
Proof. intros s e s'. unfold at_. by destruct (v !! i). Qed.

Lemma no_throw_bind {A B : Type} (m : Remote World A) (k : A → Remote World B) :
  no_throw (World := World) m → (∀ a, no_throw (World := World) (k a)) → no_throw (World := World) (bind m k).
Proof.
  intros Hm Hk s e s'. unfold bind. destruct (m s) as [[a|e'|f] s1] eqn:Hms.
  - apply Hk.
  - by destruct (Hm s e' s1).
  - done.
Qed.

Lemma ReadBytesInFile_next_no_throw fuel multifile offset_bak :
  ∀ idx st, no_throw (ReadBytesInFile_next fuel multifile offset_bak idx st).
Proof.
  induction fuel as [|fuel IH]; intros idx st; simpl.
  - case_bool_decide; [apply no_throw_ret|apply no_throw_stop].
  - case_bool_decide; [apply no_throw_ret|].
    repeat (apply no_throw_bind; [first [apply no_throw_at|apply no_throw_try]|intros ?]).
    case_match; [apply no_throw_ret|apply IH].
Qed.

Lemma ReadBytesInFile_no_throw multifile buffer to_read :
  no_throw (ReadBytesInFile multifile buffer to_read).
Proof.
  unfold ReadBytesInFile.
  apply no_throw_bind; [apply no_throw_at|intros cur].
  apply no_throw_bind.
  { case_bool_decide; [apply no_throw_ret|].
    apply no_throw_bind; [apply no_throw_at|intros ?; apply no_throw_ret]. }
  intros file_start.
  apply no_throw_bind; [apply no_throw_at|intros filename].
  apply no_throw_bind; [apply no_throw_try|intros r].
  case_match; [apply no_throw_ret|apply ReadBytesInFile_next_no_throw].
Qed.

Lemma ReadBytesInFile_next_reader fuel multifile offset_bak :
  ∀ idx st s res reader' buffer' s',
  ReadBytesInFile_next fuel multifile offset_bak idx st s = (Ret (res, reader', buffer'), s') →
  ∃ o, reader' = set_offset multifile o.
Proof.
  induction fuel as [|fuel IH]; intros idx st s res reader' buffer' s'; simpl.
  - case_bool_decide; [|done]. intros [= <- <- <- <-]. by eexists.
  - case_bool_decide; [intros [= <- <- <- <-]; by eexists|].
    intros Hrun.
    apply bind_Ret_inv in Hrun as (cur & s1 & _ & Hrun).
    apply bind_Ret_inv in Hrun as (prev & s2 & _ & Hrun).
    apply bind_Ret_inv in Hrun as (filename & s3 & _ & Hrun).
    apply bind_Ret_inv in Hrun as (r & s4 & _ & Hrun).
    destruct r as [e|st'].
    + injection Hrun as <- <- <- <-. by eexists.
    + by eapply IH.
Qed.

Lemma ReadBytesInFile_reader multifile buffer to_read s res reader' buffer' s' :
  ReadBytesInFile multifile buffer to_read s = (Ret (res, reader', buffer'), s') →
  ∃ o, reader' = set_offset multifile o.
Proof.
  unfold ReadBytesInFile. intros Hrun.
  apply bind_Ret_inv in Hrun as (cur & s1 & _ & Hrun).
  apply bind_Ret_inv in Hrun as (file_start & s2 & _ & Hrun).
  apply bind_Ret_inv in Hrun as (filename & s3 & _ & Hrun).
  apply bind_Ret_inv in Hrun as (r & s4 & _ & Hrun).
  destruct r as [e|st'].
  - injection Hrun as <- <- <- <-. by eexists.
  - by eapply ReadBytesInFile_next_reader.
Qed.

(** X11: whenever [driver_fread] returns, with success or failure, the
    connection flag, the writers and the handles of the readers are as
    before, every reader behind another handle is unchanged, and the reader
    behind the handle it was given differs from what it was at most by its
    cursor. *)
Theorem fread_moves_only_the_cursor (d : Driver) (ptr : option (list byte)) (size count : Z)
    (stream : Handle) s (ret : Z) (d' : Driver) (ptr' : option (list byte)) s' :
  driver_fread d ptr size count stream s = (Ret (ret, d', ptr'), s') →
  bIsConnected d' = bIsConnected d
  ∧ active_writer_handles d' = active_writer_handles d
  ∧ (active_reader_handles d').*1 = (active_reader_handles d).*1
  ∧ (∀ h', h' ≠ stream →
       resolve h' (active_reader_handles d') = resolve h' (active_reader_handles d))
  ∧ (∀ r', resolve stream (active_reader_handles d') = Some r' →
       ∃ r, resolve stream (active_reader_handles d) = Some r
            ∧ r' = set_offset r (offset_ r')).
Proof.
  assert (∀ msg, resolve stream (active_reader_handles (LogError msg d))
                 = resolve stream (active_reader_handles d)) as Hlog by done.
  assert (∀ r', resolve stream (active_reader_handles d) = Some r' →
            ∃ r, resolve stream (active_reader_handles d) = Some r
                 ∧ r' = set_offset r (offset_ r')) as Hsame.
  { intros r' Hr'. exists r'. split; [done|]. by destruct r'. }
  unfold driver_fread.
  case_bool_decide; [intros [= <- <- <- <-]; by split_and!|].
  case_bool_decide; [intros [= <- <- <- <-]; by split_and!|].
  destruct ptr as [buffer|]; [|intros [= <- <- <- <-]; by split_and!].
  case_bool_decide; [intros [= <- <- <- <-]; by split_and!|].
  destruct (FindReader stream d) as [[pos [h reader]]|] eqn:Hfind;
    [|intros [= <- <- <- <-]; by split_and!].
  case_bool_decide; [intros [= <- <- <- <-]; by split_and!|].
  destruct (WillSizeCountProductOverflow size count);
    [intros [= <- <- <- <-]; by split_and!|].
  case_bool_decide; [intros [= <- <- <- <-]; by split_and!|].
  case_bool_decide; [intros [= <- <- <- <-]; by split_and!|].
  intros Hrun. apply bind_Ret_inv in Hrun as ([[read_res reader'] buffer'] & s1 & Hread & Hrun).
  apply ReadBytesInFile_reader in Hread as [o ->].
  pose proof (FindHandle_Some _ _ _ _ Hfind) as (Hpos & Hh & _). simpl in Hh. subst h.
  assert (∀ d0, bIsConnected d0 = bIsConnected d →
            active_writer_handles d0 = active_writer_handles d →
            active_reader_handles d0
            = <[pos := (stream, set_offset reader o)]> (active_reader_handles d) →
            bIsConnected d0 = bIsConnected d
            ∧ active_writer_handles d0 = active_writer_handles d
            ∧ (active_reader_handles d0).*1 = (active_reader_handles d).*1
            ∧ (∀ h', h' ≠ stream →
                 resolve h' (active_reader_handles d0)
                 = resolve h' (active_reader_handles d))
            ∧ (∀ r', resolve stream (active_reader_handles d0) = Some r' →
                 ∃ r, resolve stream (active_reader_handles d) = Some r
                      ∧ r' = set_offset r (offset_ r'))) as Hframe.
  { intros d0 Hc Hw Hr. rewrite Hr. split_and!; [done..| | |].
    - by eapply insert_handles.
    - intros h' Hne. by eapply FindHandle_insert_ne.
    - intros r'. unfold resolve. unfold FindReader in Hfind.
      rewrite (FindHandle_insert _ _ _ _ (set_offset reader o) Hfind), Hfind. simpl.
      intros [= <-]. by exists reader. }
  destruct (is_success read_res); injection Hrun as <- <- <- <-; by apply Hframe.
Qed.

End ReadFrame.

(** ** Writes and kinds of handles *)

Section WriteProperties.
Context {World : Type} `{BlobService World}.
Implicit Types s : World * list Request.
Variable storage_what : HttpStatusCode → string → string.

(** X15: a write of [size * count] bytes on an open writer, the product
    being positive, within [long long] and within the buffer, sends exactly
    one append-block request that carries the first [size * count] bytes of
    the buffer.  When the request succeeds the call returns [size * count]
    and the driver is unchanged; when it raises, the call returns [kBadSize]
    and logs "Error while writing data." followed by the text of the
    exception. *)
Theorem fwrite_appends_one_block (d : Driver) (buffer : list byte) (size count : Z)
    (stream : Handle) (pos : nat) (writer : Writer) (w : World) (tr : list Request) :
  bIsConnected d ≠ kFalse → stream ≠ nullptr →
  FindWriter stream d = Some (pos, (stream, writer)) →
  0 < size → 0 < count → size * count ≤ max_val →
  size * count ≤ Z.of_nat (length buffer) →
  (∀ w', AppendBlock (writer_bucketname_ writer) (writer_filename_ writer)
           (take (Z.to_nat (size * count)) buffer) w = (Ret (), w') →
     driver_fwrite storage_what d (Some buffer) size count stream (w, tr)
     = (Ret (size * count, d),
        (w', tr ++ [ReqAppendBlock (writer_bucketname_ writer) (writer_filename_ writer)
                      (take (Z.to_nat (size * count)) buffer)])))
  ∧ (∀ e w', AppendBlock (writer_bucketname_ writer) (writer_filename_ writer)
               (take (Z.to_nat (size * count)) buffer) w = (Throw e, w') →
     driver_fwrite storage_what d (Some buffer) size count stream (w, tr)
     = (Ret (kBadSize,
             LogError ("Error while writing data." +:+ " " +:+ exception_what storage_what e) d),
        (w', tr ++ [ReqAppendBlock (writer_bucketname_ writer) (writer_filename_ writer)
                      (take (Z.to_nat (size * count)) buffer)]))).
Proof.
  intros Hconn Hnull Hfind Hsize Hcount Hmax Hlen.
  assert (mulU64 size count = size * count) as Hmul.
  { unfold mulU64, wrapU64. rewrite Z.mod_small; [done|]. unfold max_val in Hmax. nia. }
  assert (wrap64 (size * count) = size * count) as Hwrap.
  { apply wrap64_id. unfold in_int64, min_val. nia. }
  unfold driver_fwrite.
  rewrite (connected_test _ Hconn), (bool_decide_eq_false_2 (stream = nullptr)) by done.
  rewrite (bool_decide_eq_false_2 (0 = size)) by lia. rewrite Hfind.
  rewrite (bool_decide_eq_false_2 (0 = count)) by lia.
  rewrite product_fits by done. rewrite Hmul.
  rewrite bool_decide_eq_true_2 by done.
  split.
  - intros w' Hcall. unfold bind, try_, call, ret. simpl. rewrite Hcall. simpl.
    by rewrite Hwrap.
  - intros e w' Hcall. unfold bind, try_, call, ret. simpl. by rewrite Hcall.
Qed.

(** X16: with distinct live handles and a size that is not 0, a handle of a
    writer given to [driver_fseek] or [driver_fread] fails with "Cannot
    identify stream as a reader stream." while [driver_fflush] accepts it,
    and a handle of a reader given to [driver_fwrite] or [driver_fflush]
    fails with "Cannot identify stream as a writer stream."; none of these
    calls sends a request. *)
Theorem handle_kinds_do_not_mix (d : Driver) (h : Handle) (buffer : list byte)
    (size count offset whence : Z) s :
  bIsConnected d ≠ kFalse → NoDup (live_handles d) → h ≠ nullptr → size ≠ 0 →
  (h ∈ (active_writer_handles d).*1 →
     driver_fseek d h offset whence
     = (kBadSize, LogError "Cannot identify stream as a reader stream." d)
     ∧ driver_fread d (Some buffer) size count h s
       = (Ret (kBadSize, LogError "Cannot identify stream as a reader stream." d,
               Some buffer), s)
     ∧ driver_fflush d h = (0, d))
  ∧ (h ∈ (active_reader_handles d).*1 →
     driver_fwrite storage_what d (Some buffer) size count h s
     = (Ret (kBadSize, LogError "Cannot identify stream as a writer stream." d), s)
     ∧ driver_fflush d h
       = (-1, LogError "Cannot identify stream as a writer stream." d)).
Proof.
  intros Hconn Hdup Hnull Hsize. unfold live_handles in Hdup.
  apply NoDup_app in Hdup as (_ & Hdisj & _). split.
  - intros Hw.
    assert (FindReader h d = None) as Hr.
    { apply FindHandle_None. intros Hr. by apply (Hdisj h). }
    assert (∃ pos entry, FindWriter h d = Some (pos, entry)) as (pos & entry & Hfw).
    { destruct (FindWriter h d) as [[pos entry]|] eqn:Hfw; [by eexists _, _|].
      by apply FindHandle_None in Hfw. }
    split_and!.
    + unfold driver_fseek.
      rewrite (connected_test _ Hconn), (bool_decide_eq_false_2 (h = nullptr)) by done.
      by rewrite Hr.
    + unfold driver_fread.
      rewrite (connected_test _ Hconn), (bool_decide_eq_false_2 (h = nullptr)) by done.
      rewrite (bool_decide_eq_false_2 (0 = size)) by congruence. by rewrite Hr.
    + unfold driver_fflush.
      rewrite (connected_test _ Hconn), (bool_decide_eq_false_2 (h = nullptr)) by done.
      by rewrite Hfw.
  - intros Hr.
    assert (FindWriter h d = None) as Hw.
    { apply FindHandle_None. intros Hw. by apply (Hdisj h). }
    split.
    + unfold driver_fwrite.
      rewrite (connected_test _ Hconn), (bool_decide_eq_false_2 (h = nullptr)) by done.
      rewrite (bool_decide_eq_false_2 (0 = size)) by congruence. by rewrite Hw.
    + unfold driver_fflush.
      rewrite (connected_test _ Hconn), (bool_decide_eq_false_2 (h = nullptr)) by done.
      by rewrite Hw.
Qed.

End WriteProperties.

(** ** Exceptions stay inside the driver *)

Create HintDb no_throw.
#[export] Hint Resolve no_throw_ret no_throw_stop no_throw_try no_throw_at : no_throw.

Ltac no_throw :=
  repeat first
    [ solve [auto with no_throw]
    | apply no_throw_bind; [|intros ?]
    | case_match ].

Section Escapes.
Context {World : Type} `{BlobService World}.
Implicit Types s : World * list Request.
Variable storage_what : HttpStatusCode → string → string.
Variable ofstream_is_open : string → bool.
Variable ofstream_write_ok : string → list byte → list byte → bool.

Lemma FilterList_no_throw bucket pattern pos : no_throw (FilterList bucket pattern pos).
Proof. unfold FilterList. no_throw. Qed.

Lemma GetFileSize_no_throw fuel parsed_names : no_throw (GetFileSize fuel parsed_names).
Proof. unfold GetFileSize. pose proof FilterList_no_throw. no_throw. Qed.

Lemma MakeReaderPtr_no_throw fuel bucket object : no_throw (MakeReaderPtr fuel bucket object).
Proof. unfold MakeReaderPtr. pose proof FilterList_no_throw. no_throw. Qed.

Lemma MakeWriterPtr_no_throw bucket object mode : no_throw (MakeWriterPtr bucket object mode).
Proof. unfold MakeWriterPtr. no_throw. Qed.

Lemma driver_fopen_no_throw fuel d filename mode : no_throw (driver_fopen fuel d filename mode).
Proof.
  unfold driver_fopen, RegisterReader, RegisterWriter.
  pose proof FilterList_no_throw. pose proof MakeReaderPtr_no_throw.
  pose proof MakeWriterPtr_no_throw. no_throw.
Qed.

Lemma copyToLocal_loop_no_throw turns reader dest :
  ∀ offset part file_stream relay_buff,
    no_throw (copyToLocal_loop storage_what ofstream_write_ok turns reader dest offset part
                file_stream relay_buff).
Proof.
  induction turns as [|turns IH]; intros offset part file_stream relay_buff;
    cbn [copyToLocal_loop]; case_match; try apply no_throw_ret; [apply no_throw_stop|].
  apply no_throw_bind.
  { case_match; [apply no_throw_ret|].
    apply no_throw_bind; [apply no_throw_at|intros ?; apply no_throw_ret]. }
  intros curr_offset. apply no_throw_bind; [apply no_throw_try|].
  intros [[code reason|what]|[read relay]]; try apply no_throw_ret.
  apply no_throw_bind; [apply no_throw_at|intros cur]. apply IH.
Qed.

(** X17: no exception raised by a request to the store leaves
    [driver_fopen], [driver_getFileSize], [driver_fread], [driver_fwrite],
    [driver_fileExists], [driver_exist] or [driver_copyToLocal]: each of them
    catches it and turns it into a status. *)
Theorem no_exception_escapes (fuel : nat) (level_ge_debug : bool) (d : Driver)
    (filename : option string) (mode : ascii) (ptr : option (list byte)) (size count : Z)
    (stream : Handle) (turns : nat) (dest : option string) :
  no_throw (driver_fopen fuel d filename mode)
  ∧ no_throw (driver_getFileSize fuel d filename)
  ∧ no_throw (driver_fread d ptr size count stream)
  ∧ no_throw (driver_fwrite storage_what d ptr size count stream)
  ∧ no_throw (driver_fileExists storage_what level_ge_debug d filename)
  ∧ no_throw (driver_exist storage_what level_ge_debug d filename)
  ∧ no_throw (driver_copyToLocal storage_what ofstream_is_open ofstream_write_ok fuel turns d
                filename dest).
Proof.
  assert (∀ filename, no_throw (driver_fileExists storage_what level_ge_debug d filename))
    as Hexists.
  { intros f. unfold driver_fileExists. pose proof FilterList_no_throw. no_throw. }
  split_and!.
  - apply driver_fopen_no_throw.
  - unfold driver_getFileSize. pose proof GetFileSize_no_throw. no_throw.
  - unfold driver_fread. pose proof ReadBytesInFile_no_throw. no_throw.
  - unfold driver_fwrite. no_throw.
  - apply Hexists.
  - unfold driver_exist. no_throw.
  - unfold driver_copyToLocal.
    pose proof MakeReaderPtr_no_throw. pose proof copyToLocal_loop_no_throw. no_throw.
Qed.

End Escapes.

(** ** What an open registers *)

Lemma resolve_app_fresh {Stream : Type} (h h' : Handle) (handles : StreamVec Stream)
    (s : Stream) :
  h' ≠ h → resolve h' (handles ++ [(h, s)]) = resolve h' handles.
Proof.
  intros Hne. unfold resolve, FindHandle.
  induction handles as [|[a x] handles IH]; simpl.
  - by rewrite decide_False by done.
  - case_decide; [done|]. rewrite <- !option_fmap_compose in *.
    destruct (list_find _ (handles ++ _)) as [[i e]|],
             (list_find _ handles) as [[i' e']|]; simpl in *; congruence.
Qed.

Lemma FindHandle_app_fresh {Stream : Type} (h : Handle) (handles : StreamVec Stream)
    (s : Stream) :
  h ∉ handles.*1 → FindHandle h (handles ++ [(h, s)]) = Some (length handles, (h, s)).
Proof.
  intros Hfresh. unfold FindHandle. apply list_find_Some. split_and!.
  - by rewrite lookup_app_r, Nat.sub_diag by lia.
  - done.
  - intros j [a x] Hj Hlt. rewrite lookup_app_l in Hj by done. simpl. intros Heq. subst a.
    apply Hfresh. apply list_elem_of_fmap. exists (h, x). split; [done|].
    by eapply list_elem_of_lookup_2.
Qed.

Lemma EraseRemove_last {Stream : Type} (handles : StreamVec Stream) (entry : Handle * Stream) :
  EraseRemove (length handles) (handles ++ [entry]) = handles.
Proof.
  unfold EraseRemove. rewrite last_snoc, length_app. simpl.
  replace (length handles + 1 - 1)%nat with (length handles) by lia.
  rewrite insert_app_r_alt, Nat.sub_diag by lia. simpl.
  by rewrite take_app_length.
Qed.

Lemma set_writers_id (d : Driver) : set_writers (active_writer_handles d) d = d.
Proof. by destruct d. Qed.

Section Opening.
Context {World : Type} `{BlobService World}.
Implicit Types s : World * list Request.

Lemma MakeReaderPtr_fresh_cursor fuel bucket object s r s' :
  MakeReaderPtr fuel bucket object s = (Ret (DriverSuccess r), s') →
  offset_ r = 0 ∧ bucketname_ r = bucket ∧ filename_ r = object.
Proof.
  unfold MakeReaderPtr. destruct (FindPatternSpecialChar object) as [pos|].
  - intros Hrun. apply bind_Ret_inv in Hrun as (filter_res & s1 & _ & Hrun).
    destruct filter_res as [blobs_list|]; [|done].
    destruct blobs_list as [|first [|second rest]]; [done| |].
    + by injection Hrun as <- <-.
    + apply bind_Ret_inv in Hrun as (res & s2 & Htry & Hrun).
      destruct res as [e|res]; [by destruct e|]. injection Hrun as -> <-.
      apply try_Ret_inv in Htry as [(a & Hrun & [= <-])|(e & _ & ?)]; [|done].
      apply bind_Ret_inv in Hrun as (maybe_header & s3 & _ & Hrun).
      destruct maybe_header as [header|]; [|done].
      apply bind_Ret_inv in Hrun as ([[filenames cumul] same] & s4 & _ & Hrun).
      by injection Hrun as <- <-.
  - intros Hrun. apply bind_Ret_inv in Hrun as (res & s1 & _ & Hrun).
    destruct res as [[]|size]; [done..|]. by injection Hrun as <- <-.
Qed.

Lemma RegisterWriter_inv d bucket object wmode s res d1 s' :
  RegisterWriter d bucket object wmode s = (Ret (res, d1), s') →
  (∃ code reason, res = DriverFailure code reason ∧ d1 = d)
  ∨ (∃ w, res = DriverSuccess (allocate (live_handles d))
          ∧ d1 = set_writers (active_writer_handles d ++ [(allocate (live_handles d), w)]) d).
Proof.
  intros Hrun. unfold RegisterWriter in Hrun.
  apply bind_Ret_inv in Hrun as (maybe & s1 & _ & Hrun).
  destruct maybe as [stream|code reason]; injection Hrun as <- <- <-.
  - right. by eexists.
  - left. by eexists _, _.
Qed.

Lemma RegisterReader_inv fuel d bucket object s res d1 s' :
  RegisterReader fuel d bucket object s = (Ret (res, d1), s') →
  (∃ code reason, res = DriverFailure code reason ∧ d1 = d)
  ∨ (∃ r, res = DriverSuccess (allocate (live_handles d)) ∧ offset_ r = 0
          ∧ d1 = set_readers (active_reader_handles d ++ [(allocate (live_handles d), r)]) d).
Proof.
  intros Hrun. unfold RegisterReader in Hrun.
  apply bind_Ret_inv in Hrun as (maybe & s1 & Hmk & Hrun).
  destruct maybe as [stream|code reason]; injection Hrun as <- <- <-.
  - right. apply MakeReaderPtr_fresh_cursor in Hmk as (Hoff & _). by eexists.
  - left. by eexists _, _.
Qed.

Lemma writer_opened d mode msg (res : DriverResult Handle) d1 h d' :
  mode = "w"%char ∨ mode = "a"%char →
  (∃ code reason, res = DriverFailure code reason ∧ d1 = d)
  ∨ (∃ w, res = DriverSuccess (allocate (live_handles d))
          ∧ d1 = set_writers (active_writer_handles d ++ [(allocate (live_handles d), w)]) d) →
  match res with
  | DriverFailure _ _ => (nullptr, LogBadResult res msg d1)
  | DriverSuccess h => (h, d1)
  end = (h, d') →
  opened d mode h d'.
Proof.
  intros Hmode [(code & reason & -> & ->)|(w & -> & ->)] [= <- <-].
  - by eapply opened_nothing.
  - by eapply opened_writer.
Qed.

Lemma driver_fopen_opened fuel d filename mode s h d' s' :
  driver_fopen fuel d filename mode s = (Ret (h, d'), s') → opened d mode h d'.
Proof.
  unfold driver_fopen.
  case_bool_decide; [intros [= <- <- <-]; by eapply opened_nothing|].
  destruct filename as [filename|]; [|intros [= <- <- <-]; by eapply opened_nothing].
  destruct (ParseAzureUri filename) as [parsed|code reason];
    [|intros [= <- <- <-]; by eapply opened_nothing].
  case_bool_decide as Hr.
  { intros Hrun. apply bind_Ret_inv in Hrun as ([res d1] & s1 & Hreg & Hrun).
    unfold ret in Hrun. injection Hrun as Hfin <-. simpl in Hfin.
    apply RegisterReader_inv in Hreg as [(code & reason & -> & ->)|(r & -> & Hoff & ->)];
      injection Hfin as <- <-.
    - by eapply opened_nothing.
    - by eapply opened_reader. }
  case_bool_decide as Hw.
  { intros Hrun. apply bind_Ret_inv in Hrun as ([res d1] & s1 & Hreg & Hrun).
    unfold ret in Hrun. injection Hrun as Hfin <-. simpl in Hfin.
    apply RegisterWriter_inv in Hreg. eapply writer_opened; [by left|done..]. }
  case_bool_decide as Ha.
  { destruct (FindPatternSpecialChar (object parsed)) as [pos|].
    - intros Hrun. apply bind_Ret_inv in Hrun as (filter_res & s1 & _ & Hrun).
      destruct filter_res as [blobs_list|code reason];
        [|injection Hrun as <- <- <-; by eapply opened_nothing].
      destruct (last blobs_list) as [back|]; [|done].
      apply bind_Ret_inv in Hrun as ([res d1] & s2 & Hreg & Hrun).
      unfold ret in Hrun. injection Hrun as Hfin <-. simpl in Hfin.
      apply RegisterWriter_inv in Hreg. eapply writer_opened; [by right|done..].
    - intros Hrun. apply bind_Ret_inv in Hrun as ([res d1] & s2 & Hreg & Hrun).
      unfold ret in Hrun. injection Hrun as Hfin <-. simpl in Hfin.
      apply RegisterWriter_inv in Hreg. eapply writer_opened; [by right|done..]. }
  case_bool_decide; [|done]. intros [= <- <- <-]. by eapply opened_nothing.
Qed.

(** X18: when the live handles are distinct and the address of a new stream
    is none of them and is not null, [driver_fopen] keeps the connection flag,
    keeps the live handles distinct and keeps every stream that was open.
    When it returns null the set of live handles is unchanged; otherwise the
    handle it returns is new, is the only one added, the last-error text is
    kept, and the handle is a reader with its cursor at 0 for the mode [r] and
    a writer for the other modes. *)
Theorem fopen_registers_at_most_one_stream (fuel : nat) (d : Driver)
    (filename : option string) (mode : ascii) s (h : Handle) (d' : Driver) s' :
  NoDup (live_handles d) →
  allocate (live_handles d) ∉ live_handles d → allocate (live_handles d) ≠ nullptr →
  driver_fopen fuel d filename mode s = (Ret (h, d'), s') →
  bIsConnected d' = bIsConnected d
  ∧ NoDup (live_handles d')
  ∧ (∀ h', h' ∈ live_handles d →
       resolve h' (active_reader_handles d') = resolve h' (active_reader_handles d)
       ∧ resolve h' (active_writer_handles d') = resolve h' (active_writer_handles d))
  ∧ (h = nullptr → live_handles d' = live_handles d)
  ∧ (h ≠ nullptr →
       (h ∉ live_handles d) ∧ (live_handles d' ≡ₚ (h :: live_handles d))
       ∧ lastError d' = lastError d
       ∧ (if bool_decide (mode = "r"%char) then cursor d' h = Some 0
          else is_Some (resolve h (active_writer_handles d')))).
Proof.
  intros Hdup Hfresh Hnonnull Hrun. apply driver_fopen_opened in Hrun.
  unfold live_handles in Hfresh. apply not_elem_of_app in Hfresh as [Hr Hw].
  destruct Hrun as [msg -> ->|r -> -> Hoff ->|w Hmode -> ->].
  - by split_and!.
  - unfold live_handles in *. simpl. rewrite fmap_app. simpl.
    set (h := allocate _) in *.
    split_and!; [done| | |done|].
    + rewrite <- (assoc_L (++)). simpl.
      apply NoDup_app in Hdup as (Hd1 & Hdisj & Hd2).
      apply NoDup_app. split_and!; [done| |].
      * intros x Hx [->|Hxw]%elem_of_cons; [done|]. by eapply Hdisj.
      * by apply NoDup_cons.
    + intros h' Hin. split; [|done]. apply resolve_app_fresh. intros ->.
      apply elem_of_app in Hin as [?|?]; done.
    + intros _. split_and!; [|  |done|].
      * apply not_elem_of_app. done.
      * rewrite <- (assoc_L (++)). simpl. by rewrite <- Permutation_middle.
      * unfold cursor, resolve. cbn [active_reader_handles set_readers].
        rewrite FindHandle_app_fresh by done. simpl. by rewrite Hoff.
  - unfold live_handles in *. simpl. rewrite fmap_app. simpl.
    set (h := allocate _) in *.
    split_and!; [done| | |done|].
    + rewrite (assoc_L (++)). apply NoDup_app. split_and!; [done| |apply NoDup_singleton].
      intros x Hx ->%list_elem_of_singleton. apply elem_of_app in Hx as [?|?]; done.
    + intros h' Hin. split; [done|]. apply resolve_app_fresh. intros ->.
      apply elem_of_app in Hin as [?|?]; done.
    + intros _. split_and!; [| |done|].
      * apply not_elem_of_app. done.
      * rewrite (assoc_L (++)). by rewrite <- Permutation_cons_append.
      * rewrite bool_decide_eq_false_2 by (destruct Hmode as [->| ->]; done).
        unfold resolve. cbn [active_writer_handles set_writers].
        rewrite FindHandle_app_fresh by done. by eexists.
Qed.

(** X19: when the address of a new stream is none of the live handles,
    closing the handle that [driver_fopen] has just returned succeeds and
    gives back the driver state of before the open. *)
Theorem open_then_close_restores (fuel : nat) (d : Driver) (filename : option string)
    (mode : ascii) s (h : Handle) (d' : Driver) s' :
  allocate (live_handles d) ∉ live_handles d →
  driver_fopen fuel d filename mode s = (Ret (h, d'), s') → h ≠ nullptr →
  driver_fclose d' h = (inr kCloseSuccess, d).
Proof.
  intros Hfresh Hrun Hnull.
  assert (bIsConnected d ≠ 0) as Hconn.
  { intros Hc. unfold driver_fopen in Hrun.
    rewrite bool_decide_eq_true_2 in Hrun by done. by injection Hrun as <- <- <-. }
  apply driver_fopen_opened in Hrun.
  unfold live_handles in Hfresh. apply not_elem_of_app in Hfresh as [Hr Hw].
  destruct Hrun as [msg -> ->|r -> -> Hoff ->|w Hmode -> ->]; [done| |].
  - unfold driver_fclose. simpl.
    rewrite (bool_decide_eq_false_2 (bIsConnected d = 0)),
      (bool_decide_eq_false_2 (_ = nullptr)) by done.
    unfold FindReader. simpl. rewrite FindHandle_app_fresh by done.
    rewrite EraseRemove_last. unfold set_readers. simpl. by destruct d.
  - unfold driver_fclose. simpl.
    rewrite (bool_decide_eq_false_2 (bIsConnected d = 0)),
      (bool_decide_eq_false_2 (_ = nullptr)) by done.
    unfold FindReader, FindWriter. simpl.
    assert (FindHandle (allocate (live_handles d)) (active_reader_handles d) = None) as ->
      by by apply FindHandle_None.
    rewrite FindHandle_app_fresh by done.
    rewrite EraseRemove_last. unfold set_writers. simpl. by destruct d.
Qed.

End Opening.

(** ** The size query and the index *)

Lemma last_imap {A B : Type} (f : nat → A → B) (l : list A) :
  last (imap f l) = f (length l - 1)%nat <$> last l.
Proof.
  rewrite !last_lookup, length_imap, list_lookup_imap.
  by replace (pred (length l)) with (length l - 1)%nat by lia.
Qed.

Lemma last_cumulative_wrapped (previous : Z) (sizes : list Z) :
  last (previous :: cumulative_wrapped previous sizes) = Some (foldl add64 previous sizes).
Proof.
  revert previous. induction sizes as [|size sizes IH]; intros previous; [done|].
  simpl cumulative_wrapped. rewrite last_cons_cons. simpl foldl. apply IH.
Qed.

Lemma length_cumulative_wrapped (previous : Z) (sizes : list Z) :
  length (cumulative_wrapped previous sizes) = length sizes.
Proof.
  revert previous. induction sizes as [|size sizes IH]; intros previous; [done|].
  simpl. by rewrite IH.
Qed.

Section SizeAndIndex.
Context {World : Type} `{BlobService World}.
Implicit Types s : World * list Request.

Lemma GetFileSize_next_total container header items :
  ∀ total_size same_headers part_buffer s t b s',
  GetFileSize_next container header items total_size same_headers part_buffer s
  = (Ret (t, b), s') →
  t = foldl add64 total_size (BlobSize <$> items).
Proof.
  induction items as [|item items IH]; intros total_size same part_buffer s t b s'; simpl.
  - by intros [= <- <- <-].
  - destruct same.
    + intros Hrun. apply bind_Ret_inv in Hrun as (r & s1 & _ & Hrun). by eapply IH.
    + by apply IH.
Qed.

Lemma GetFileSize_as_MakeReaderPtr (fuel : nat) (svc : Service) (bucket object : string) s :
  GetFileSize fuel (mkParseUriResult svc bucket object) s
  = (size_of_reader (MakeReaderPtr fuel bucket object s).1,
     (MakeReaderPtr fuel bucket object s).2).
Proof.
  unfold GetFileSize, MakeReaderPtr. simpl.
  destruct (FindPatternSpecialChar object) as [pos|].
  - unfold bind, try_, ret.
    destruct (FilterList bucket object pos s) as [[filter_res|e|f] s1]; [|try destruct e; reflexivity..].
    destruct filter_res as [blobs_list|code reason]; [|reflexivity].
    destruct blobs_list as [|first [|second rest]]; [reflexivity..|].
    assert (∃ next, next = second :: rest ∧ (0 < length next)%nat) as (next & <- & Hnext0)
      by (eexists; split; [done|simpl; lia]).
    destruct (FindHeader fuel bucket (Name first) s1) as [[[header|]|e|f] s2]; [|try destruct e; reflexivity..].
    rewrite (MakeReaderPtr_next_as_GetFileSize_next bucket header next [Name first]
               [BlobSize first] (BlobSize first)) by done.
    destruct (GetFileSize_next bucket header next (BlobSize first) true _ s2)
      as [[[t b]|e|f] s3] eqn:Hnext; [|try destruct e; reflexivity..].
    apply GetFileSize_next_total in Hnext as ->.
    cbn [fst snd size_of_reader MakeDriverSuccess]. do 3 f_equal.
    unfold make_Reader. cbn [total_size_ length].
    change ([BlobSize first] ++ cumulative_wrapped (BlobSize first) (BlobSize <$> next))
      with (BlobSize first :: cumulative_wrapped (BlobSize first) (BlobSize <$> next)).
    destruct b.
    + unfold elide_headers. rewrite last_imap, last_cumulative_wrapped.
      cbn [fmap option_fmap option_map default length].
      rewrite length_cumulative_wrapped, length_fmap.
      rewrite bool_decide_eq_false_2 by lia.
      unfold id. do 3 f_equal. lia.
    + by rewrite last_cumulative_wrapped.
  - unfold bind, try_, call, ret. simpl.
    destruct (GetProperties bucket object s.1) as [[size|[code reason|what]|f] w']; reflexivity.
Qed.

(** X21: [GetFileSize] and [MakeReaderPtr] agree on every store and every
    name: they send the same requests, fail together with the same status and
    reason, and when they succeed the size is the total size of the reader. *)
Theorem size_query_is_total_of_index (fuel : nat) (svc : Service) (bucket object : string) s :
  GetFileSize fuel (mkParseUriResult svc bucket object) s
  = (size_of_reader (MakeReaderPtr fuel bucket object s).1,
     (MakeReaderPtr fuel bucket object s).2).
Proof. apply GetFileSize_as_MakeReaderPtr. Qed.

End SizeAndIndex.

(** ** The comparison of the headers and the total *)

Lemma blit_over_header (header c : list byte) :
  blit (take (length header) c) 0 header = header
  ↔ take (length header) c `prefix_of` header.
Proof.
  unfold blit. simpl. generalize (take (length header) c). intros data. split.
  - intros Heq. by eexists.
  - intros [rest ->]. by rewrite drop_app_length.
Qed.

Lemma blit_over_zeros (header c : list byte) :
  last header = Some newline →
  blit (take (length header) c) 0 (replicate (length header) "000"%byte) = header →
  take (length header) c = header.
Proof.
  unfold blit. simpl. intros Hlast Heq.
  destruct (decide (length header ≤ length c)%nat) as [Hlong|Hshort].
  - rewrite drop_ge in Heq by (rewrite length_take, length_replicate; lia).
    by rewrite app_nil_r in Heq.
  - exfalso. rewrite take_ge in Heq by lia. rewrite drop_replicate in Heq.
    assert (length header - length c = S (length header - length c - 1))%nat as Hpos by lia.
    rewrite Hpos, replicate_S_end in Heq.
    rewrite (assoc_L (++)) in Heq. rewrite <- Heq, last_snoc in Hlast. done.
Qed.

Section ReusedBuffer.
Context {World : Type} `{BlobService World}.
Implicit Types s : World * list Request.

Variable stable : World → Prop.
Variables (bucket : string) (header : list byte).

(** Once the buffer holds the header, a part passes when its first bytes
    are a prefix of the header. *)
Lemma GetFileSize_next_prefixes items cs total_size w tr :
  Forall2 (lists stable bucket) items cs →
  Forall (λ c, take (length header) c `prefix_of` header) cs → stable w →
  ∃ w', GetFileSize_next bucket header items total_size true header (w, tr)
        = (Ret (foldl add64 total_size (BlobSize <$> items), true),
           (w', tr ++ (header_read bucket header ∘ Name <$> items)))
      ∧ stable w'.
Proof.
  intros Hlists. revert total_size w tr.
  induction Hlists as [|item c items cs Hitem _ IH]; intros total_size w tr Hall Hw.
  - exists w. simpl. by rewrite app_nil_r.
  - apply Forall_cons in Hall as [Hc Hall]. simpl.
    destruct (IsSameHeader_served stable bucket header item c header w tr Hitem eq_refl Hw)
      as (w1 & Hrun & Hw1).
    rewrite (bind_Ret _ _ _ _ _ Hrun). simpl.
    apply blit_over_header in Hc. rewrite Hc, bool_decide_eq_true_2 by done.
    destruct (IH (add64 total_size (BlobSize item)) w1
                (tr ++ [header_read bucket header (Name item)]) Hall Hw1) as (w' & Hrest & Hw').
    exists w'. split; [|done]. rewrite Hrest. by rewrite <- (assoc_L (++)).
Qed.

Lemma GetFileSize_next_not_prefix items cs total_size w tr :
  Forall2 (lists stable bucket) items cs →
  ¬ Forall (λ c, take (length header) c `prefix_of` header) cs → stable w →
  ∃ s', GetFileSize_next bucket header items total_size true header (w, tr)
        = (Ret (foldl add64 total_size (BlobSize <$> items), false), s').
Proof.
  intros Hlists. revert total_size w tr.
  induction Hlists as [|item c items cs Hitem _ IH]; intros total_size w tr Hnot Hw.
  - by destruct Hnot.
  - simpl.
    destruct (IsSameHeader_served stable bucket header item c header w tr Hitem eq_refl Hw)
      as (w1 & Hrun & Hw1).
    rewrite (bind_Ret _ _ _ _ _ Hrun). simpl.
    case_bool_decide as Hsame.
    + rewrite Hsame. apply IH; [|done].
      intros Hall. apply Hnot. constructor; [|done]. by apply blit_over_header.
    + rewrite GetFileSize_next_different. by eexists.
Qed.

(** The comparisons of the parts after the first, from the buffer of
    zeros. *)
Lemma GetFileSize_next_taken items cs total_size w tr :
  Forall2 (lists stable bucket) items cs → taken_for_header header cs → stable w →
  ∃ w', GetFileSize_next bucket header items total_size true
          (replicate (length header) "000"%byte) (w, tr)
        = (Ret (foldl add64 total_size (BlobSize <$> items), true),
           (w', tr ++ (header_read bucket header ∘ Name <$> items)))
      ∧ stable w'.
Proof.
  intros Hlists Htaken Hw.
  destruct Hlists as [|item c items cs Hitem Hlists].
  - exists w. simpl. by rewrite app_nil_r.
  - destruct Htaken as [Hfirst Hrest]. simpl.
    destruct (IsSameHeader_served stable bucket header item c
                (replicate (length header) "000"%byte) w tr Hitem
                (length_replicate _ _) Hw) as (w1 & Hrun & Hw1).
    rewrite (bind_Ret _ _ _ _ _ Hrun). simpl.
    assert (blit (take (length header) c) 0 (replicate (length header) "000"%byte) = header)
      as Hblit.
    { unfold blit. simpl. rewrite Hfirst, drop_ge by (rewrite length_replicate; lia).
      by rewrite app_nil_r. }
    rewrite Hblit, bool_decide_eq_true_2 by done.
    destruct (GetFileSize_next_prefixes items cs (add64 total_size (BlobSize item)) w1
                (tr ++ [header_read bucket header (Name item)]) Hlists Hrest Hw1)
      as (w' & Hloop & Hw').
    exists w'. split; [|done]. rewrite Hloop. by rewrite <- (assoc_L (++)).
Qed.

Lemma GetFileSize_next_not_taken items cs total_size w tr :
  last header = Some newline →
  Forall2 (lists stable bucket) items cs → ¬ taken_for_header header cs → stable w →
  ∃ s', GetFileSize_next bucket header items total_size true
          (replicate (length header) "000"%byte) (w, tr)
        = (Ret (foldl add64 total_size (BlobSize <$> items), false), s').
Proof.
  intros Hlast Hlists Hnot Hw.
  destruct Hlists as [|item c items cs Hitem Hlists]; [by destruct Hnot|]. simpl.
  destruct (IsSameHeader_served stable bucket header item c
              (replicate (length header) "000"%byte) w tr Hitem
              (length_replicate _ _) Hw) as (w1 & Hrun & Hw1).
  rewrite (bind_Ret _ _ _ _ _ Hrun). simpl.
  case_bool_decide as Hsame.
  - rewrite Hsame. apply (GetFileSize_next_not_prefix items cs); [done| |done].
    intros Hall. apply Hnot. split; [|done]. by apply blit_over_zeros.
  - rewrite GetFileSize_next_different. by eexists.
Qed.

End ReusedBuffer.

Lemma last_first_line (c : list byte) (k : nat) :
  first_newline_at c k → last (take (S k) c) = Some newline.
Proof.
  intros [Hk _]. pose proof (lookup_lt_Some _ _ _ Hk).
  rewrite last_lookup, length_take, Nat.min_l by lia. simpl.
  by rewrite lookup_take_lt by lia.
Qed.

Section HeaderComparison.
Context {World : Type} `{BlobService World}.
Implicit Types s : World * list Request.

Variable stable : World → Prop.
Variables (fuel : nat) (bucket object : string) (pos : nat).
Variables (first : BlobItem) (next : list BlobItem) (c0 : list byte) (cs : list (list byte)).
Variables (w : World) (tr : list Request) (w1 : World) (tr1 : list Request).

Hypothesis Hpattern : FindPatternSpecialChar object = Some pos.
Hypothesis Hlisting :
  FilterList bucket object pos (w, tr) = (Ret (DriverSuccess (first :: next)), (w1, tr1)).
Hypothesis Hstable : stable w1.
Hypothesis Hmulti : next ≠ [].
Hypothesis Hparts : Forall2 (lists stable bucket) (first :: next) (c0 :: cs).
Hypothesis Hmax : byte_length (concat (c0 :: cs)) ≤ max_val.
Hypothesis Hfuel : (length c0 < fuel)%nat.

Lemma reader_of_size (v : Z) s' :
  GetFileSize fuel (mkParseUriResult BLOB bucket object) (w, tr) = (Ret (DriverSuccess v), s') →
  ∃ r, MakeReaderPtr fuel bucket object (w, tr) = (Ret (DriverSuccess r), s')
       ∧ total_size_ r = v.
Proof.
  rewrite GetFileSize_as_MakeReaderPtr.
  destruct (MakeReaderPtr fuel bucket object (w, tr)) as [[[r|code reason]|e|f] s2];
    simpl; intros Heq; simplify_eq. by exists r.
Qed.

(** X30: for several parts that the store serves, the first of which has its
    first newline at position [k], so that the header has [L = k + 1] bytes.
    The size query and the index of a reader elide the header of every later
    part, the total being the sum of the raw sizes minus [(n - 1) * L],
    exactly when the second part begins with the header and each further part
    begins with the header or is a prefix of it; otherwise the total is the
    sum of the raw sizes.  A further part shorter than the header passes the
    comparison when it is a prefix of the header, since the buffer that is
    compared keeps the bytes of the part read before. *)
Theorem header_comparison_decides_the_total (k : nat) :
  first_newline_at c0 k →
  Z.of_nat (length cs) * Z.of_nat (S k) ≤ max_val →
  (taken_for_header (take (S k) c0) cs →
     ∃ r s',
       GetFileSize fuel (mkParseUriResult BLOB bucket object) (w, tr)
       = (Ret (DriverSuccess (byte_length (concat (c0 :: cs))
                              - Z.of_nat (length cs) * Z.of_nat (S k))), s')
       ∧ MakeReaderPtr fuel bucket object (w, tr) = (Ret (DriverSuccess r), s')
       ∧ total_size_ r
         = byte_length (concat (c0 :: cs)) - Z.of_nat (length cs) * Z.of_nat (S k))
  ∧ (¬ taken_for_header (take (S k) c0) cs →
     ∃ r s',
       GetFileSize fuel (mkParseUriResult BLOB bucket object) (w, tr)
       = (Ret (DriverSuccess (byte_length (concat (c0 :: cs)))), s')
       ∧ MakeReaderPtr fuel bucket object (w, tr) = (Ret (DriverSuccess r), s')
       ∧ total_size_ r = byte_length (concat (c0 :: cs))).
Proof.
  intros Hk Hproduct.
  destruct (header_found stable fuel bucket first next c0 cs w1 tr1 Hstable Hparts Hmax
              Hfuel k Hk) as (w2 & hreqs & Hheader & _ & Hw2 & HL).
  pose proof (last_first_line c0 k Hk) as Hlast.
  set (header := take (S k) c0) in *.
  pose proof (next_parts stable bucket first next c0 cs Hparts) as Hnext.
  pose proof (Forall2_length _ _ _ Hnext) as Hn.
  assert (foldl add64 (BlobSize first) (BlobSize <$> next) = byte_length (concat (c0 :: cs)))
    as Hraw by (eapply raw_total; eassumption).
  assert (0 ≤ byte_length (concat (c0 :: cs))) by (unfold byte_length; lia).
  split.
  - intros Htaken.
    destruct (GetFileSize_next_taken stable bucket header next cs (BlobSize first) w2
                (tr1 ++ hreqs) Hnext Htaken Hw2) as (w3 & Hloop & _).
    assert (GetFileSize fuel (mkParseUriResult BLOB bucket object) (w, tr)
            = (Ret (DriverSuccess (byte_length (concat (c0 :: cs))
                                   - Z.of_nat (length cs) * Z.of_nat (S k))),
               (w3, (tr1 ++ hreqs) ++ (header_read bucket header ∘ Name <$> next)))) as Hsize.
    { rewrite (GetFileSize_multi stable fuel bucket object pos first next c0 cs w tr w1 tr1
                 Hpattern Hlisting Hmulti Hparts).
      rewrite (bind_Ret _ _ _ _ _ (try_Ret _ _ _ _
                 (eq_trans (bind_Ret _ _ _ _ _ Hheader) (bind_Ret _ _ _ _ _ Hloop)))).
      simpl. rewrite Hraw, HL, Hn.
      replace (Z.of_nat (S (length cs)) - 1) with (Z.of_nat (length cs)) by lia.
      unfold mulU64, wrapU64.
      rewrite Z.mod_small by (unfold max_val in *; lia).
      rewrite wrap64_id by (unfold in_int64, min_val, max_val in *; lia).
      rewrite sub64_id by (unfold in_int64, min_val, max_val in *; lia). done. }
    destruct (reader_of_size _ _ Hsize) as (r & Hreader & Htotal).
    by exists r, (w3, (tr1 ++ hreqs) ++ (header_read bucket header ∘ Name <$> next)).
  - intros Hnot.
    destruct (GetFileSize_next_not_taken stable bucket header next cs (BlobSize first) w2
                (tr1 ++ hreqs) Hlast Hnext Hnot Hw2) as (s3 & Hloop).
    assert (GetFileSize fuel (mkParseUriResult BLOB bucket object) (w, tr)
            = (Ret (DriverSuccess (byte_length (concat (c0 :: cs)))), s3)) as Hsize.
    { rewrite (GetFileSize_multi stable fuel bucket object pos first next c0 cs w tr w1 tr1
                 Hpattern Hlisting Hmulti Hparts).
      rewrite (bind_Ret _ _ _ _ _ (try_Ret _ _ _ _
                 (eq_trans (bind_Ret _ _ _ _ _ Hheader) (bind_Ret _ _ _ _ _ Hloop)))).
      simpl. by rewrite Hraw. }
    destruct (reader_of_size _ _ Hsize) as (r & Hreader & Htotal).
    by exists r, s3.
Qed.

End HeaderComparison.

(** ** Listing, header search and files of one part *)

Section Listing.
Context {World : Type} `{BlobService World}.
Implicit Types s : World * list Request.

(** X23: a successful [FilterList] has sent one listing request, whose prefix
    is the pattern up to its first special character; its result is not empty
    and holds, in the order of the listing, exactly the listed blobs that are
    not deleted and whose name matches the pattern. *)
Theorem FilterList_keeps_the_matching_blobs (bucket pattern : string) (pos : nat)
    (w : World) (tr : list Request) (res : list BlobItem) s' :
  FilterList bucket pattern pos (w, tr) = (Ret (DriverSuccess res), s') →
  res ≠ []
  ∧ ∃ listing w',
      ListBlobs bucket (String.substring 0 pos pattern) w = (Ret listing, w')
      ∧ s' = (w', tr ++ [ReqListBlobs bucket (String.substring 0 pos pattern)])
      ∧ res `sublist_of` listing
      ∧ ∀ item, item ∈ res
                ↔ item ∈ listing ∧ IsDeleted item = false
                  ∧ gitignore_glob_match (Name item) pattern = true.
Proof.
  unfold FilterList, bind, try_, call, ret. simpl.
  destruct (ListBlobs bucket (String.substring 0 pos pattern) w) as [[listing|e|f] w'] eqn:Hl;
    simpl; [|by destruct e|done].
  case_bool_decide as Hres; [done|]. intros [= <- <-]. split; [done|].
  exists listing, w'. split_and!; [done..|apply sublist_filter|].
  intros item. rewrite list_elem_of_filter. split.
  - by intros [[? ?] ?].
  - by intros (? & ? & ?).
Qed.

End Listing.

Section HeaderSearch.
Context {World : Type} `{BlobService World}.
Implicit Types s : World * list Request.
Variable stable : World → Prop.

(** X24: on a blob that the store serves, [FindHeader] reads blocks from the
    blob only, and returns the bytes up to and including the first newline
    when there is one, and nothing when the blob holds no newline. *)
Theorem FindHeader_returns_the_first_line (fuel : nat) (bucket name : string) (c : list byte)
    (w : World) (tr : list Request) :
  served stable bucket name c → byte_length c ≤ max_val → stable w →
  (length c < fuel * Z.to_nat block_size)%nat →
  (∀ k, first_newline_at c k →
     ∃ w' reqs,
       FindHeader fuel bucket name (w, tr) = (Ret (Some (take (S k) c)), (w', tr ++ reqs))
       ∧ Forall (block_request bucket name) reqs ∧ stable w')
  ∧ (newline ∉ c →
     ∃ w' reqs,
       FindHeader fuel bucket name (w, tr) = (Ret None, (w', tr ++ reqs))
       ∧ Forall (block_request bucket name) reqs ∧ stable w').
Proof.
  intros Hserved Hmax Hw Hfuel. split.
  - intros k Hk.
    assert (k < length c)%nat by (destruct Hk as [Hk _]; by apply lookup_lt_Some in Hk).
    apply (FindHeader_loop_found stable bucket name c Hserved Hmax k fuel 0); [done|lia..|done].
  - intros Hnone.
    apply (FindHeader_loop_none stable bucket name c Hserved Hmax fuel 0); [done|lia..|done].
Qed.

End HeaderSearch.

Section SinglePart.
Context {World : Type} `{BlobService World}.
Implicit Types s : World * list Request.

(** X25: a name without special character whose properties are served, and a
    pattern that lists exactly one matching blob, give a reader of one part,
    with no header length, the size of the blob as its only cumulative size
    and as total size, and the cursor at 0; one request is sent and no byte
    is downloaded. *)
Theorem single_part_is_indexed_whole (fuel : nat) (bucket object : string)
    (w : World) (tr : list Request) :
  (FindPatternSpecialChar object = None →
   ∀ size w', GetProperties bucket object w = (Ret size, w') →
     MakeReaderPtr fuel bucket object (w, tr)
     = (Ret (DriverSuccess
               {| bucketname_ := bucket; filename_ := object; offset_ := 0;
                  commonHeaderLength_ := 0; filenames_ := [object];
                  cumulativeSize_ := [size]; total_size_ := size |}),
        (w', tr ++ [ReqGetProperties bucket object])))
  ∧ (∀ pos listing item w',
       FindPatternSpecialChar object = Some pos →
       ListBlobs bucket (String.substring 0 pos object) w = (Ret listing, w') →
       matching object listing = [item] →
       MakeReaderPtr fuel bucket object (w, tr)
       = (Ret (DriverSuccess
                 {| bucketname_ := bucket; filename_ := object; offset_ := 0;
                    commonHeaderLength_ := 0; filenames_ := [Name item];
                    cumulativeSize_ := [BlobSize item]; total_size_ := BlobSize item |}),
          (w', tr ++ [ReqListBlobs bucket (String.substring 0 pos object)]))).
Proof.
  split.
  - intros Hplain size w' Hprops. unfold MakeReaderPtr. rewrite Hplain.
    unfold bind, try_, call, ret. simpl. by rewrite Hprops.
  - intros pos listing item w' Hpattern Hlist Hone. unfold MakeReaderPtr. rewrite Hpattern.
    unfold FilterList, bind, try_, call, ret. simpl. rewrite Hlist. simpl.
    unfold matching in Hone. rewrite Hone. by rewrite bool_decide_eq_false_2 by done.
Qed.

(** X22: when a locator of the blob service opens for reading, the size
    query on the same locator from the same state succeeds, returns the total
    size of the stream that was opened, leaves the driver unchanged and sends
    the requests that the open sent. *)
Theorem getFileSize_is_total_of_opened_stream (fuel : nat) (d : Driver) (filename : string)
    (parsed : ParseUriResult) s (h : Handle) (d' : Driver) s' :
  ParseAzureUri filename = DriverSuccess parsed → service parsed = BLOB →
  allocate (live_handles d) ∉ live_handles d →
  driver_fopen fuel d (Some filename) "r" s = (Ret (h, d'), s') → h ≠ nullptr →
  ∃ r, resolve h (active_reader_handles d') = Some r
       ∧ driver_getFileSize fuel d (Some filename) s = (Ret (total_size_ r, d), s').
Proof.
  intros Hparse Hsvc Hfresh Hopen Hnull.
  unfold live_handles in Hfresh. apply not_elem_of_app in Hfresh as [Hr _].
  unfold driver_fopen in Hopen. unfold driver_getFileSize.
  case_bool_decide; [by injection Hopen as <- <- <-|].
  rewrite Hparse in *. rewrite bool_decide_eq_true_2 in Hopen by done.
  rewrite bool_decide_eq_false_2 by (by intros []).
  apply bind_Ret_inv in Hopen as ([res d1] & s1 & Hreg & Hopen).
  unfold ret in Hopen. injection Hopen as Hfin <-. simpl in Hfin.
  unfold RegisterReader in Hreg.
  apply bind_Ret_inv in Hreg as (maybe & s2 & Hmk & Hreg).
  destruct maybe as [stream|code reason]; injection Hreg as <- <- <-;
    injection Hfin as <- <-; [|done].
  exists stream. split.
  - unfold resolve. cbn [active_reader_handles set_readers].
    by rewrite FindHandle_app_fresh.
  - destruct parsed as [svc bucket object]. simpl in *. subst svc.
    unfold bind. rewrite GetFileSize_as_MakeReaderPtr, Hmk. done.
Qed.

End SinglePart.

(** ** Presence tests *)

Lemma string_back_append (prefix : string) (c : ascii) :
  string_back (prefix +:+ String c "") = Some c.
Proof.
  unfold string_back. rewrite length_append. simpl.
  replace (String.length prefix + 1 - 1)%nat with (String.length prefix + 0)%nat by lia.
  by rewrite get_append_r.
Qed.

Section PresenceProperties.
Context {World : Type} `{BlobService World}.
Implicit Types s : World * list Request.
Variable storage_what : HttpStatusCode → string → string.

(** X26: for a locator that does not parse, or that parses to another service
    than BLOB, [driver_fileExists] answers false without any request, and the
    last error is "Error checking blob's existence: not a URL of a blob
    service.", which replaces the parsing error that was logged first. *)
Theorem fileExists_wants_a_blob_locator (level_ge_debug : bool) (d : Driver)
    (filename : string) s :
  bIsConnected d ≠ kFalse →
  (∀ parsed, ParseAzureUri filename ≠ DriverSuccess parsed)
  ∨ (∃ parsed, ParseAzureUri filename = DriverSuccess parsed ∧ service parsed ≠ BLOB) →
  driver_fileExists storage_what level_ge_debug d (Some filename) s
  = (Ret (kFalse,
          LogError "Error checking blob's existence: not a URL of a blob service." d), s).
Proof.
  intros Hconn Hloc. unfold driver_fileExists. rewrite (connected_test _ Hconn).
  destruct Hloc as [Hfail|(parsed & Hparse & Hsvc)].
  - destruct (ParseAzureUri filename) as [parsed|code reason]; [by destruct (Hfail parsed)|].
    reflexivity.
  - rewrite Hparse. simpl. rewrite bool_decide_eq_true_2 by congruence. done.
Qed.

(** X28: [driver_exist] answers true for every name that ends with a slash,
    without any request and without change of the driver, and is
    [driver_fileExists] for every name that ends with another character. *)
Theorem exist_of_a_directory (level_ge_debug : bool) (d : Driver) (prefix : string) s :
  bIsConnected d ≠ kFalse →
  driver_exist storage_what level_ge_debug d (Some (prefix +:+ "/")) s = (Ret (kTrue, d), s)
  ∧ ∀ c, c ≠ "/"%char →
      driver_exist storage_what level_ge_debug d (Some (prefix +:+ String c "")) s
      = driver_fileExists storage_what level_ge_debug d (Some (prefix +:+ String c "")) s.
Proof.
  intros Hconn. unfold driver_exist. rewrite (connected_test _ Hconn). split.
  - change "/"%string with (String "/" ""). rewrite string_back_append.
    rewrite bool_decide_eq_true_2 by done. unfold driver_dirExists.
    by rewrite (connected_test _ Hconn).
  - intros c Hc. rewrite string_back_append. by rewrite bool_decide_eq_false_2 by done.
Qed.

End PresenceProperties.

(** ** Presence and opening; transfers of no byte *)

Section PresenceAndOpen.
Context {World : Type} `{BlobService World}.
Implicit Types s : World * list Request.
Variable storage_what : HttpStatusCode → string → string.

Lemma fileExists_blob (level_ge_debug : bool) (d : Driver) (filename bucket object : string) s :
  bIsConnected d ≠ kFalse →
  ParseAzureUri filename = DriverSuccess (mkParseUriResult BLOB bucket object) →
  driver_fileExists storage_what level_ge_debug d (Some filename) s
  = match FindPatternSpecialChar object with
    | None =>
        (r <- try_ (call (ReqGetProperties bucket object) (GetProperties bucket object)) ;;
         match r with
         | inr _ => ret (kTrue, d)
         | inl (StorageException code reason) =>
             if bool_decide (code = HttpStatusCode_NotFound) then ret (kFalse, d)
             else ret (kFalse,
                       LogException "Error while checking file's presence."
                         (storage_what code reason) d)
         | inl (std_exception what) =>
             ret (kFalse, LogException "Error while checking file's presence." what d)
         end) s
    | Some pos =>
        (filter_res <- FilterList bucket object pos ;;
         match filter_res with
         | DriverFailure code _ =>
             if level_ge_debug then
               if bool_decide (HttpStatusCode_NotFound = code) then ret (kFalse, d)
               else ret (kFalse,
                         LogBadResult filter_res "Error while listing blobs in container." d)
             else ret (kFalse, d)
         | DriverSuccess _ => ret (kTrue, d)
         end) s
    end.
Proof.
  intros Hconn Hparse. unfold driver_fileExists.
  rewrite (connected_test _ Hconn), Hparse. simpl.
  by destruct (FindPatternSpecialChar object).
Qed.

Lemma fopen_reader (fuel : nat) (d : Driver) (filename bucket object : string) s :
  bIsConnected d ≠ kFalse →
  ParseAzureUri filename = DriverSuccess (mkParseUriResult BLOB bucket object) →
  driver_fopen fuel d (Some filename) "r" s
  = (maybe <- MakeReaderPtr fuel bucket object ;;
     match maybe with
     | DriverFailure code reason =>
         ret (nullptr,
              LogBadResult (DriverFailure (T := Handle) code reason)
                "Error while opening reader stream." d)
     | DriverSuccess stream =>
         ret (allocate (live_handles d),
              set_readers (active_reader_handles d ++ [(allocate (live_handles d), stream)]) d)
     end) s.
Proof.
  intros Hconn Hparse. unfold driver_fopen.
  rewrite (connected_test _ Hconn), Hparse. simpl. unfold RegisterReader, bind, ret.
  destruct (MakeReaderPtr fuel bucket object s) as [[[stream|code reason]|e|f] s1]; done.
Qed.

(** X27: for a locator of the blob service, whenever [driver_fopen] for
    reading returns a handle that is not null, [driver_fileExists] from the
    same state answers true and leaves the driver unchanged.  For a name
    without special character the converse holds too, and a blob reported
    as not found gives the answer false with no error logged. *)
Theorem fileExists_agrees_with_open (level_ge_debug : bool) (fuel : nat) (d : Driver)
    (filename bucket object : string) (w : World) (tr : list Request) :
  bIsConnected d ≠ kFalse →
  ParseAzureUri filename = DriverSuccess (mkParseUriResult BLOB bucket object) →
  allocate (live_handles d) ≠ nullptr →
  (∀ h d' s', driver_fopen fuel d (Some filename) "r" (w, tr) = (Ret (h, d'), s') →
     h ≠ nullptr →
     ∃ s'', driver_fileExists storage_what level_ge_debug d (Some filename) (w, tr)
            = (Ret (kTrue, d), s''))
  ∧ (FindPatternSpecialChar object = None →
     (∀ s', driver_fileExists storage_what level_ge_debug d (Some filename) (w, tr)
            = (Ret (kTrue, d), s') →
        ∃ h d', driver_fopen fuel d (Some filename) "r" (w, tr) = (Ret (h, d'), s')
                ∧ h ≠ nullptr)
     ∧ (∀ reason w',
          GetProperties bucket object w
          = (Throw (StorageException HttpStatusCode_NotFound reason), w') →
          driver_fileExists storage_what level_ge_debug d (Some filename) (w, tr)
          = (Ret (kFalse, d), (w', tr ++ [ReqGetProperties bucket object])))).
Proof.
  intros Hconn Hparse Hnonnull.
  rewrite (fileExists_blob _ _ _ _ _ _ Hconn Hparse), (fopen_reader _ _ _ _ _ _ Hconn Hparse).
  split.
  - intros h d' s' Hopen Hh.
    apply bind_Ret_inv in Hopen as (maybe & s1 & Hmk & Hopen).
    destruct maybe as [stream|code reason]; [|by injection Hopen as <- <- <-].
    clear Hopen. unfold MakeReaderPtr in Hmk.
    destruct (FindPatternSpecialChar object) as [pos|].
    + apply bind_Ret_inv in Hmk as (filter_res & s2 & Hfilter & Hmk).
      destruct filter_res as [blobs_list|code reason]; [|done].
      eexists. by rewrite (bind_Ret _ _ _ _ _ Hfilter).
    + apply bind_Ret_inv in Hmk as (r & s2 & Htry & Hmk).
      destruct r as [[code reason|what]|size]; [done..|].
      eexists. by rewrite (bind_Ret _ _ _ _ _ Htry).
  - intros Hplain. unfold MakeReaderPtr. rewrite Hplain. split.
    + intros s' Hexists.
      apply bind_Ret_inv in Hexists as (r & s1 & Htry & Hexists).
      destruct r as [[code reason|what]|size].
      * by case_bool_decide.
      * done.
      * injection Hexists as <-. eexists _, _.
        rewrite (bind_Ret _ _ _ _ _ (bind_Ret _ _ _ _ _ Htry)). done.
    + intros reason w' Hprops. unfold bind, try_, call, ret. simpl. by rewrite Hprops.
Qed.

(** X14: on an open stream, a transfer with [size = 0] fails with [kBadSize]
    and the error of the function ("Error passing size of 0" for a read,
    "Error passing size 0 to fwrite" for a write), whereas a transfer with
    [count = 0] and a size that is not 0 returns 0, sends no request and
    changes neither the driver nor the buffer. *)
Theorem zero_length_transfers (d : Driver) (buffer : list byte) (size count : Z)
    (stream : Handle) s :
  bIsConnected d ≠ kFalse → stream ≠ nullptr →
  (stream ∈ (active_reader_handles d).*1 →
     driver_fread d (Some buffer) 0 count stream s
       = (Ret (kBadSize, LogError "Error passing size of 0" d, Some buffer), s)
     ∧ (size ≠ 0 →
        driver_fread d (Some buffer) size 0 stream s = (Ret (0, d, Some buffer), s)))
  ∧ (stream ∈ (active_writer_handles d).*1 →
     driver_fwrite storage_what d (Some buffer) 0 count stream s
       = (Ret (kBadSize, LogError "Error passing size 0 to fwrite" d), s)
     ∧ (size ≠ 0 →
        driver_fwrite storage_what d (Some buffer) size 0 stream s = (Ret (0, d), s))).
Proof.
  intros Hconn Hnull. split.
  - intros Hin.
    destruct (FindReader stream d) as [[pos [h reader]]|] eqn:Hfind;
      [|by apply FindHandle_None in Hfind].
    unfold driver_fread.
    rewrite (connected_test _ Hconn), (bool_decide_eq_false_2 (stream = nullptr)) by done.
    split; [done|]. intros Hsize.
    rewrite (bool_decide_eq_false_2 (0 = size)) by congruence. by rewrite Hfind.
  - intros Hin.
    destruct (FindWriter stream d) as [[pos [h writer]]|] eqn:Hfind;
      [|by apply FindHandle_None in Hfind].
    unfold driver_fwrite.
    rewrite (connected_test _ Hconn), (bool_decide_eq_false_2 (stream = nullptr)) by done.
    split; [done|]. intros Hsize.
    rewrite (bool_decide_eq_false_2 (0 = size)) by congruence. by rewrite Hfind.
Qed.

End PresenceAndOpen.

(** ** The bytes that a read delivers *)

Lemma elided_stream_le (L : nat) (contents : list (list byte)) :
  byte_length (elided_stream L contents) ≤ byte_length (concat contents).
Proof.
  unfold byte_length, elided_stream. destruct contents as [|c0 rest]; [done|]. simpl.
  rewrite !length_app.
  assert (length (concat (drop L <$> rest)) ≤ length (concat rest))%nat; [|lia].
  clear. induction rest as [|x xs IH]; csimpl; [done|].
  rewrite !length_app, length_drop. lia.
Qed.

Section Delivery.
Context {World : Type} `{BlobService World}.
Implicit Types s : World * list Request.

Variable stable : World → Prop.
Variables (bucket : string) (names : list string) (contents : list (list byte)) (L : nat).

Hypothesis Hnames : length names = length contents.
Hypothesis Hshared : ∀ i c, contents !! S i = Some c → (L ≤ length c)%nat.
Hypothesis Hmax : byte_length (concat contents) ≤ max_val.
Hypothesis Hserves : serves stable bucket names contents.

Lemma ReadBytesInFile_delivers (r : Reader) (buffer : list byte) (o t : nat)
    (w : World) (tr : list Request) :
  indexes bucket names contents L r → offset_ r = Z.of_nat o →
  (0 < t)%nat → (o + t ≤ length (elided_stream L contents))%nat → (t ≤ length buffer)%nat →
  stable w →
  ∃ w' reqs,
    ReadBytesInFile r buffer (Z.of_nat t) (w, tr)
    = (Ret (DriverSuccess 0, set_offset r (Z.of_nat (o + t)),
            take t (drop o (elided_stream L contents)) ++ drop t buffer),
       (w', tr ++ reqs))
    ∧ stable w'.
Proof.
  intros Hidx Hoff Ht Hend Hbuf Hw. pose proof Hidx as (Hb & Hf & Hc & Hl & Htot).
  unfold elided_stream in *.
  set (lps := logical_parts L contents) in *.
  destruct (upper_bound_spec lps o) as (lp & Hlp & Hlo & Hhi); [lia|].
  unfold ReadBytesInFile. rewrite Hc, Hf, Hb, Hl, Hoff.
  unfold cumulative_logical_sizes. fold lps.
  set (idx := upper_bound (cumulative 0 (byte_length <$> lps)) (Z.of_nat o)) in *.
  assert (idx < length contents)%nat as Hlt.
  { apply lookup_lt_Some in Hlp. unfold lps in Hlp. by rewrite logical_parts_length in Hlp. }
  destruct (lookup_lt_is_Some_2 contents idx Hlt) as [c Hcont].
  destruct (lookup_lt_is_Some_2 names idx) as [name Hname]; [lia|].
  pose proof (part_length_le stable bucket names contents L Hnames Hshared Hmax Hserves
                _ _ Hcont) as Hcmax.
  assert (byte_length (concat lps) ≤ max_val) as Hsmax.
  { etrans; [|exact Hmax]. unfold byte_length, lps.
    destruct contents as [|c0 rest]; [done|]. simpl. rewrite !length_app.
    assert (length (concat (drop L <$> rest)) ≤ length (concat rest))%nat; [|lia].
    clear. induction rest as [|x xs IH]; csimpl; [done|].
    rewrite !length_app, length_drop. lia. }
  set (before := concat (take idx lps)) in *.
  set (rest := concat (drop (S idx) lps)).
  assert (concat lps = before ++ lp ++ rest) as Hsplit by (by apply concat_split_at).
  rewrite Hsplit in Hend. rewrite !length_app in Hend.
  pose proof (f_equal length Hsplit) as Hsl. rewrite !length_app in Hsl.
  (* the bytes of the first part involved *)
  remember (o - length before)%nat as skip eqn:Hskip.
  remember (t `min` (length lp - skip))%nat as len eqn:Hmin.
  assert (∃ start : nat,
            (start + len ≤ length c)%nat ∧ take len (drop start c) = take len (drop skip lp)
            ∧ Z.of_nat start = (if bool_decide (idx = 0%nat) then Z.of_nat o
                                else Z.of_nat o - byte_length before + Z.of_nat L))
    as (start & Hstart & Hdata & Hphys).
  { destruct idx as [|k] eqn:Hk.
    - exists o. unfold lps in Hlp. rewrite (logical_parts_lookup_0 _ _ _ Hcont) in Hlp.
      injection Hlp as <-. subst before. simpl in *.
      replace skip with o by lia. split_and!; [lia|done|done].
    - exists (skip + L)%nat. unfold lps in Hlp.
      rewrite (logical_parts_lookup_S _ _ _ _ Hcont) in Hlp. injection Hlp as <-.
      pose proof (Hshared _ _ Hcont). rewrite length_drop in *.
      split_and!; [lia| |].
      + by rewrite drop_drop, (Nat.add_comm L skip).
      + rewrite bool_decide_eq_false_2 by done. unfold byte_length. lia. }
  assert (cumulative 0 (byte_length <$> lps) !! idx
          = Some (byte_length before + byte_length lp)) as Hcur.
  { rewrite cumulative_lookup by (unfold lps; by rewrite logical_parts_length).
    rewrite (concat_take_S _ _ _ Hlp). fold before. unfold byte_length.
    rewrite length_app. f_equal. lia. }
  assert (idx ≠ 0%nat →
          cumulative 0 (byte_length <$> lps) !! (idx - 1)%nat = Some (byte_length before))
    as Hprev.
  { intros Hne. rewrite cumulative_lookup by (unfold lps; rewrite logical_parts_length; lia).
    replace (S (idx - 1)) with idx by lia. done. }
  unfold byte_length in *.
  rewrite (bind_Ret _ _ _ _ _ (at_Some _ _ _ _ Hcur)).
  assert ((if bool_decide (idx = 0%nat) then ret (Z.of_nat o)
           else prev <- at_ (cumulative 0 (byte_length <$> lps)) (idx - 1) ;;
                ret (add64 (sub64 (Z.of_nat o) prev) (Z.of_nat L))) (w, tr)
          = (Ret (Z.of_nat start), (w, tr))) as Hfs.
  { case_bool_decide as Hz; [by rewrite Hphys|].
    rewrite (bind_Ret _ _ _ _ _ (at_Some _ _ _ _ (Hprev Hz))). unfold ret.
    rewrite Hphys.
    rewrite sub64_id by (unfold in_int64, min_val, max_val in *; lia).
    rewrite add64_id by (unfold in_int64, min_val, max_val in *; lia). done. }
  rewrite (bind_Ret _ _ _ _ _ Hfs).
  rewrite sub64_id by (unfold in_int64, min_val, max_val in *; lia).
  replace (Z.of_nat t `min` (Z.of_nat (length before) + Z.of_nat (length lp) - Z.of_nat o))
    with (Z.of_nat len) by lia.
  rewrite (bind_Ret _ _ _ _ _ (at_Some _ _ _ _ Hname)).
  edestruct (read_range_and_update_serves stable bucket names contents Hnames Hserves
               idx name c start len) as (w1 & Hdl & Hw1);
    [exact Hname | exact Hcont | exact Hstart | exact Hw |].
  rewrite (bind_Ret _ _ _ _ _ (try_Ret _ _ _ _ Hdl)). simpl.
  rewrite add64_id by (unfold in_int64, min_val, max_val in *; lia).
  rewrite sub64_id by (unfold in_int64, min_val, max_val in *; lia).
  replace (Z.of_nat t - Z.of_nat len) with (Z.of_nat (t - len)) by lia.
  replace (Z.of_nat o + Z.of_nat len) with (Z.of_nat (o + len)) by lia.
  rewrite Hdata. rewrite cumulative_length, length_fmap. unfold lps at 1.
  rewrite logical_parts_length.
  assert (length (take len (drop skip lp)) = len) as Hlen
    by (rewrite length_take, length_drop; lia).
  edestruct (ReadBytesInFile_next_spanning stable bucket names contents L Hnames Hshared
               Hmax Hserves r (Z.of_nat o) (length contents) Hidx idx
               (Z.of_nat (o + len)) len (t - len)%nat
               (blit (take len (drop skip lp)) 0 buffer) w1
               (tr ++ [ReqDownloadTo bucket name (Z.of_nat start) (Z.of_nat len)]))
    as (w' & reqs & Hrun & Hreqs & Hw').
  - done.
  - lia.
  - destruct (decide (t ≤ length lp - skip)%nat); [left; lia|right].
    unfold cumulative_logical_sizes, byte_length. fold lps. rewrite Hcur. f_equal. lia.
  - fold lps. fold rest. lia.
  - rewrite blit_length by (simpl; lia). lia.
  - lia.
  - lia.
  - done.
  - exists w', (ReqDownloadTo bucket name (Z.of_nat start) (Z.of_nat len) :: reqs).
    split; [|done].
    change (0 + Z.of_nat len) with (Z.of_nat len). change (Z.to_nat 0) with 0%nat.
    rewrite Hrun.
    f_equal; [|by rewrite <- (assoc_L (++))]. f_equal. f_equal.
    + do 2 f_equal. lia.
    + fold lps. fold rest. rewrite Hsplit.
      pose proof (blit_take (take len (drop skip lp)) 0 buffer) as Htake.
      pose proof (blit_drop (take len (drop skip lp)) 0 buffer t) as Hdrop.
      rewrite Hlen in Htake, Hdrop. simpl in Htake, Hdrop.
      rewrite Htake by lia.
      replace (len + (t - len))%nat with t by lia. rewrite Hdrop by lia.
      rewrite (assoc_L (++)). f_equal.
      rewrite drop_app_ge by lia. rewrite <- Hskip.
      rewrite drop_app_le by lia. rewrite take_app, length_drop.
      f_equal; [|f_equal; lia].
      destruct (decide (t ≤ length lp - skip)%nat).
      * by replace len with t by lia.
      * replace len with (length lp - skip)%nat by lia.
        by rewrite !take_ge by (rewrite length_drop; lia).
Qed.

Lemma driver_fread_delivers (d : Driver) (buffer : list byte) (size count : Z)
    (stream : Handle) (pos : nat) (r : Reader) (o n : nat) (w : World) (tr : list Request) :
  bIsConnected d ≠ kFalse → stream ≠ nullptr →
  FindReader stream d = Some (pos, (stream, r)) →
  indexes bucket names contents L r → offset_ r = Z.of_nat o →
  0 < size → 0 < count → size * count ≤ max_val - Z.of_nat o →
  (o < length (elided_stream L contents))%nat →
  Z.of_nat n = Z.min (size * count) (byte_length (elided_stream L contents) - Z.of_nat o) →
  (n ≤ length buffer)%nat → stable w →
  ∃ w' reqs,
    driver_fread d (Some buffer) size count stream (w, tr)
    = (Ret (Z.of_nat n,
            set_readers (<[pos := (stream, set_offset r (Z.of_nat (o + n)))]>
                           (active_reader_handles d)) d,
            Some (take n (drop o (elided_stream L contents)) ++ drop n buffer)),
       (w', tr ++ reqs))
    ∧ stable w'.
Proof.
  intros Hconn Hnull Hfind Hidx Hoff Hsize Hcount Hfit Ho Hn Hbuf Hw.
  pose proof Hidx as (_ & _ & _ & _ & Htot). pose proof (elided_stream_le L contents) as Hle.
  unfold byte_length in *.
  assert (0 ≤ Z.of_nat o) by lia.
  destruct (no_product_overflow size count Hsize Hcount) as [_ Hprod];
    [apply product_fits; lia|].
  unfold driver_fread.
  rewrite (connected_test _ Hconn), (bool_decide_eq_false_2 (stream = nullptr)) by done.
  rewrite (bool_decide_eq_false_2 (0 = size)) by lia. rewrite Hfind.
  rewrite (bool_decide_eq_false_2 (0 = count)) by lia.
  rewrite product_fits by lia. rewrite Hprod, Hoff, Htot.
  rewrite sub64_id by (unfold in_int64, min_val, max_val in *; nia).
  rewrite bool_decide_eq_false_2 by lia.
  rewrite bool_decide_eq_false_2 by lia.
  change (if bool_decide (add64 (Z.of_nat o) (size * count)
                          > Z.of_nat (length (elided_stream L contents)))
          then sub64 (Z.of_nat (length (elided_stream L contents))) (Z.of_nat o)
          else size * count)
    with (clamped (Z.of_nat o) (Z.of_nat (length (elided_stream L contents))) (size * count)).
  rewrite clamped_min by (lia || nia). rewrite <- Hn.
  destruct (ReadBytesInFile_delivers r buffer o n w tr) as (w' & reqs & Hread & Hw');
    [done|done|nia|lia|done|done|].
  rewrite (bind_Ret _ _ _ _ _ Hread). simpl. by exists w', reqs.
Qed.

(** X12: on a reader whose index describes parts that the store serves, a
    read of [size * count] bytes at a cursor [o] before the end, [o] plus the
    request being within [long long], returns [n], the smaller of the
    request and of what remains, writes the bytes
    [o .. o + n) of the stream without the repeated headers at the start of
    the buffer, keeps the rest of the buffer, and moves the cursor to
    [o + n]. *)
Theorem fread_delivers_the_logical_bytes (d : Driver) (buffer : list byte) (size count : Z)
    (stream : Handle) (pos : nat) (r : Reader) (o n : nat) (w : World) (tr : list Request) :
  bIsConnected d ≠ kFalse → stream ≠ nullptr →
  FindReader stream d = Some (pos, (stream, r)) →
  indexes bucket names contents L r → offset_ r = Z.of_nat o →
  0 < size → 0 < count → size * count ≤ max_val - Z.of_nat o →
  (o < length (elided_stream L contents))%nat →
  Z.of_nat n = Z.min (size * count) (byte_length (elided_stream L contents) - Z.of_nat o) →
  (n ≤ length buffer)%nat → stable w →
  ∃ d' buffer' w' reqs,
    driver_fread d (Some buffer) size count stream (w, tr)
    = (Ret (Z.of_nat n, d', Some buffer'), (w', tr ++ reqs))
    ∧ buffer' = take n (drop o (elided_stream L contents)) ++ drop n buffer
    ∧ cursor d' stream = Some (Z.of_nat (o + n))
    ∧ stable w'.
Proof.
  intros Hconn Hnull Hfind Hidx Hoff Hsize Hcount Hfit Ho Hn Hbuf Hw.
  destruct (driver_fread_delivers d buffer size count stream pos r o n w tr)
    as (w' & reqs & Hread & Hw'); [done..|].
  eexists _, _, w', reqs. split_and!; [exact Hread|done| |done].
  by apply cursor_after_seek.
Qed.

(** X13: two reads of [a] then [b] bytes on the same handle deliver, one
    after the other, the bytes that one read of [a + b] bytes delivers from
    the same cursor, and leave the same driver state, when the [a + b] bytes
    lie before the end of the stream. *)
Theorem consecutive_reads_concatenate (d : Driver) (first second both : list byte)
    (stream : Handle) (pos : nat) (r : Reader) (o a b : nat) (w : World) (tr : list Request) :
  bIsConnected d ≠ kFalse → stream ≠ nullptr →
  FindReader stream d = Some (pos, (stream, r)) →
  indexes bucket names contents L r → offset_ r = Z.of_nat o →
  (0 < a)%nat → (0 < b)%nat → (o + a + b ≤ length (elided_stream L contents))%nat →
  length first = a → length second = b → length both = (a + b)%nat → stable w →
  ∃ d1 first' s1 d2 second' s2 both' s3,
    driver_fread d (Some first) 1 (Z.of_nat a) stream (w, tr)
    = (Ret (Z.of_nat a, d1, Some first'), s1)
    ∧ driver_fread d1 (Some second) 1 (Z.of_nat b) stream s1
      = (Ret (Z.of_nat b, d2, Some second'), s2)
    ∧ driver_fread d (Some both) 1 (Z.of_nat (a + b)) stream (w, tr)
      = (Ret (Z.of_nat (a + b), d2, Some both'), s3)
    ∧ first' ++ second' = both'
    ∧ both' = take (a + b) (drop o (elided_stream L contents)).
Proof.
  intros Hconn Hnull Hfind Hidx Hoff Ha Hb Hend Hfirst Hsecond Hboth Hw.
  pose proof (elided_stream_le L contents) as Hle. unfold byte_length in *.
  destruct (driver_fread_delivers d first 1 (Z.of_nat a) stream pos r o a w tr)
    as (w1 & reqs1 & Hread1 & Hw1); [try (unfold byte_length; lia); done..|].
  set (d1 := set_readers (<[pos := (stream, set_offset r (Z.of_nat (o + a)))]>
                            (active_reader_handles d)) d) in *.
  assert (FindReader stream d1 = Some (pos, (stream, set_offset r (Z.of_nat (o + a)))))
    as Hfind1 by (unfold FindReader in *; by apply (FindHandle_insert _ _ _ r)).
  destruct (driver_fread_delivers d1 second 1 (Z.of_nat b) stream pos
              (set_offset r (Z.of_nat (o + a))) (o + a) b w1 (tr ++ reqs1))
    as (w2 & reqs2 & Hread2 & Hw2); [try (unfold byte_length; lia); done..|].
  destruct (driver_fread_delivers d both 1 (Z.of_nat (a + b)) stream pos r o (a + b) w tr)
    as (w3 & reqs3 & Hread3 & Hw3); [try (unfold byte_length; lia); done..|].
  eexists _, _, _, _, _, _, _, _. split_and!; [exact Hread1|exact Hread2| | |].
  - rewrite Hread3. do 3 f_equal. unfold d1, set_readers. simpl.
    rewrite list_insert_insert_eq. unfold set_offset. simpl.
    by replace (o + (a + b))%nat with (o + a + b)%nat by lia.
  - rewrite (drop_ge first), (drop_ge second), (drop_ge both), !app_nil_r by lia.
    rewrite <- (take_drop a (take (a + b) _)). f_equal.
    + rewrite take_take. f_equal. lia.
    + rewrite <- take_drop_commute, drop_drop. done.
  - by rewrite (drop_ge both), app_nil_r by lia.
Qed.

End Delivery.

(** ** A read request against the end of the data *)

Section ReadRequest.
Context {World : Type} `{BlobService World}.
Implicit Types s : World * list Request.

Variable stable : World → Prop.
Variables (bucket : string) (names : list string) (contents : list (list byte)) (L : nat).

Hypothesis Hnames : length names = length contents.
Hypothesis Hshared : ∀ i c, contents !! S i = Some c → (L ≤ length c)%nat.
Hypothesis Hmax : byte_length (concat contents) ≤ max_val.
Hypothesis Hserves : serves stable bucket names contents.

(** C4 (amended): for a non-zero request on a reader whose index describes
    the parts that the store serves, [driver_fread] fails when the cursor is
    at or past the total logical size; it refuses a request whose product
    [size * count] exceeds the largest 64-bit signed integer, and one whose
    sum with the cursor does, wherever the cursor is; otherwise, with the
    cursor before the end and a buffer that holds them, it delivers exactly
    [n = min (size * count) (total - offset)] bytes: the bytes
    [offset .. offset + n) of the logical stream are stored at the start of
    the buffer, [n] is returned and the cursor moves by [n]. *)
Theorem fread_clamps_request (d : Driver) (buffer : list byte) (size count : Z)
    (stream : Handle) (pos : nat) (r : Reader) (o : nat) (w : World) (tr : list Request) :
  bIsConnected d ≠ kFalse → stream ≠ nullptr →
  FindReader stream d = Some (pos, (stream, r)) →
  indexes bucket names contents L r → offset_ r = Z.of_nat o →
  0 < size → 0 < count →
  (byte_length (elided_stream L contents) ≤ Z.of_nat o →
     ∃ msg, driver_fread d (Some buffer) size count stream (w, tr)
            = (Ret (kBadSize, LogError msg d, Some buffer), (w, tr)))
  ∧ (max_val < size * count →
     driver_fread d (Some buffer) size count stream (w, tr)
     = (Ret (kBadSize, LogError "product size * count is too large, would overflow" d,
             Some buffer), (w, tr)))
  ∧ (size * count ≤ max_val → max_val - Z.of_nat o < size * count →
     driver_fread d (Some buffer) size count stream (w, tr)
     = (Ret (kBadSize, LogError "signed overflow prevented on reading attempt" d,
             Some buffer), (w, tr)))
  ∧ (∀ n : nat,
       Z.of_nat o < byte_length (elided_stream L contents) →
       size * count ≤ max_val - Z.of_nat o →
       Z.of_nat n
       = Z.min (size * count) (byte_length (elided_stream L contents) - Z.of_nat o) →
       (n ≤ length buffer)%nat → stable w →
       ∃ d' s',
         driver_fread d (Some buffer) size count stream (w, tr)
         = (Ret (Z.of_nat n, d',
                 Some (take n (drop o (elided_stream L contents)) ++ drop n buffer)), s')
         ∧ cursor d' stream = Some (Z.of_nat o + Z.of_nat n)).
Proof.
  intros Hconn Hnull Hfind Hidx Hoff Hsize Hcount.
  pose proof Hidx as (_ & _ & _ & _ & Htot).
  assert (∀ A (x y : A), (if bool_decide (kFalse = bIsConnected d) then x else y) = y) as Hc
    by (intros; by rewrite bool_decide_eq_false_2 by (intros Hk; by apply Hconn)).
  split_and!.
  - intros Hpast. unfold driver_fread.
    rewrite Hc, (bool_decide_eq_false_2 (stream = nullptr)) by done.
    rewrite (bool_decide_eq_false_2 (0 = size)) by lia. rewrite Hfind.
    rewrite (bool_decide_eq_false_2 (0 = count)) by lia.
    destruct (WillSizeCountProductOverflow size count); [by eexists|].
    rewrite (bool_decide_eq_true_2 (offset_ r >= total_size_ r)) by lia.
    destruct (bool_decide (offset_ r > _)); by eexists.
  - intros Hover. unfold driver_fread.
    rewrite Hc, (bool_decide_eq_false_2 (stream = nullptr)) by done.
    rewrite (bool_decide_eq_false_2 (0 = size)) by lia. rewrite Hfind.
    rewrite (bool_decide_eq_false_2 (0 = count)) by lia.
    by rewrite product_overflow.
  - intros Hprod Hsum. unfold driver_fread.
    rewrite Hc, (bool_decide_eq_false_2 (stream = nullptr)) by done.
    rewrite (bool_decide_eq_false_2 (0 = size)) by lia. rewrite Hfind.
    rewrite (bool_decide_eq_false_2 (0 = count)) by lia.
    pose proof (product_fits size count Hsize Hcount Hprod) as Hfits. rewrite Hfits.
    apply no_product_overflow in Hfits as [_ ->]; [|lia..].
    rewrite (sub64_id max_val) by (unfold in_int64, min_val, max_val in *; nia).
    by rewrite bool_decide_eq_true_2 by lia.
  - intros n Hbefore Hfit Hn Hbuf Hw.
    destruct (driver_fread_delivers stable bucket names contents L Hnames Hshared Hmax Hserves
                d buffer size count stream pos r o n w tr)
      as (w' & reqs & Hread & _); [try done; unfold byte_length in *; lia..|].
    eexists _, _. split; [exact Hread|].
    rewrite (cursor_after_seek _ _ _ _ _ Hfind). f_equal. lia.
Qed.

End ReadRequest.

(** ** Opening a file of several parts and reading it *)

Section OpenAndRead.
Context {World : Type} `{BlobService World}.
Implicit Types s : World * list Request.

Variable stable : World → Prop.
Variables (fuel : nat) (bucket object : string) (pos : nat).
Variables (first : BlobItem) (next : list BlobItem) (c0 : list byte) (cs : list (list byte)).
Variables (w : World) (tr : list Request) (w1 : World) (tr1 : list Request).
Variable k : nat.

Hypothesis Hpattern : FindPatternSpecialChar object = Some pos.
Hypothesis Hlisting :
  FilterList bucket object pos (w, tr) = (Ret (DriverSuccess (first :: next)), (w1, tr1)).
Hypothesis Hstable : stable w1.
Hypothesis Hmulti : next ≠ [].
Hypothesis Hparts : Forall2 (lists stable bucket) (first :: next) (c0 :: cs).
Hypothesis Hmax : byte_length (concat (c0 :: cs)) ≤ max_val.
Hypothesis Hfuel : (length c0 < fuel)%nat.
Hypothesis Hk : first_newline_at c0 k.
Hypothesis Hall : Forall (λ c, take (S k) c = take (S k) c0) cs.

Lemma shared_parts_are_long : ∀ i c, (c0 :: cs) !! S i = Some c → (S k ≤ length c)%nat.
Proof.
  intros i c Hc. simpl in Hc. rewrite Forall_lookup in Hall. specialize (Hall i c Hc).
  simpl in Hall. apply (f_equal length) in Hall. rewrite !length_take in Hall.
  destruct Hk as [Hk0 _]. apply lookup_lt_Some in Hk0. lia.
Qed.

Lemma listed_parts_are_served : serves stable bucket (Name <$> first :: next) (c0 :: cs).
Proof.
  intros i name c Hname Hc. rewrite list_lookup_fmap in Hname.
  destruct ((first :: next) !! i) as [item|] eqn:Hitem; [|done]. simpl in Hname.
  injection Hname as <-.
  by destruct (Forall2_lookup_lr _ _ _ _ _ _ Hparts Hitem Hc).
Qed.

Lemma MakeReaderPtr_shared_index :
  ∃ r w' tr',
    MakeReaderPtr fuel bucket object (w, tr) = (Ret (DriverSuccess r), (w', tr'))
    ∧ stable w' ∧ offset_ r = 0
    ∧ indexes bucket (Name <$> first :: next) (c0 :: cs) (S k) r.
Proof.
  destruct (header_found stable fuel bucket first next c0 cs w1 tr1 Hstable Hparts Hmax
              Hfuel k Hk) as (w2 & hreqs & Hheader & Hhreqs & Hw2 & HL).
  set (header := take (S k) c0) in *.
  assert (length (replicate (length header) "000"%byte) = length header) as Hbuf
    by apply length_replicate.
  pose proof (next_parts stable bucket first next c0 cs Hparts) as Hnext.
  assert (Forall (λ c, take (length header) c = header) cs) as Hall' by (by rewrite HL).
  assert (Forall (λ c, S k ≤ length c)%nat cs) as Hlong.
  { apply Forall_lookup. intros i c Hc. by apply (shared_parts_are_long i). }
  destruct (GetFileSize_next_same stable bucket header next cs (BlobSize first) _ w2
              (tr1 ++ hreqs) Hnext Hall' Hbuf Hw2) as (w3 & Hloop & Hw3).
  pose proof (MakeReaderPtr_next_as_GetFileSize_next bucket header next [Name first]
                [BlobSize first] (BlobSize first) true
                (replicate (length header) "000"%byte) (w2, tr1 ++ hreqs) eq_refl) as Hmk.
  rewrite Hloop in Hmk.
  eexists _, _, _.
  rewrite (MakeReaderPtr_multi stable fuel bucket object pos first next c0 cs w tr w1 tr1
             Hpattern Hlisting Hmulti Hparts).
  rewrite (bind_Ret _ _ _ _ _ (try_Ret _ _ _ _
             (eq_trans (bind_Ret _ _ _ _ _ Hheader) (bind_Ret _ _ _ _ _ Hmk)))).
  simpl.
  rewrite (cumulative_sizes_of_parts stable fuel bucket first next c0 cs Hparts Hmax Hfuel), HL.
  rewrite elide_headers_logical by done.
  split; [done|]. split; [done|]. split; [done|].
  unfold indexes, make_Reader. simpl. split_and!; [done..|].
  unfold cumulative_logical_sizes. by rewrite cumulative_last.
Qed.

(** X20: for a pattern that lists several parts which the store serves and
    which all begin with the first line of the first part, opening the
    locator for reading returns a handle that is not null, and a first read of
    [n] bytes on it delivers the first [n] bytes of the first part followed by
    the other parts without their first line, and leaves the cursor at [n]. *)
Theorem open_then_read_delivers_the_elided_stream (d : Driver) (filename : string)
    (buffer : list byte) (n : nat) :
  bIsConnected d ≠ kFalse →
  ParseAzureUri filename = DriverSuccess (mkParseUriResult BLOB bucket object) →
  allocate (live_handles d) ≠ nullptr → allocate (live_handles d) ∉ live_handles d →
  (0 < n ≤ length buffer)%nat → (n ≤ length (elided_stream (S k) (c0 :: cs)))%nat →
  ∃ h d1 s1 d2 s2,
    driver_fopen fuel d (Some filename) "r" (w, tr) = (Ret (h, d1), s1) ∧ h ≠ nullptr
    ∧ driver_fread d1 (Some buffer) 1 (Z.of_nat n) h s1
      = (Ret (Z.of_nat n, d2,
              Some (take n (elided_stream (S k) (c0 :: cs)) ++ drop n buffer)), s2)
    ∧ cursor d2 h = Some (Z.of_nat n).
Proof.
  intros Hconn Hparse Hnonnull Hfresh Hn Hend.
  destruct MakeReaderPtr_shared_index as (r & w' & tr' & Hmk & Hw' & Hoff & Hidx).
  set (h := allocate (live_handles d)) in *.
  set (d1 := set_readers (active_reader_handles d ++ [(h, r)]) d).
  assert (driver_fopen fuel d (Some filename) "r" (w, tr) = (Ret (h, d1), (w', tr'))) as Hopen.
  { unfold driver_fopen. rewrite (connected_test _ Hconn), Hparse. simpl.
    unfold RegisterReader. by rewrite (bind_Ret _ _ _ _ _ (bind_Ret _ _ _ _ _ Hmk)). }
  unfold live_handles in Hfresh. apply not_elem_of_app in Hfresh as [Hr _].
  assert (FindReader h d1 = Some (length (active_reader_handles d), (h, r))) as Hfind
    by (by apply FindHandle_app_fresh).
  pose proof (Forall2_length _ _ _ Hparts) as Hlen.
  pose proof (elided_stream_le (S k) (c0 :: cs)) as Hle. unfold byte_length in Hle, Hmax.
  destruct (driver_fread_delivers stable bucket (Name <$> first :: next) (c0 :: cs) (S k)
              ltac:(by rewrite length_fmap) shared_parts_are_long Hmax
              listed_parts_are_served d1 buffer 1 (Z.of_nat n) h
              (length (active_reader_handles d)) r 0 n w' tr')
    as (w2 & reqs & Hread & Hw2); [try (unfold byte_length; lia); done..|].
  eexists h, d1, _, _, _. split_and!; [exact Hopen|done|exact Hread|].
  by apply cursor_after_seek.
Qed.

End OpenAndRead.

(** ** Copy to a local file *)

Lemma take_concat_prefix (before lp rest : list byte) (j : nat) :
  (j ≤ length lp)%nat →
  take (length before + j) (before ++ lp ++ rest) = before ++ take j lp.
Proof.
  intros Hj. rewrite take_app_ge by lia.
  replace (length before + j - length before)%nat with j by lia.
  by rewrite take_app_le by lia.
Qed.

Lemma concat_take_le (parts : list (list byte)) (i : nat) :
  (length (concat (take i parts)) ≤ length (concat parts))%nat.
Proof.
  rewrite <- (take_drop i parts) at 2. rewrite concat_app, length_app. lia.
Qed.

Lemma concat_take_mono (parts : list (list byte)) (i k : nat) :
  (i ≤ k)%nat → (length (concat (take i parts)) ≤ length (concat (take k parts)))%nat.
Proof.
  intros Hik. replace i with (i `min` k)%nat by lia. rewrite <- take_take.
  apply concat_take_le.
Qed.

Section Copy.
Context {World : Type} `{BlobService World}.
Implicit Types s : World * list Request.

Variable storage_what : HttpStatusCode → string → string.
Variable ofstream_is_open : string → bool.
Variable ofstream_write_ok : string → list byte → list byte → bool.

Variable stable : World → Prop.
Variables (bucket : string) (names : list string) (contents : list (list byte)) (L : nat).
Variable dest : string.

Hypothesis Hnames : length names = length contents.
Hypothesis Hshared : ∀ i c, contents !! S i = Some c → (L ≤ length c)%nat.
Hypothesis Hmax : byte_length (concat contents) ≤ max_val.
Hypothesis Hserves : serves stable bucket names contents.
Hypothesis Hwrites : ∀ written chunk, ofstream_write_ok dest written chunk = true.

Lemma copyToLocal_loop_copies (r : Reader) :
  indexes bucket names contents L r →
  ∀ turns p o relay w tr,
  (p ≤ length contents)%nat →
  (length (concat (take p (logical_parts L contents))) ≤ o)%nat →
  (o ≤ length (concat (take (S p) (logical_parts L contents))))%nat →
  (0 < length relay)%nat → stable w →
  (length (elided_stream L contents) - o + (length contents - p) < turns)%nat →
  ∃ w' tr',
    copyToLocal_loop storage_what ofstream_write_ok turns r dest (Z.of_nat o) p
      {| os_good := true; os_written := take o (elided_stream L contents) |} relay (w, tr)
    = (Ret (None, byte_length (elided_stream L contents),
            {| os_good := true; os_written := elided_stream L contents |}), (w', tr'))
    ∧ stable w'.
Proof.
  intros Hidx. pose proof Hidx as (Hb & Hf & Hc & Hl & Htot).
  pose proof (elided_stream_le L contents) as Hle.
  unfold elided_stream, byte_length in *.
  set (lps := logical_parts L contents) in *.
  assert (length lps = length contents) as Hlps by apply logical_parts_length.
  induction turns as [|turns IH]; intros p o relay w tr Hp Hlo Hhi Hrelay Hw Hturns; [lia|].
  pose proof (concat_take_le lps (S p)) as Hall.
  cbn [copyToLocal_loop]. rewrite Hf, Hc, Hl, Htot, Hb. cbn [os_good andb].
  destruct (decide (o < length (concat lps) ∧ p < length contents)%nat) as [[Ho Hpn]|Hend].
  2:{ assert (o = length (concat lps)) as ->.
      { destruct (decide (p < length contents)%nat); [lia|].
        rewrite take_ge in Hlo by lia. lia. }
      exists w, tr. split; [|done].
      rewrite (bool_decide_eq_false_2 (_ < _)) by lia. simpl.
      by rewrite take_ge by lia. }
  rewrite (bool_decide_eq_true_2 (Z.of_nat o < _)) by lia.
  rewrite (bool_decide_eq_true_2 (p < length names)%nat) by lia. cbn [andb].
  destruct (lookup_lt_is_Some_2 lps p) as [lp Hlp]; [lia|].
  destruct (lookup_lt_is_Some_2 contents p Hpn) as [c Hcont].
  destruct (lookup_lt_is_Some_2 names p) as [name Hname]; [lia|].
  pose proof (part_length_le stable bucket names contents L Hnames Hshared Hmax Hserves
                _ _ Hcont) as Hcmax.
  unfold byte_length in Hcmax.
  set (before := concat (take p lps)) in *.
  set (rest := concat (drop (S p) lps)).
  assert (concat lps = before ++ lp ++ rest) as Hsplit by (by apply concat_split_at).
  rewrite (concat_take_S _ _ _ Hlp) in Hhi, Hall. fold before in Hhi, Hall.
  rewrite length_app in Hhi, Hall.
  remember (o - length before)%nat as j eqn:Hj.
  (* the physical start in the part *)
  assert (∃ start : nat,
            (start ≤ length c)%nat ∧ drop start c = drop j lp
            ∧ (length c - start = length lp - j)%nat
            ∧ (if bool_decide (p = 0%nat) then ret (Z.of_nat o)
               else prev <- at_ (cumulative_logical_sizes L contents) (p - 1) ;;
                    ret (add64 (sub64 (Z.of_nat o) prev) (Z.of_nat L))) (w, tr)
              = (Ret (Z.of_nat start), (w, tr)))
    as (start & Hstart & Hdata & Hremain & Hcurr).
  { destruct p as [|q] eqn:Hq.
    - exists o. unfold lps in Hlp. rewrite (logical_parts_lookup_0 _ _ _ Hcont) in Hlp.
      injection Hlp as <-. subst before. simpl in *.
      replace j with o by lia. split_and!; [lia|done|lia|done].
    - exists (j + L)%nat. unfold lps in Hlp.
      rewrite (logical_parts_lookup_S _ _ _ _ Hcont) in Hlp. injection Hlp as <-.
      pose proof (Hshared _ _ Hcont). rewrite length_drop in *.
      split_and!; [lia| |lia|].
      + by rewrite drop_drop, (Nat.add_comm L j).
      + rewrite bool_decide_eq_false_2 by done.
        assert (cumulative_logical_sizes L contents !! (S q - 1)%nat
                = Some (Z.of_nat (length before))) as Hprev.
        { unfold cumulative_logical_sizes. fold lps.
          rewrite cumulative_lookup by lia.
          replace (S (S q - 1)) with (S q) by lia. done. }
        rewrite (bind_Ret _ _ _ _ _ (at_Some _ _ _ _ Hprev)). unfold ret.
        rewrite (sub64_id (Z.of_nat o) (Z.of_nat (length before)))
          by (unfold in_int64, min_val, max_val in *; lia).
        rewrite (add64_id (Z.of_nat o - Z.of_nat (length before)) (Z.of_nat L))
          by (unfold in_int64, min_val, max_val in *; lia).
        do 2 f_equal. lia. }
  rewrite (bind_Ret _ _ _ _ _ Hcurr).
  (* the download *)
  remember (length relay `min` (length lp - j))%nat as rd eqn:Hrd.
  destruct (Hserves p name c Hname Hcont (Z.of_nat start) (Z.of_nat (length relay)) w)
    as (w1 & Hcall & Hw1); [unfold byte_length; lia|lia|done|].
  assert (slice (Z.of_nat start) (Z.of_nat (length relay)) c = take rd (drop j lp)) as Hslice.
  { unfold slice. rewrite Nat2Z.id, Hdata. f_equal. lia. }
  rewrite Hslice in Hcall.
  assert (length (take rd (drop j lp)) = rd) as Hlen
    by (rewrite length_take, length_drop; lia).
  assert ((file <- at_ names p ;; ReadPart bucket file relay (Z.of_nat start)) (w, tr)
          = (Ret (Z.of_nat rd, blit (take rd (drop j lp)) 0 relay),
             (w1, tr ++ [ReqDownloadTo bucket name (Z.of_nat start)
                           (Z.of_nat (length relay))]))) as Hread.
  { rewrite (bind_Ret _ _ _ _ _ (at_Some _ _ _ _ Hname)).
    unfold ReadPart, download, bind, call, ret. simpl.
    rewrite Hcall. simpl. by rewrite Hlen. }
  rewrite (bind_Ret _ _ _ _ _ (try_Ret _ _ _ _ Hread)). cbn beta iota.
  rewrite Nat2Z.id.
  pose proof (blit_take (take rd (drop j lp)) 0 relay) as Htake.
  rewrite Hlen in Htake. simpl in Htake. rewrite Htake by lia. clear Htake.
  unfold ofstream_write. cbn [os_good os_written]. rewrite Hwrites.
  rewrite (add64_id (Z.of_nat o) (Z.of_nat rd))
    by (unfold in_int64, min_val, max_val in *; lia).
  assert (cumulative_logical_sizes L contents !! p
          = Some (Z.of_nat (length before) + Z.of_nat (length lp))) as Hcur.
  { unfold cumulative_logical_sizes. fold lps. rewrite cumulative_lookup by lia.
    rewrite (concat_take_S _ _ _ Hlp). fold before. unfold byte_length.
    rewrite length_app. f_equal. lia. }
  rewrite (bind_Ret _ _ _ _ _ (at_Some _ _ _ _ Hcur)).
  assert (take o (concat lps) ++ take rd (drop j lp) = take (o + rd) (concat lps)) as ->.
  { rewrite Hsplit. replace o with (length before + j)%nat by lia.
    replace (length before + j + rd)%nat with (length before + (j + rd))%nat by lia.
    rewrite !take_concat_prefix by lia. rewrite <- (assoc_L (++)). f_equal.
    apply take_take_drop. }
  replace (Z.of_nat o + Z.of_nat rd) with (Z.of_nat (o + rd)) by lia.
  assert (0 < length (blit (take rd (drop j lp)) 0 relay))%nat as Hrelay'
    by (rewrite blit_length by (simpl; lia); done).
  clear Hcurr Hread Hcall.
  case_bool_decide as Hfull.
  - apply IH; [lia| | |done|done|].
    + rewrite (concat_take_S _ _ _ Hlp). fold before. rewrite length_app. lia.
    + etrans; [|apply (concat_take_mono lps (S p) (S (S p))); lia].
      rewrite (concat_take_S _ _ _ Hlp). fold before. rewrite length_app. lia.
    + lia.
  - apply IH; [lia| | |done|done|].
    + fold before. lia.
    + rewrite (concat_take_S _ _ _ Hlp). fold before. rewrite length_app. lia.
    + assert (0 < rd)%nat by lia. lia.
Qed.

Lemma copyToLocal_of_index (fuel turns : nat) (d : Driver) (source object : string)
    (svc : Service) (r : Reader) (w : World) (tr : list Request) (w1 : World)
    (tr1 : list Request) :
  bIsConnected d ≠ kFalse →
  ParseAzureUri source = DriverSuccess (mkParseUriResult svc bucket object) →
  MakeReaderPtr fuel bucket object (w, tr) = (Ret (DriverSuccess r), (w1, tr1)) →
  indexes bucket names contents L r → offset_ r = 0 → stable w1 →
  ofstream_is_open dest = true →
  (length (elided_stream L contents) + length contents < turns)%nat →
  ∃ s',
    driver_copyToLocal storage_what ofstream_is_open ofstream_write_ok fuel turns d
      (Some source) (Some dest) (w, tr)
    = (Ret (kSuccess, d, Some (elided_stream L contents)), s').
Proof.
  intros Hconn Hparse Hmk Hidx Hoff Hw1 Hopen Hturns.
  destruct (copyToLocal_loop_copies r Hidx turns 0 0
              (replicate (Z.to_nat dl_limit) "000"%byte) w1 tr1)
    as (w2 & tr2 & Hloop & _); [lia|simpl; lia|lia| |done|lia|].
  { rewrite length_replicate. unfold dl_limit. lia. }
  exists (w2, tr2). unfold driver_copyToLocal.
  rewrite (connected_test _ Hconn), Hparse. cbv beta iota.
  rewrite (bind_Ret _ _ _ _ _ Hmk). rewrite Hopen. cbn [negb].
  rewrite Hoff. change (Z.of_nat 0) with 0 in Hloop. rewrite take_0 in Hloop.
  rewrite (bind_Ret _ _ _ _ _ Hloop). cbn [os_good os_written negb orb].
  destruct Hidx as (_ & _ & _ & _ & ->).
  by rewrite bool_decide_eq_false_2 by lia.
Qed.

End Copy.

Section CopyParts.
Context {World : Type} `{BlobService World}.
Implicit Types s : World * list Request.

Variable storage_what : HttpStatusCode → string → string.
Variable ofstream_is_open : string → bool.
Variable ofstream_write_ok : string → list byte → list byte → bool.

Variable stable : World → Prop.
Variables (fuel : nat) (bucket object : string) (pos : nat).
Variables (first : BlobItem) (next : list BlobItem) (c0 : list byte) (cs : list (list byte)).
Variables (w : World) (tr : list Request) (w1 : World) (tr1 : list Request).
Variable k : nat.

Hypothesis Hpattern : FindPatternSpecialChar object = Some pos.
Hypothesis Hlisting :
  FilterList bucket object pos (w, tr) = (Ret (DriverSuccess (first :: next)), (w1, tr1)).
Hypothesis Hstable : stable w1.
Hypothesis Hmulti : next ≠ [].
Hypothesis Hparts : Forall2 (lists stable bucket) (first :: next) (c0 :: cs).
Hypothesis Hmax : byte_length (concat (c0 :: cs)) ≤ max_val.
Hypothesis Hfuel : (length c0 < fuel)%nat.
Hypothesis Hk : first_newline_at c0 k.
Hypothesis Hall : Forall (λ c, take (S k) c = take (S k) c0) cs.

(** X29: for a pattern that lists several parts which the store serves and
    which all begin with the first line of the first part, when the local
    file opens and every write to it succeeds, [driver_copyToLocal] returns
    [kSuccess], leaves the driver unchanged, and the bytes written to the
    local file are the first part followed by the other parts without their
    first line. *)
Theorem copyToLocal_writes_the_elided_stream (turns : nat) (d : Driver)
    (source dest : string) (svc : Service) :
  bIsConnected d ≠ kFalse →
  ParseAzureUri source = DriverSuccess (mkParseUriResult svc bucket object) →
  ofstream_is_open dest = true →
  (∀ written chunk, ofstream_write_ok dest written chunk = true) →
  (length (elided_stream (S k) (c0 :: cs)) + length (c0 :: cs) < turns)%nat →
  ∃ s',
    driver_copyToLocal storage_what ofstream_is_open ofstream_write_ok fuel turns d
      (Some source) (Some dest) (w, tr)
    = (Ret (kSuccess, d, Some (elided_stream (S k) (c0 :: cs))), s').
Proof.
  intros Hconn Hparse Hopen Hwrites Hturns.
  destruct (MakeReaderPtr_shared_index stable fuel bucket object pos first next c0 cs
              w tr w1 tr1 k Hpattern Hlisting Hstable Hmulti Hparts Hmax Hfuel Hk Hall)
    as (r & w' & tr' & Hmk & Hw' & Hoff & Hidx).
  pose proof (Forall2_length _ _ _ Hparts) as Hlen.
  apply (copyToLocal_of_index storage_what ofstream_is_open ofstream_write_ok stable bucket
           (Name <$> first :: next) (c0 :: cs) (S k) dest
           ltac:(by rewrite length_fmap)
           ltac:(eapply shared_parts_are_long; eassumption) Hmax
           ltac:(eapply listed_parts_are_served; eassumption)
           Hwrites fuel turns d source object svc r w tr w' tr'); done.
Qed.

End CopyParts.

(** ** A blob named without pattern *)

Section PlainBlob.
Context {World : Type} `{BlobService World}.
Implicit Types s : World * list Request.

Variable storage_what : HttpStatusCode → string → string.
Variable ofstream_is_open : string → bool.
Variable ofstream_write_ok : string → list byte → list byte → bool.

Variable stable : World → Prop.
Variables (bucket object : string) (c : list byte).
Variables (w : World) (tr : list Request) (w1 : World).

Hypothesis Hplain : FindPatternSpecialChar object = None.
Hypothesis Hproperties : GetProperties bucket object w = (Ret (byte_length c), w1).
Hypothesis Hstable : stable w1.
Hypothesis Hserved : served stable bucket object c.
Hypothesis Hmax : byte_length c ≤ max_val.

Lemma MakeReaderPtr_plain (fuel : nat) :
  MakeReaderPtr fuel bucket object (w, tr)
  = (Ret (DriverSuccess (make_simple_reader bucket object object (byte_length c))),
     (w1, tr ++ [ReqGetProperties bucket object])).
Proof.
  unfold MakeReaderPtr. rewrite Hplain. unfold bind, try_, call, ret. simpl.
  by rewrite Hproperties.
Qed.

Lemma plain_elided : elided_stream 0 [c] = c.
Proof. unfold elided_stream. simpl. apply app_nil_r. Qed.

Lemma plain_indexes :
  indexes bucket [object] [c] 0 (make_simple_reader bucket object object (byte_length c)).
Proof.
  unfold indexes, make_simple_reader, make_Reader. simpl. split_and!; try done.
  by rewrite plain_elided.
Qed.

Lemma plain_serves : serves stable bucket [object] [c].
Proof.
  intros i name c' Hname Hc. destruct i as [|i]; simpl in *; [|done].
  by simplify_eq.
Qed.

Lemma plain_shared : ∀ i c', [c] !! S i = Some c' → (0 ≤ length c')%nat.
Proof. intros. lia. Qed.

Lemma plain_max : byte_length (concat [c]) ≤ max_val.
Proof. simpl. by rewrite app_nil_r. Qed.

(** X4: for a name without special character whose properties give the size
    of the blob and whose bytes the store serves, opening the locator for
    reading returns a handle that is not null, on which a first read of [n]
    bytes delivers the first [n] bytes of the blob and leaves the cursor at
    [n]; and [driver_copyToLocal], when the local file opens and every write
    to it succeeds, returns [kSuccess], leaves the driver unchanged and writes
    exactly the bytes of the blob. *)
Theorem plain_blob_is_read_and_copied (fuel turns : nat) (d : Driver)
    (filename dest : string) (svc : Service) (buffer : list byte) (n : nat) :
  bIsConnected d ≠ kFalse →
  ParseAzureUri filename = DriverSuccess (mkParseUriResult svc bucket object) →
  (allocate (live_handles d) ≠ nullptr → allocate (live_handles d) ∉ live_handles d →
   (0 < n ≤ length buffer)%nat → (n ≤ length c)%nat →
   ∃ h d1 s1 d2 s2,
     driver_fopen fuel d (Some filename) "r" (w, tr) = (Ret (h, d1), s1) ∧ h ≠ nullptr
     ∧ driver_fread d1 (Some buffer) 1 (Z.of_nat n) h s1
       = (Ret (Z.of_nat n, d2, Some (take n c ++ drop n buffer)), s2)
     ∧ cursor d2 h = Some (Z.of_nat n))
  ∧ (ofstream_is_open dest = true →
     (∀ written chunk, ofstream_write_ok dest written chunk = true) →
     (length c + 1 < turns)%nat →
     ∃ s',
       driver_copyToLocal storage_what ofstream_is_open ofstream_write_ok fuel turns d
         (Some filename) (Some dest) (w, tr)
       = (Ret (kSuccess, d, Some c), s')).
Proof.
  intros Hconn Hparse.
  set (r := make_simple_reader bucket object object (byte_length c)).
  pose proof (MakeReaderPtr_plain fuel) as Hmk. fold r in Hmk.
  split.
  - intros Hnonnull Hfresh Hn Hend.
    set (h := allocate (live_handles d)) in *.
    set (d1 := set_readers (active_reader_handles d ++ [(h, r)]) d).
    assert (driver_fopen fuel d (Some filename) "r" (w, tr)
            = (Ret (h, d1), (w1, tr ++ [ReqGetProperties bucket object]))) as Hopen.
    { unfold driver_fopen. rewrite (connected_test _ Hconn), Hparse. simpl.
      unfold RegisterReader. by rewrite (bind_Ret _ _ _ _ _ (bind_Ret _ _ _ _ _ Hmk)). }
    unfold live_handles in Hfresh. apply not_elem_of_app in Hfresh as [Hr _].
    assert (FindReader h d1 = Some (length (active_reader_handles d), (h, r))) as Hfind
      by (by apply FindHandle_app_fresh).
    unfold byte_length in Hmax.
    destruct (driver_fread_delivers stable bucket [object] [c] 0 eq_refl plain_shared
                plain_max plain_serves d1 buffer 1 (Z.of_nat n) h
                (length (active_reader_handles d)) r 0 n w1
                (tr ++ [ReqGetProperties bucket object]))
      as (w2 & reqs & Hread & Hw2);
      [done|done|done|apply plain_indexes|done|lia|lia|lia|rewrite plain_elided; lia
      |rewrite plain_elided; unfold byte_length; lia|lia|done|].
    rewrite plain_elided in Hread. rewrite drop_0 in Hread.
    eexists h, d1, _, _, _. split_and!; [exact Hopen|done|exact Hread|].
    by apply cursor_after_seek.
  - intros Hopen Hwrites Hturns.
    destruct (copyToLocal_of_index storage_what ofstream_is_open ofstream_write_ok stable bucket
                [object] [c] 0 dest eq_refl plain_shared plain_max plain_serves Hwrites
                fuel turns d filename object svc r w tr w1
                (tr ++ [ReqGetProperties bucket object]))
      as [s' Hcopy]; [done|done|done|apply plain_indexes|done|done|done| |].
    { rewrite plain_elided. simpl. lia. }
    rewrite plain_elided in Hcopy. by exists s'.
Qed.

End PlainBlob.

(** ** The properties on concrete inputs *)

Lemma ParseAzureUri_accepts_witness :
  ParseAzureUri (World := Mem.Store) "https://acc.blob.core.windows.net/data/dir/x.txt"
  = DriverSuccess {| service := BLOB; bucket := "data"; object := "dir/x.txt" |}
  ∧ ParseAzureUri (World := Mem.Store) "http://127.0.0.1:10000/devstoreaccount1/data/part-*"
    = DriverSuccess {| service := BLOB; bucket := "data"; object := "part-*" |}.
Proof.
  split.
  - refine (proj1 (ParseAzureUri_accepts (World := Mem.Store)
                     "https://acc.blob.core.windows.net/data/dir/x.txt" _ _)
              "acc" ".blob.core.windows.net" "data" "dir/x.txt" BLOB _ _ _ _).
    + left. reflexivity.
    + reflexivity.
    + left. split; reflexivity.
    + reflexivity.
    + reflexivity.
    + reflexivity.
  - refine (proj2 (ParseAzureUri_accepts (World := Mem.Store)
                     "http://127.0.0.1:10000/devstoreaccount1/data/part-*" _ _)
              "devstoreaccount1" "data" "part-*" _ _ _ _).
    + right. reflexivity.
    + reflexivity.
    + reflexivity.
    + reflexivity.
    + reflexivity.
    + reflexivity.
Defined.

Lemma ParseAzureUri_reassembles_witness :
  valid_scheme (World := Mem.Store) "https://acc.file.core.windows.net/share/dir/x.txt"
  ∧ no_slash "share"
  ∧ Url_GetPath (World := Mem.Store) "https://acc.file.core.windows.net/share/dir/x.txt"
    = "share" +:+ "/" +:+ "dir/x.txt"
  ∧ SHARE = host_service "acc.file.core.windows.net".
Proof.
  exact (ParseAzureUri_reassembles (World := Mem.Store)
           "https://acc.file.core.windows.net/share/dir/x.txt"
           {| service := SHARE; bucket := "share"; object := "dir/x.txt" |}
           eq_refl eq_refl).
Defined.

Lemma seek_begin_sets_cursor_witness :
  ((driver_fseek (seek_driver 0 100) 16 40 ios_beg).1 = 0
   ∧ cursor (driver_fseek (seek_driver 0 100) 16 40 ios_beg).2 16 = Some 40
   ∧ lastError (driver_fseek (seek_driver 0 100) 16 40 ios_beg).2
     = lastError (seek_driver 0 100))
  ∧ driver_fseek (seek_driver 0 100) 16 (-3) ios_beg
    = (kBadSize, LogError ("Invalid seek offset " +:+ to_string (-3)) (seek_driver 0 100)).
Proof.
  split.
  - refine (proj1 (seek_begin_sets_cursor (seek_driver 0 100) 16 0 _ 40 _ _ _) _).
    + vm_compute. discriminate.
    + vm_compute. discriminate.
    + reflexivity.
    + lia.
  - refine (proj2 (seek_begin_sets_cursor (seek_driver 0 100) 16 0 _ (-3) _ _ _) _).
    + vm_compute. discriminate.
    + vm_compute. discriminate.
    + reflexivity.
    + lia.
Defined.

Lemma seek_end_counts_from_last_byte_witness :
  driver_fseek (seek_driver 0 100) 16 max_val ios_end
  = (kBadSize, LogError "Signed overflow prevented" (seek_driver 0 100))
  ∧ driver_fseek (seek_driver 0 100) 16 (-200) ios_end
    = (kBadSize,
       LogError ("Invalid seek offset " +:+ to_string (100 - 1 + -200)) (seek_driver 0 100))
  ∧ (driver_fseek (seek_driver 0 100) 16 (-10) ios_end).1 = 0
  ∧ cursor (driver_fseek (seek_driver 0 100) 16 (-10) ios_end).2 16 = Some (100 - 1 + -10).
Proof.
  split_and!.
  - refine (proj1 (seek_end_counts_from_last_byte (seek_driver 0 100) 16 0 _ max_val
                     _ _ eq_refl _ _) _).
    + vm_compute. discriminate.
    + vm_compute. discriminate.
    + vm_compute. split; [reflexivity|discriminate].
    + vm_compute. split; discriminate.
    + vm_compute. reflexivity.
  - refine (proj1 (proj2 (seek_end_counts_from_last_byte (seek_driver 0 100) 16 0 _ (-200)
                            _ _ eq_refl _ _)) _).
    + vm_compute. discriminate.
    + vm_compute. discriminate.
    + vm_compute. split; [reflexivity|discriminate].
    + vm_compute. split; discriminate.
    + vm_compute. reflexivity.
  - refine (proj1 (proj2 (proj2 (seek_end_counts_from_last_byte (seek_driver 0 100) 16 0 _
                                   (-10) _ _ eq_refl _ _)) _)).
    + vm_compute. discriminate.
    + vm_compute. discriminate.
    + vm_compute. split; [reflexivity|discriminate].
    + vm_compute. split; discriminate.
    + vm_compute. split; discriminate.
  - refine (proj2 (proj2 (proj2 (seek_end_counts_from_last_byte (seek_driver 0 100) 16 0 _
                                   (-10) _ _ eq_refl _ _)) _)).
    + vm_compute. discriminate.
    + vm_compute. discriminate.
    + vm_compute. split; [reflexivity|discriminate].
    + vm_compute. split; discriminate.
    + vm_compute. split; discriminate.
Defined.

Lemma seek_begin_then_current_witness :
  driver_fseek (driver_fseek (seek_driver 0 100) 16 30 ios_beg).2 16 12 ios_cur
  = driver_fseek (seek_driver 0 100) 16 (30 + 12) ios_beg.
Proof.
  refine (seek_begin_then_current (seek_driver 0 100) 16 0 _ 30 12 _ _ eq_refl _ _).
  - vm_compute. discriminate.
  - vm_compute. discriminate.
  - vm_compute. split; discriminate.
  - vm_compute. split; discriminate.
Defined.

Lemma fread_moves_only_the_cursor_witness :
  bIsConnected (read_driver 115) = bIsConnected (read_driver 95)
  ∧ active_writer_handles (read_driver 115) = active_writer_handles (read_driver 95)
  ∧ (active_reader_handles (read_driver 115)).*1 = (active_reader_handles (read_driver 95)).*1
  ∧ (∀ h', h' ≠ 16 →
       resolve h' (active_reader_handles (read_driver 115))
       = resolve h' (active_reader_handles (read_driver 95)))
  ∧ (∀ r', resolve 16 (active_reader_handles (read_driver 115)) = Some r' →
       ∃ r, resolve 16 (active_reader_handles (read_driver 95)) = Some r
            ∧ r' = set_offset r (offset_ r')).
Proof.
  apply (fread_moves_only_the_cursor (read_driver 95) (Some (zeros 20)) 1 20 16
           (two_parts, []) 20 (read_driver 115)
           (Some (drop 95 part_a ++ take 15 (drop 10 part_b)))
           (two_parts,
            [ReqDownloadTo "data" "part-0" 95 5; ReqDownloadTo "data" "part-1" 10 15])).
  by vm_compute.
Defined.

Lemma fwrite_appends_one_block_witness :
  driver_fwrite storage_text log_driver (Some (Mem.bytes "defgh")) 2 2 32 (log_store, [])
  = (Ret (2 * 2, log_driver),
     ([Mem.mkBlob "data" "log" (Mem.bytes "abcdefg") false true],
      [] ++ [ReqAppendBlock "data" "log" (take (Z.to_nat (2 * 2)) (Mem.bytes "defgh"))])).
Proof.
  refine (proj1 (fwrite_appends_one_block storage_text log_driver (Mem.bytes "defgh") 2 2 32
                   0 (mkWriter "data" "log") log_store [] _ _ eq_refl _ _ _ _) _ _).
  - vm_compute. discriminate.
  - vm_compute. discriminate.
  - lia.
  - lia.
  - vm_compute. discriminate.
  - vm_compute. discriminate.
  - reflexivity.
Defined.

Lemma handle_kinds_do_not_mix_witness :
  (driver_fseek log_driver 32 0 ios_beg
   = (kBadSize, LogError "Cannot identify stream as a reader stream." log_driver)
   ∧ driver_fread log_driver (Some (zeros 4)) 1 4 32 (log_store, [])
     = (Ret (kBadSize, LogError "Cannot identify stream as a reader stream." log_driver,
             Some (zeros 4)), (log_store, []))
   ∧ driver_fflush log_driver 32 = (0, log_driver))
  ∧ (driver_fwrite storage_text log_driver (Some (zeros 4)) 1 4 16 (log_store, [])
     = (Ret (kBadSize, LogError "Cannot identify stream as a writer stream." log_driver),
        (log_store, []))
     ∧ driver_fflush log_driver 16
       = (-1, LogError "Cannot identify stream as a writer stream." log_driver)).
Proof.
  split.
  - refine (proj1 (handle_kinds_do_not_mix storage_text log_driver 32 (zeros 4) 1 4 0 ios_beg
                     (log_store, []) _ _ _ _) _).
    + vm_compute. discriminate.
    + apply (bool_decide_unpack _). by vm_compute.
    + vm_compute. discriminate.
    + lia.
    + apply (bool_decide_unpack _). by vm_compute.
  - refine (proj2 (handle_kinds_do_not_mix storage_text log_driver 16 (zeros 4) 1 4 0 ios_beg
                     (log_store, []) _ _ _ _) _).
    + vm_compute. discriminate.
    + apply (bool_decide_unpack _). by vm_compute.
    + vm_compute. discriminate.
    + lia.
    + apply (bool_decide_unpack _). by vm_compute.
Defined.

Lemma fopen_two_parts :
  driver_fopen 101 log_driver (Some parts_uri) "r" (two_parts, [])
  = (Ret (33, opened_driver), (two_parts, open_trace)).
Proof. by vm_compute. Qed.

Lemma fopen_registers_at_most_one_stream_witness :
  bIsConnected opened_driver = bIsConnected log_driver
  ∧ NoDup (live_handles opened_driver)
  ∧ (∀ h', h' ∈ live_handles log_driver →
       resolve h' (active_reader_handles opened_driver)
       = resolve h' (active_reader_handles log_driver)
       ∧ resolve h' (active_writer_handles opened_driver)
         = resolve h' (active_writer_handles log_driver))
  ∧ (33 = nullptr → live_handles opened_driver = live_handles log_driver)
  ∧ (33 ≠ nullptr →
       (33 ∉ live_handles log_driver)
       ∧ (live_handles opened_driver ≡ₚ (33 :: live_handles log_driver))
       ∧ lastError opened_driver = lastError log_driver
       ∧ (if bool_decide ("r"%char = "r"%char) then cursor opened_driver 33 = Some 0
          else is_Some (resolve 33 (active_writer_handles opened_driver)))).
Proof.
  apply (fopen_registers_at_most_one_stream 101 log_driver (Some parts_uri) "r"
           (two_parts, []) 33 opened_driver (two_parts, open_trace)).
  - apply (bool_decide_unpack _). by vm_compute.
  - apply (bool_decide_unpack _). by vm_compute.
  - vm_compute. discriminate.
  - exact fopen_two_parts.
Defined.

Lemma open_then_close_restores_witness :
  driver_fclose opened_driver 33 = (inr kCloseSuccess, log_driver).
Proof.
  apply (open_then_close_restores 101 log_driver (Some parts_uri) "r" (two_parts, []) 33
           opened_driver (two_parts, open_trace)).
  - apply (bool_decide_unpack _). by vm_compute.
  - exact fopen_two_parts.
  - vm_compute. discriminate.
Defined.

Lemma getFileSize_is_total_of_opened_stream_witness :
  ∃ r, resolve 33 (active_reader_handles opened_driver) = Some r
       ∧ driver_getFileSize 101 log_driver (Some parts_uri) (two_parts, [])
         = (Ret (total_size_ r, log_driver), (two_parts, open_trace)).
Proof.
  apply (getFileSize_is_total_of_opened_stream 101 log_driver parts_uri
           (mkParseUriResult BLOB "data" "part-*") (two_parts, []) 33 opened_driver
           (two_parts, open_trace)).
  - reflexivity.
  - reflexivity.
  - apply (bool_decide_unpack _). by vm_compute.
  - exact fopen_two_parts.
  - vm_compute. discriminate.
Defined.

Lemma FilterList_keeps_the_matching_blobs_witness :
  [mkBlobItem "part-0" 100 false; mkBlobItem "part-1" 100 false] ≠ []
  ∧ ∃ listing w',
      ListBlobs "data" (String.substring 0 5 "part-*") two_parts = (Ret listing, w')
      ∧ (two_parts, [ReqListBlobs "data" "part-"])
        = (w', [] ++ [ReqListBlobs "data" (String.substring 0 5 "part-*")])
      ∧ [mkBlobItem "part-0" 100 false; mkBlobItem "part-1" 100 false] `sublist_of` listing
      ∧ ∀ item, item ∈ [mkBlobItem "part-0" 100 false; mkBlobItem "part-1" 100 false]
                ↔ item ∈ listing ∧ IsDeleted item = false
                  ∧ gitignore_glob_match (Name item) "part-*" = true.
Proof.
  apply (FilterList_keeps_the_matching_blobs "data" "part-*" 5 two_parts []
           [mkBlobItem "part-0" 100 false; mkBlobItem "part-1" 100 false]
           (two_parts, [ReqListBlobs "data" "part-"])).
  by vm_compute.
Defined.

Lemma FindHeader_returns_the_first_line_witness :
  ∃ w' reqs,
    FindHeader 1 "data" "part-0" (two_parts, [])
    = (Ret (Some (take 10 part_a)), (w', [] ++ reqs))
    ∧ Forall (block_request "data" "part-0") reqs ∧ w' = two_parts.
Proof.
  refine (proj1 (FindHeader_returns_the_first_line (λ w, w = two_parts) 1 "data" "part-0"
                   part_a two_parts [] _ _ _ _) 9%nat _).
  - by apply (mem_served two_parts "data" "part-0" 0
                (Mem.mkBlob "data" "part-0" part_a false true)).
  - vm_compute. discriminate.
  - reflexivity.
  - change (length part_a) with 100%nat. unfold block_size. lia.
  - exact part_a_first_newline.
Defined.

Lemma fileExists_wants_a_blob_locator_witness :
  driver_fileExists storage_text false idle_driver
    (Some "https://acc.file.core.windows.net/share/dir/x.txt") (two_parts, [])
  = (Ret (kFalse,
          LogError "Error checking blob's existence: not a URL of a blob service."
            idle_driver), (two_parts, [])).
Proof.
  apply (fileExists_wants_a_blob_locator storage_text false idle_driver
           "https://acc.file.core.windows.net/share/dir/x.txt" (two_parts, [])).
  - vm_compute. discriminate.
  - right. exists {| service := SHARE; bucket := "share"; object := "dir/x.txt" |}.
    split; [reflexivity|discriminate].
Defined.

Lemma fileExists_agrees_with_open_witness :
  ∃ s'', driver_fileExists storage_text false log_driver (Some parts_uri) (two_parts, [])
         = (Ret (kTrue, log_driver), s'').
Proof.
  refine (proj1 (fileExists_agrees_with_open storage_text false 101 log_driver parts_uri
                   "data" "part-*" two_parts [] _ eq_refl _)
            33 opened_driver (two_parts, open_trace) fopen_two_parts _).
  - vm_compute. discriminate.
  - vm_compute. discriminate.
  - vm_compute. discriminate.
Defined.

Lemma exist_of_a_directory_witness :
  driver_exist storage_text false idle_driver
    (Some ("https://acc.blob.core.windows.net/data/dir" +:+ "/")) (two_parts, [])
  = (Ret (kTrue, idle_driver), (two_parts, []))
  ∧ ∀ c, c ≠ "/"%char →
      driver_exist storage_text false idle_driver
        (Some ("https://acc.blob.core.windows.net/data/dir" +:+ String c "")) (two_parts, [])
      = driver_fileExists storage_text false idle_driver
          (Some ("https://acc.blob.core.windows.net/data/dir" +:+ String c ""))
          (two_parts, []).
Proof.
  apply (exist_of_a_directory storage_text false idle_driver
           "https://acc.blob.core.windows.net/data/dir" (two_parts, [])).
  vm_compute. discriminate.
Defined.

Lemma zero_length_transfers_witness :
  (driver_fread log_driver (Some (zeros 4)) 0 4 16 (log_store, [])
   = (Ret (kBadSize, LogError "Error passing size of 0" log_driver, Some (zeros 4)),
      (log_store, []))
   ∧ driver_fread log_driver (Some (zeros 4)) 4 0 16 (log_store, [])
     = (Ret (0, log_driver, Some (zeros 4)), (log_store, [])))
  ∧ (driver_fwrite storage_text log_driver (Some (zeros 4)) 0 4 32 (log_store, [])
     = (Ret (kBadSize, LogError "Error passing size 0 to fwrite" log_driver), (log_store, []))
     ∧ driver_fwrite storage_text log_driver (Some (zeros 4)) 4 0 32 (log_store, [])
       = (Ret (0, log_driver), (log_store, []))).
Proof.
  split.
  - destruct (proj1 (zero_length_transfers storage_text log_driver (zeros 4) 4 4 16
                       (log_store, []) ltac:(vm_compute; discriminate)
                       ltac:(vm_compute; discriminate))) as [Hsize Hcount].
    { apply (bool_decide_unpack _). by vm_compute. }
    split; [exact Hsize|]. apply Hcount. lia.
  - destruct (proj2 (zero_length_transfers storage_text log_driver (zeros 4) 4 4 32
                       (log_store, []) ltac:(vm_compute; discriminate)
                       ltac:(vm_compute; discriminate))) as [Hsize Hcount].
    { apply (bool_decide_unpack _). by vm_compute. }
    split; [exact Hsize|]. apply Hcount. lia.
Defined.

Lemma fread_delivers_the_logical_bytes_witness :
  ∃ d' buffer' w' reqs,
    driver_fread (read_driver 95) (Some (zeros 30)) 4 5 16 (two_parts, [])
    = (Ret (Z.of_nat 20, d', Some buffer'), (w', [] ++ reqs))
    ∧ buffer' = take 20 (drop 95 (elided_stream 10 [part_a; part_b])) ++ drop 20 (zeros 30)
    ∧ cursor d' 16 = Some (Z.of_nat (95 + 20))
    ∧ w' = two_parts.
Proof.
  apply (fread_delivers_the_logical_bytes (λ w, w = two_parts) "data"
           ["part-0"; "part-1"] [part_a; part_b] 10) with (pos := 0%nat) (r := two_part_reader 95).
  - reflexivity.
  - intros i c Hc. destruct i as [|i]; simpl in Hc; simplify_eq. vm_compute. lia.
  - vm_compute. discriminate.
  - exact two_parts_serves.
  - vm_compute. discriminate.
  - vm_compute. discriminate.
  - reflexivity.
  - by vm_compute.
  - reflexivity.
  - lia.
  - lia.
  - vm_compute. discriminate.
  - vm_compute. lia.
  - by vm_compute.
  - vm_compute. lia.
  - reflexivity.
Defined.

Lemma consecutive_reads_concatenate_witness :
  ∃ d1 first' s1 d2 second' s2 both' s3,
    driver_fread (read_driver 95) (Some (zeros 8)) 1 (Z.of_nat 8) 16 (two_parts, [])
    = (Ret (Z.of_nat 8, d1, Some first'), s1)
    ∧ driver_fread d1 (Some (zeros 12)) 1 (Z.of_nat 12) 16 s1
      = (Ret (Z.of_nat 12, d2, Some second'), s2)
    ∧ driver_fread (read_driver 95) (Some (zeros 20)) 1 (Z.of_nat (8 + 12)) 16 (two_parts, [])
      = (Ret (Z.of_nat (8 + 12), d2, Some both'), s3)
    ∧ first' ++ second' = both'
    ∧ both' = take (8 + 12) (drop 95 (elided_stream 10 [part_a; part_b])).
Proof.
  apply (consecutive_reads_concatenate (λ w, w = two_parts) "data"
           ["part-0"; "part-1"] [part_a; part_b] 10) with (pos := 0%nat) (r := two_part_reader 95).
  - reflexivity.
  - intros i c Hc. destruct i as [|i]; simpl in Hc; simplify_eq. vm_compute. lia.
  - vm_compute. discriminate.
  - exact two_parts_serves.
  - vm_compute. discriminate.
  - vm_compute. discriminate.
  - reflexivity.
  - by vm_compute.
  - reflexivity.
  - lia.
  - lia.
  - vm_compute. lia.
  - reflexivity.
  - reflexivity.
  - reflexivity.
  - reflexivity.
Defined.

Lemma open_then_read_delivers_the_elided_stream_witness :
  ∃ h d1 s1 d2 s2,
    driver_fopen 101 log_driver (Some parts_uri) "r" (two_parts, []) = (Ret (h, d1), s1)
    ∧ h ≠ nullptr
    ∧ driver_fread d1 (Some (zeros 120)) 1 (Z.of_nat 120) h s1
      = (Ret (Z.of_nat 120, d2,
              Some (take 120 (elided_stream 10 [part_a; part_b]) ++ drop 120 (zeros 120))), s2)
    ∧ cursor d2 h = Some (Z.of_nat 120).
Proof.
  apply (open_then_read_delivers_the_elided_stream (λ w, w = two_parts) 101 "data" "part-*" 5
           (mkBlobItem "part-0" 100 false) [mkBlobItem "part-1" 100 false]
           part_a [part_b] two_parts [] two_parts [ReqListBlobs "data" "part-"] 9).
  - reflexivity.
  - reflexivity.
  - reflexivity.
  - discriminate.
  - exact two_parts_lists.
  - vm_compute. discriminate.
  - vm_compute. lia.
  - exact part_a_first_newline.
  - by repeat constructor.
  - vm_compute. discriminate.
  - reflexivity.
  - vm_compute. discriminate.
  - apply (bool_decide_unpack _). by vm_compute.
  - vm_compute. lia.
  - vm_compute. lia.
Defined.

Lemma copyToLocal_writes_the_elided_stream_witness :
  ∃ s',
    driver_copyToLocal storage_text (λ _, true) (λ _ _ _, true) 101 200 log_driver
      (Some parts_uri) (Some "/tmp/parts.txt") (two_parts, [])
    = (Ret (kSuccess, log_driver, Some (elided_stream 10 [part_a; part_b])), s').
Proof.
  apply (copyToLocal_writes_the_elided_stream storage_text (λ _, true) (λ _ _ _, true)
           (λ w, w = two_parts) 101 "data" "part-*" 5
           (mkBlobItem "part-0" 100 false) [mkBlobItem "part-1" 100 false]
           part_a [part_b] two_parts [] two_parts [ReqListBlobs "data" "part-"] 9)
    with (svc := BLOB).
  - reflexivity.
  - reflexivity.
  - reflexivity.
  - discriminate.
  - exact two_parts_lists.
  - vm_compute. discriminate.
  - vm_compute. lia.
  - exact part_a_first_newline.
  - by repeat constructor.
  - vm_compute. discriminate.
  - reflexivity.
  - reflexivity.
  - reflexivity.
  - vm_compute. lia.
Defined.

Lemma plain_blob_is_read_and_copied_witness :
  (∃ h d1 s1 d2 s2,
     driver_fopen 0 idle_driver (Some "http://127.0.0.1:10000/devstoreaccount1/data/log") "r"
       (log_store, [])
     = (Ret (h, d1), s1) ∧ h ≠ nullptr
     ∧ driver_fread d1 (Some (zeros 4)) 1 (Z.of_nat 2) h s1
       = (Ret (Z.of_nat 2, d2, Some (take 2 (Mem.bytes "abc") ++ drop 2 (zeros 4))), s2)
     ∧ cursor d2 h = Some (Z.of_nat 2))
  ∧ (∃ s',
       driver_copyToLocal storage_text (λ _, true) (λ _ _ _, true) 0 5 idle_driver
         (Some "http://127.0.0.1:10000/devstoreaccount1/data/log") (Some "/tmp/log")
         (log_store, [])
       = (Ret (kSuccess, idle_driver, Some (Mem.bytes "abc")), s')).
Proof.
  destruct (plain_blob_is_read_and_copied storage_text (λ _, true) (λ _ _ _, true)
              (λ w, w = log_store) "data" "log" (Mem.bytes "abc") log_store [] log_store
              eq_refl ltac:(by vm_compute) eq_refl
              (mem_served log_store "data" "log" 0
                 (Mem.mkBlob "data" "log" (Mem.bytes "abc") false true)
                 ltac:(by vm_compute) eq_refl)
              ltac:(vm_compute; discriminate)
              0 5 idle_driver "http://127.0.0.1:10000/devstoreaccount1/data/log" "/tmp/log"
              BLOB (zeros 4) 2) as [Hread Hcopy].
  - vm_compute. discriminate.
  - reflexivity.
  - split.
    + apply Hread.
      * vm_compute. discriminate.
      * apply (bool_decide_unpack _). by vm_compute.
      * vm_compute. lia.
      * vm_compute. lia.
    + apply Hcopy.
      * reflexivity.
      * reflexivity.
      * vm_compute. lia.
Defined.

Lemma fread_clamps_request_witness :
  (∃ msg, driver_fread (read_driver 190) (Some (zeros 20)) 1 20 16 (two_parts, [])
          = (Ret (kBadSize, LogError msg (read_driver 190), Some (zeros 20)), (two_parts, [])))
  ∧ driver_fread (read_driver 5) (Some (zeros 20)) max_val 2 16 (two_parts, [])
    = (Ret (kBadSize,
            LogError "product size * count is too large, would overflow" (read_driver 5),
            Some (zeros 20)), (two_parts, []))
  ∧ driver_fread (read_driver 5) (Some (zeros 20)) max_val 1 16 (two_parts, [])
    = (Ret (kBadSize,
            LogError "signed overflow prevented on reading attempt" (read_driver 5),
            Some (zeros 20)), (two_parts, []))
  ∧ ∃ d' s',
      driver_fread (read_driver 180) (Some (zeros 20)) 1 20 16 (two_parts, [])
      = (Ret (Z.of_nat 10, d',
              Some (take 10 (drop 180 (elided_stream 10 [part_a; part_b]))
                    ++ drop 10 (zeros 20))), s')
      ∧ cursor d' 16 = Some (Z.of_nat 180 + Z.of_nat 10).
Proof.
  assert (∀ i c, [part_a; part_b] !! S i = Some c → (10 ≤ length c)%nat) as Hshared.
  { intros i c Hc. destruct i as [|i]; simpl in Hc; simplify_eq. vm_compute. lia. }
  assert (byte_length (concat [part_a; part_b]) ≤ max_val) as Hmax
    by (vm_compute; discriminate).
  pose proof (λ d buffer size count r o,
                fread_clamps_request (λ w, w = two_parts) "data" ["part-0"; "part-1"]
                  [part_a; part_b] 10 eq_refl Hshared Hmax two_parts_serves d buffer size count
                  16 0 r o two_parts []) as Hread.
  split_and!.
  - refine (proj1 (Hread (read_driver 190) (zeros 20) 1 20 (two_part_reader 190) 190%nat
                     _ _ eq_refl _ eq_refl _ _) _).
    + vm_compute. discriminate.
    + vm_compute. discriminate.
    + by vm_compute.
    + lia.
    + lia.
    + vm_compute. discriminate.
  - refine (proj1 (proj2 (Hread (read_driver 5) (zeros 20) max_val 2 (two_part_reader 5) 5%nat
                            _ _ eq_refl _ eq_refl _ _)) _).
    + vm_compute. discriminate.
    + vm_compute. discriminate.
    + by vm_compute.
    + reflexivity.
    + lia.
    + vm_compute. reflexivity.
  - refine (proj1 (proj2 (proj2 (Hread (read_driver 5) (zeros 20) max_val 1
                                   (two_part_reader 5) 5%nat _ _ eq_refl _ eq_refl _ _)))
              _ _).
    + vm_compute. discriminate.
    + vm_compute. discriminate.
    + by vm_compute.
    + reflexivity.
    + lia.
    + vm_compute. discriminate.
    + vm_compute. reflexivity.
  - refine (proj2 (proj2 (proj2 (Hread (read_driver 180) (zeros 20) 1 20
                                   (two_part_reader 180) 180%nat _ _ eq_refl _ eq_refl _ _)))
              10%nat _ _ _ _ _).
    + vm_compute. discriminate.
    + vm_compute. discriminate.
    + by vm_compute.
    + lia.
    + lia.
    + vm_compute. reflexivity.
    + vm_compute. discriminate.
    + vm_compute. reflexivity.
    + vm_compute. lia.
    + reflexivity.
Defined.

Lemma header_comparison_decides_the_total_witness :
  (∃ r s',
     GetFileSize 7 (mkParseUriResult BLOB "data" "part-*") (short_parts, [])
     = (Ret (DriverSuccess (byte_length (concat [short_0; short_1; short_2])
                            - Z.of_nat 2 * Z.of_nat 3)), s')
     ∧ MakeReaderPtr 7 "data" "part-*" (short_parts, []) = (Ret (DriverSuccess r), s')
     ∧ total_size_ r
       = byte_length (concat [short_0; short_1; short_2]) - Z.of_nat 2 * Z.of_nat 3)
  ∧ (∃ r s',
       GetFileSize 101 (mkParseUriResult BLOB "data" "part-*") (mixed_parts, [])
       = (Ret (DriverSuccess (byte_length (concat [part_a; part_c]))), s')
       ∧ MakeReaderPtr 101 "data" "part-*" (mixed_parts, []) = (Ret (DriverSuccess r), s')
       ∧ total_size_ r = byte_length (concat [part_a; part_c])).
Proof.
  split.
  - refine (proj1 (header_comparison_decides_the_total (λ w, w = short_parts) 7 "data"
                     "part-*" 5 (mkBlobItem "part-0" 6 false)
                     [mkBlobItem "part-1" 4 false; mkBlobItem "part-2" 2 false]
                     short_0 [short_1; short_2] short_parts [] short_parts
                     [ReqListBlobs "data" "part-"] eq_refl _ eq_refl _ short_parts_lists _ _
                     2 _ _) _).
    + by vm_compute.
    + discriminate.
    + vm_compute. discriminate.
    + vm_compute. lia.
    + split; [done|]. intros j Hj. do 2 (destruct j as [|j]; [done|]). lia.
    + vm_compute. discriminate.
    + split; [done|]. constructor; [|constructor]. by exists [newline].
  - refine (proj2 (header_comparison_decides_the_total (λ w, w = mixed_parts) 101 "data"
                     "part-*" 5 (mkBlobItem "part-0" 100 false)
                     [mkBlobItem "part-1" 100 false]
                     part_a [part_c] mixed_parts [] mixed_parts
                     [ReqListBlobs "data" "part-"] eq_refl _ eq_refl _ mixed_parts_lists _ _
                     9 _ _) _).
    + by vm_compute.
    + discriminate.
    + vm_compute. discriminate.
    + vm_compute. lia.
    + exact part_a_first_newline.
    + vm_compute. discriminate.
    + intros [Hsame _]. vm_compute in Hsame. discriminate.
Defined.
